(** * Chat-request dispatch: routing, the three streaming strategies,
      the cancellation registry and the environment window.

    A shallow embedding of [backend/handlers/chat.ts] (with the parts of
    [auth/claude-auth-utils.ts] and [providers/registry.ts] it calls).
    Async generators are modelled as functions from a script of what the
    awaited collaborators deliver (the fetch response and its chunks, the
    LLM stream, the SDK messages) to the list of events the generator
    yields when it is drained, together with the shared state it leaves
    behind (the [requestAbortControllers] map and [process.env]). *)

From Stdlib Require Import String Ascii ZArith NArith Lia DecimalString.
From stdpp Require Import base option list strings gmap.

(** ** JavaScript values *)

(** JSON values, as produced by [JSON.parse] and consumed by
    [JSON.stringify].  Objects keep their properties in insertion order.
    Strings are sequences of code units; the model covers code units
    below 256.  Numbers are only ever passed through by the handlers. *)
#[warnings="-register-all"]
Inductive Json : Type :=
| JNull
| JBool (b : bool)
| JNum (n : Z)
| JStr (s : string)
| JArr (items : list Json)
| JObj (props : list (string * Json)).

(** [o[k]] for a property list: [None] is [undefined]. *)
Fixpoint get_prop (k : string) (o : list (string * Json)) : option Json :=
  match o with
  | [] => None
  | (k', v) :: o' => if String.eqb k k' then Some v else get_prop k o'
  end.

(** [o[k] = v]: an existing property keeps its position, a new one is
    appended. *)
Fixpoint set_prop (k : string) (v : Json) (o : list (string * Json))
  : list (string * Json) :=
  match o with
  | [] => [(k, v)]
  | (k', v') :: o' =>
      if String.eqb k k' then (k, v) :: o' else (k', v') :: set_prop k v o'
  end.

(** [{...a, ...b}] *)
Definition obj_spread (a b : list (string * Json)) : list (string * Json) :=
  fold_left (fun acc kv => set_prop kv.1 kv.2 acc) b a.

(** Values that can be thrown.  [ThrownError] is anything for which
    [error instanceof Error] holds; [ThrownValue s] is any other value,
    with [String(error) = s]. *)
Inductive ErrorClass : Type :=
| ClsError          (* new Error(...) *)
| ClsTypeError
| ClsDOMException   (* what an aborted fetch or read rejects with *)
| ClsSdkAbortError  (* AbortError of @anthropic-ai/claude-code *)
| ClsApiError.      (* errors of @anthropic-ai/sdk *)

Inductive Thrown : Type :=
| ThrownError (cls : ErrorClass) (name message : string)
| ThrownValue (to_string : string).

Definition new_Error (message : string) : Thrown :=
  ThrownError ClsError "Error" message.

(** [error instanceof Error ? error.message : String(error)] *)
Definition error_text (error : Thrown) : string :=
  match error with
  | ThrownError _ _ message => message
  | ThrownValue s => s
  end.

(** ** Strings *)

Definition code (c : ascii) : nat := nat_of_ascii c.

(** [\w] without the unicode flag: [A-Za-z0-9_]. *)
Definition is_word (c : ascii) : bool :=
  let n := code c in
  ((48 <=? n) && (n <=? 57)) || ((65 <=? n) && (n <=? 90))
  || ((97 <=? n) && (n <=? 122)) || (n =? 95).

(** White space as [String.prototype.trim] sees it, below code unit 256:
    TAB, LF, VT, FF, CR, SP and NBSP. *)
Definition is_space (c : ascii) : bool :=
  let n := code c in
  ((9 <=? n) && (n <=? 13)) || (n =? 32) || (n =? 160).

Fixpoint trimStart (s : string) : string :=
  match s with
  | String c s' => if is_space c then trimStart s' else s
  | EmptyString => EmptyString
  end.

Fixpoint rev_string (acc s : string) : string :=
  match s with
  | String c s' => rev_string (String c acc) s'
  | EmptyString => acc
  end.

Definition trim (s : string) : string :=
  rev_string "" (trimStart (rev_string "" (trimStart s))).

(** Truthiness of a string: non-empty. *)
Definition truthy (s : string) : bool :=
  match s with EmptyString => false | _ => true end.

(** [s.split('\n')]: always at least one piece. *)
Fixpoint split_lines (s : string) : list string :=
  match s with
  | EmptyString => [EmptyString]
  | String c s' =>
      if (code c =? 10) then EmptyString :: split_lines s'
      else match split_lines s' with
           | l :: ls => String c l :: ls
           | [] => [String c EmptyString]
           end
  end.

Fixpoint starts_with (p s : string) : bool :=
  match p, s with
  | EmptyString, _ => true
  | String a p', String b s' => Ascii.eqb a b && starts_with p' s'
  | String _ _, EmptyString => false
  end.

(** [hay.includes(needle)] *)
Fixpoint includes (needle hay : string) : bool :=
  starts_with needle hay
  || match hay with
     | EmptyString => false
     | String _ hay' => includes needle hay'
     end.

(** [`${n}`] for a non-negative integer. *)
Definition Number_toString (n : N) : string :=
  NilZero.string_of_uint (N.to_uint n).

(** ** Mentions: [message.match] with the global pattern
    [@] [(] [\w+] [(?:] [-\w+] [)] [*] [)] *)

(** The rest of a name once its first word character is consumed: word
    characters, and a hyphen only when a word character follows it. *)
Fixpoint scan_name (s : string) : string :=
  match s with
  | String c s' =>
      if is_word c then String c (scan_name s')
      else if Ascii.eqb c "-" then
        match s' with
        | String d _ => if is_word d then String c (scan_name s') else EmptyString
        | EmptyString => EmptyString
        end
      else EmptyString
  | EmptyString => EmptyString
  end.

(** The match of the name part of the pattern anchored at the start of [s], if any. *)
Definition match_name (s : string) : option string :=
  match s with
  | String c _ => if is_word c then Some (scan_name s) else None
  | EmptyString => None
  end.

(** All matches, left to right, each with its leading [@]; the empty list
    stands for the [null] that [match] returns when nothing matches.  A
    match contains no [@] after its first character, so resuming the scan
    one character after the [@] finds the same matches as resuming at the
    end of the match. *)
Fixpoint match_mentions (message : string) : list string :=
  match message with
  | EmptyString => []
  | String c s' =>
      if Ascii.eqb c "@" then
        match match_name s' with
        | Some name => String c name :: match_mentions s'
        | None => match_mentions s'
        end
      else match_mentions s'
  end.

(** [s.substring(1)] *)
Definition substring1 (s : string) : string :=
  match s with
  | String _ s' => s'
  | EmptyString => EmptyString
  end.

(** ** Data model *)

Record Agent : Type := {
  agent_id : string;
  agent_name : string;
  agent_description : string;
  apiEndpoint : option string;
  agent_workingDirectory : option string;
  isOrchestrator : option bool
}.

Record ClaudeAuth : Type := {
  accessToken : string;
  refreshToken : string;
  expiresAt : Z;
  userId : string;
  subscriptionType : string;
  account_email_address : string;
  account_uuid : string
}.

Record ChatRequest : Type := {
  message : string;
  requestId : string;
  sessionId : option string;
  allowedTools : option (list string);
  workingDirectory : option string;
  availableAgents : option (list Agent);
  claudeAuth : option ClaudeAuth
}.

(** [!agent.isOrchestrator] *)
Definition not_orchestrator (a : Agent) : bool :=
  match isOrchestrator a with
  | Some true => false
  | _ => true
  end.

(** ** Provider registry ([providers/registry.ts]) *)

Record AgentProvider : Type := { provider_id : string }.

Record AgentConfiguration : Type := {
  config_id : string;
  config_provider : string;
  config_isOrchestrator : option bool
}.

Record ProviderRegistry : Type := {
  providers : gmap string AgentProvider;
  agentConfigs : gmap string AgentConfiguration
}.

Definition getProvider (r : ProviderRegistry) (providerId : string)
  : option AgentProvider := providers r !! providerId.

Definition getAgent (r : ProviderRegistry) (agentId : string)
  : option AgentConfiguration := agentConfigs r !! agentId.

Definition getProviderForAgent (r : ProviderRegistry) (agentId : string)
  : option AgentProvider :=
  match getAgent r agentId with
  | None => None
  | Some config => getProvider r (config_provider config)
  end.

(** ** Request classification *)

Definition shouldUseOrchestrator (globalRegistry : ProviderRegistry)
    (message : string) (availableAgents : option (list Agent)) : bool :=
  let orchestratorProvider := getProviderForAgent globalRegistry "orchestrator" in
  if negb (bool_decide (provider_id <$> orchestratorProvider = Some "anthropic"%string))
  then false
  else
    match availableAgents with
    | Some (_ :: _) =>
        let mentionMatches := match_mentions message in
        1 <? length mentionMatches
    | _ => false
    end.

(** The generator that [handleChatRequest] assigns to [executionMethod]. *)
Inductive ExecutionMethod : Type :=
| ExecAgentHttpRequest (mentionedAgent : Agent)   (* RemoteSingle *)
| ExecOrchestratorWorkflow                        (* Orchestrate *)
| ExecClaudeCommand.                              (* Local *)

Definition selectExecutionMethod (globalRegistry : ProviderRegistry)
    (chatRequest : ChatRequest) : ExecutionMethod :=
  let useOrchestrator :=
    shouldUseOrchestrator globalRegistry (message chatRequest)
      (availableAgents chatRequest) in
  if useOrchestrator then
    let mentionMatches := match_mentions (message chatRequest) in
    match mentionMatches, availableAgents chatRequest with
    | [m], Some agents =>
        let mentionedAgentId := substring1 m in
        let workerAgents := List.filter not_orchestrator agents in
        match List.find (fun a => String.eqb (agent_id a) mentionedAgentId) workerAgents with
        | Some mentionedAgent => ExecAgentHttpRequest mentionedAgent
        | None => ExecOrchestratorWorkflow
        end
    | _, _ => ExecOrchestratorWorkflow
    end
  else ExecClaudeCommand.

(** ** A reference [JSON.parse]

    The handlers are verified against an arbitrary [JSON.parse]
    (a function from text to a value, or a thrown [SyntaxError]).  The
    parser below is an executable instance, used to run the handlers on
    concrete wire text.  It covers objects, arrays, strings with the
    single-character escapes, integers and the three literals. *)

(** JSON white space: SP, TAB, LF, CR. *)
Definition is_json_ws (c : ascii) : bool :=
  let n := code c in (n =? 32) || (n =? 9) || (n =? 10) || (n =? 13).

Fixpoint skip_ws (s : string) : string :=
  match s with
  | String c s' => if is_json_ws c then skip_ws s' else s
  | EmptyString => EmptyString
  end.

Definition is_digit (c : ascii) : bool :=
  let n := code c in (48 <=? n) && (n <=? 57).

Definition unescape (c : ascii) : option ascii :=
  let n := code c in
  if n =? 34 then Some c            (* quote *)
  else if n =? 92 then Some c       (* backslash *)
  else if n =? 47 then Some c       (* slash *)
  else if n =? 98 then Some (ascii_of_nat 8)
  else if n =? 102 then Some (ascii_of_nat 12)
  else if n =? 110 then Some (ascii_of_nat 10)
  else if n =? 114 then Some (ascii_of_nat 13)
  else if n =? 116 then Some (ascii_of_nat 9)
  else None.

(** The text after an opening quote: the decoded contents and what
    follows the closing quote. *)
Fixpoint parse_chars (s : string) : option (string * string) :=
  match s with
  | EmptyString => None
  | String c s' =>
      if code c =? 34 then Some (EmptyString, s')
      else if code c =? 92 then
        match s' with
        | String e s'' =>
            match unescape e, parse_chars s'' with
            | Some d, Some (body, rest) => Some (String d body, rest)
            | _, _ => None
            end
        | EmptyString => None
        end
      else if code c <? 32 then None
      else match parse_chars s' with
           | Some (body, rest) => Some (String c body, rest)
           | None => None
           end
  end.

Fixpoint parse_digits (acc : Z) (s : string) : Z * string :=
  match s with
  | String c s' =>
      if is_digit c then parse_digits (10 * acc + Z.of_nat (code c - 48)) s'
      else (acc, s)
  | EmptyString => (acc, EmptyString)
  end.

(** The digits of an integer without fraction or exponent. *)
Definition parse_unsigned (neg : bool) (s : string) : option (Z * string) :=
  match s with
  | String c s' =>
      if negb (is_digit c) then None
      else
        let '(n, rest) :=
          if code c =? 48 then (0%Z, s') else parse_digits 0 s in
        match rest with
        | String d _ =>
            if is_digit d || (code d =? 46) || (code d =? 101) || (code d =? 69)
            then None
            else Some (if neg then (- n)%Z else n, rest)
        | EmptyString => Some (if neg then (- n)%Z else n, rest)
        end
  | EmptyString => None
  end.

Definition parse_int (s : string) : option (Z * string) :=
  match s with
  | String c s' =>
      if code c =? 45 then parse_unsigned true s' else parse_unsigned false s
  | EmptyString => None
  end.

(** [s] without its prefix [p], when it has that prefix. *)
Fixpoint strip_prefix (p s : string) : option string :=
  match p, s with
  | EmptyString, _ => Some s
  | String a p', String b s' =>
      if Ascii.eqb a b then strip_prefix p' s' else None
  | String _ _, EmptyString => None
  end.

Definition expect (lit : string) (v : Json) (s : string) : option (Json * string) :=
  match strip_prefix lit s with
  | Some rest => Some (v, rest)
  | None => None
  end.

Fixpoint parse_value (fuel : nat) (s : string) : option (Json * string) :=
  match fuel with
  | O => None
  | S fuel' =>
      match skip_ws s with
      | EmptyString => None
      | String c s' as s0 =>
          if code c =? 123 then             (* { *)
            match skip_ws s' with
            | String d s'' =>
                if code d =? 125 then Some (JObj [], s'')
                else parse_members fuel' (String d s'') []
            | EmptyString => None
            end
          else if code c =? 91 then         (* [ *)
            match skip_ws s' with
            | String d s'' =>
                if code d =? 93 then Some (JArr [], s'')
                else parse_elements fuel' (String d s'') []
            | EmptyString => None
            end
          else if code c =? 34 then
            match parse_chars s' with
            | Some (body, rest) => Some (JStr body, rest)
            | None => None
            end
          else if code c =? 116 then expect "true" (JBool true) s0
          else if code c =? 102 then expect "false" (JBool false) s0
          else if code c =? 110 then expect "null" JNull s0
          else match parse_int s0 with
               | Some (n, rest) => Some (JNum n, rest)
               | None => None
               end
      end
  end

with parse_elements (fuel : nat) (s : string) (acc : list Json)
  : option (Json * string) :=
  match fuel with
  | O => None
  | S fuel' =>
      match parse_value fuel' s with
      | Some (v, rest) =>
          match skip_ws rest with
          | String c rest' =>
              if code c =? 44 then parse_elements fuel' rest' (acc ++ [v])
              else if code c =? 93 then Some (JArr (acc ++ [v]), rest')
              else None
          | EmptyString => None
          end
      | None => None
      end
  end

with parse_members (fuel : nat) (s : string) (acc : list (string * Json))
  : option (Json * string) :=
  match fuel with
  | O => None
  | S fuel' =>
      match skip_ws s with
      | String q s1 =>
          if negb (code q =? 34) then None
          else
            match parse_chars s1 with
            | Some (key, s2) =>
                match skip_ws s2 with
                | String colon s3 =>
                    if negb (code colon =? 58) then None
                    else
                      match parse_value fuel' s3 with
                      | Some (v, rest) =>
                          match skip_ws rest with
                          | String c rest' =>
                              if code c =? 44
                              then parse_members fuel' rest' (set_prop key v acc)
                              else if code c =? 125
                              then Some (JObj (set_prop key v acc), rest')
                              else None
                          | EmptyString => None
                          end
                      | None => None
                      end
                | EmptyString => None
                end
            | None => None
            end
      | EmptyString => None
      end
  end.

Definition JSON_parse_ref (text : string) : option Json :=
  match parse_value (2 * String.length text + 2) text with
  | Some (v, rest) =>
      match skip_ws rest with
      | EmptyString => Some v
      | _ => None
      end
  | None => None
  end.

(** ** Stream events

    A [StreamResponse] travels as a JSON object with a [type]
    discriminant; the remote delegate forwards whatever its peer's lines
    parse to, so events are JSON values throughout. *)

Definition ev_done : Json := JObj [("type"%string, JStr "done")].
Definition ev_aborted : Json := JObj [("type"%string, JStr "aborted")].
Definition ev_error (error : string) : Json :=
  JObj [("type"%string, JStr "error"); ("error"%string, JStr error)].
Definition ev_claude_json (data : Json) : Json :=
  JObj [("type"%string, JStr "claude_json"); ("data"%string, data)].

(** [v.type]: reading a property of [null] throws a [TypeError], any
    other value without the property gives [undefined]. *)
Definition prop_type (v : Json) : Thrown + option Json :=
  match v with
  | JNull =>
      inl (ThrownError ClsTypeError "TypeError"
             "Cannot read properties of null (reading 'type')")
  | JObj props => inr (get_prop "type" props)
  | _ => inr None
  end.

(** [x === "tag"] for a property value [x]. *)
Definition is_tag (x : option Json) (tag : string) : bool :=
  match x with
  | Some (JStr s) => String.eqb s tag
  | _ => false
  end.

(** The [type] of an event as a reader of the stream sees it. *)
Definition event_type (v : Json) : option Json :=
  match prop_type v with
  | inr ty => ty
  | inl _ => None
  end.

Definition is_terminal (v : Json) : bool :=
  is_tag (event_type v) "done" || is_tag (event_type v) "error"
  || is_tag (event_type v) "aborted".

(** ** Cancellation registry: the [requestAbortControllers] map *)

Record AbortController : Type := { signal_aborted : bool }.

Definition new_AbortController : AbortController := {| signal_aborted := false |}.

(** [if (requestAbortControllers.has(requestId))
       requestAbortControllers.delete(requestId)] *)
Definition cleanup (requestId : string)
    (requestAbortControllers : gmap string AbortController)
  : gmap string AbortController :=
  if bool_decide (is_Some (requestAbortControllers !! requestId))
  then delete requestId requestAbortControllers
  else requestAbortControllers.

(** ** Remote delegate: what the peer delivers *)

(** One [await Promise.race([reader.read(), timeoutPromise])] that does
    not report the end of the body.  A script of such steps that runs out
    stands for the read that reports [done]. *)
Inductive ReadStep : Type :=
| ReadChunk (chunk : string)      (* the decoded text of the chunk *)
| ReadRejects (e : Thrown)
| ReadTimeout.                    (* the 30 s timer wins the race *)

Record Response : Type := {
  status : N;
  statusText : string;
  text : option string;             (* response.text(); None: it rejects *)
  body : option (list ReadStep)     (* None: response.body is null *)
}.

Definition ok (r : Response) : bool :=
  ((200 <=? status r) && (status r <=? 299))%N.

Inductive FetchResult : Type :=
| FetchRejects (e : Thrown)
| FetchResolves (response : Response).

(** What an aborted [fetch], or an aborted read of its body, rejects
    with: the controller's signal is passed to [fetch]. *)
Definition fetch_abort_error : Thrown :=
  ThrownError ClsDOMException "AbortError" "This operation was aborted".

(** How a block of statements ends. *)
Inductive Completion : Type :=
| Normal
| Return
| Throw (e : Thrown).

Record HttpRun : Type := {
  http_events : list Json;
  http_controllers : gmap string AbortController;
  http_url : string;
  http_request : ChatRequest;
  http_reads : nat                  (* reads issued on the body *)
}.

(** ** Orchestrator planner: what the LLM stream delivers *)

Inductive Delta : Type :=
| TextDelta (text : string)
| InputJsonDelta (partial_json : string)
| OtherDelta.

Inductive StreamChunk : Type :=
| MessageStart (id role model : string) (usage : Json)
| ContentBlockStart (content_block : list (string * Json))
| ContentBlockDelta (delta : Delta)
| MessageDelta (stop_reason stop_sequence : Json)
               (usage : option (list (string * Json)))
| ContentBlockStop
| MessageStop
| OtherChunk.

Inductive LlmStep : Type :=
| LlmChunk (chunk : StreamChunk)
| LlmThrows (e : Thrown).

Inductive CreateResult : Type :=
| CreateRejects (e : Thrown)
| CreateResolves (stream : list LlmStep).

(** What [anthropic.messages.create] is called with, as far as it
    depends on the request. *)
Record CreateParams : Type := {
  create_apiKey : string;
  create_agent_enum : list string;     (* the [enum] of a step's [agent] *)
  create_agentDescriptions : string;   (* spliced into the system prompt *)
  create_message : string
}.

Record CurrentMessage : Type := {
  msg_id : string;
  msg_role : string;
  msg_model : string;
  msg_content : list Json;
  msg_stop_reason : Json;
  msg_stop_sequence : Json;
  msg_usage : Json
}.

Definition message_json (m : CurrentMessage) : Json :=
  JObj [("id"%string, JStr (msg_id m)); ("type"%string, JStr "message");
        ("role"%string, JStr (msg_role m)); ("model"%string, JStr (msg_model m));
        ("content"%string, JArr (msg_content m));
        ("stop_reason"%string, msg_stop_reason m);
        ("stop_sequence"%string, msg_stop_sequence m);
        ("usage"%string, msg_usage m)].

(** The own properties that a spread copies. *)
Definition props_of (v : Json) : list (string * Json) :=
  match v with
  | JObj props => props
  | _ => []
  end.

(** [l[l.length - 1] = f(l[l.length - 1])], when there is a last element. *)
Fixpoint update_last {A : Type} (f : A -> A) (l : list A) : list A :=
  match l with
  | [] => []
  | [x] => [f x]
  | x :: l' => x :: update_last f l'
  end.

Record OrchestratorRun : Type := {
  orch_events : list Json;
  orch_controllers : gmap string AbortController;
  orch_content : list (list (string * Json))  (* currentContent at the end *)
}.

(** The fallback worker list used when the request names no agents. *)
Definition default_workers : list (string * string) :=
  [("readymojo-admin", "Admin dashboard and management interface");
   ("readymojo-api", "Backend API and server logic");
   ("readymojo-web", "Frontend web application");
   ("peakmojo-kit", "UI component library and design system")]%string.

Fixpoint join (sep : string) (l : list string) : string :=
  match l with
  | [] => EmptyString
  | [x] => x
  | x :: l' => x +:+ sep +:+ join sep l'
  end.

Definition newline : string := String (ascii_of_nat 10) EmptyString.

(** [a || b] on optional strings: the first truthy operand, else the
    second. *)
Definition or_else (a b : option string) : option string :=
  match a with
  | Some s => if truthy s then a else b
  | None => b
  end.

Definition falsy (a : option string) : bool :=
  match a with
  | Some s => negb (truthy s)
  | None => true
  end.

(** ** Local executor: what the SDK and the credential files deliver *)

Inductive SdkStep : Type :=
| SdkMessage (sdkMessage : Json)
| SdkThrows (e : Thrown).

(** What [query] rejects with once its [abortController] is triggered:
    the controller is passed in the options. *)
Definition sdk_abort_error : Thrown :=
  ThrownError ClsSdkAbortError "AbortError" "Claude Code process aborted by user".

Record QueryOptions : Type := {
  q_prompt : string;
  q_executableArgs : list string;
  q_pathToClaudeCodeExecutable : string;
  q_resume : option string;
  q_allowedTools : option (list string);
  q_cwd : option string
}.

(** The credentials file as [prepareClaudeAuthEnvironment] reads it:
    [claudeAiOauth.accessToken] and [claudeAiOauth.expiresAt], each
    possibly missing. *)
Record CredentialsFile : Type := {
  cred_accessToken : option string;
  cred_expiresAt : option Z
}.

Record AuthFiles : Type := {
  credentialsFile : option CredentialsFile;  (* None: unreadable or not JSON *)
  credentialsPath : string;
  nodeOptions : string;                      (* --require of the preload script *)
  claudeConfigDir : string;
  writeCredentials_throws : bool;            (* writeClaudeCredentialsFile rejects *)
  prepare_throws : bool                      (* prepareClaudeAuthEnvironment rejects *)
}.

(** The time values of a [Date]: 100,000,000 days either side of the
    epoch.  [new Date(t).toISOString()] throws a [RangeError] for any
    other [t]. *)
Definition valid_time (t : Z) : bool :=
  ((-8640000000000000 <=? t) && (t <=? 8640000000000000))%Z.

(** The flag that [prepareClaudeAuthEnvironment] computes in its [try].
    With both fields truthy it compares the expiry with the clock and
    then logs the expiry as an ISO date; when that throws, the [catch]
    resets the flag, as it does when the file cannot be read or parsed. *)
Definition hasValidCredentials (f : option CredentialsFile) (now : Z) : bool :=
  match f with
  | Some c =>
      match cred_accessToken c, cred_expiresAt c with
      | Some token, Some expiry =>
          if truthy token && negb (expiry =? 0)%Z
          then
            let hasValidCredentials := (now + 5 * 60 * 1000 <? expiry)%Z in
            (* new Date(expiresAt).toISOString() *)
            if valid_time expiry then hasValidCredentials
            else false                      (* catch (error) *)
          else false
      | _, _ => false
      end
  | None => false
  end.

(** A [Record<string, string>] in insertion order. *)
Fixpoint set_key {V : Type} (k : string) (v : V) (o : list (string * V))
  : list (string * V) :=
  match o with
  | [] => [(k, v)]
  | (k', v') :: o' =>
      if String.eqb k k' then (k, v) :: o' else (k', v') :: set_key k v o'
  end.

(** The [env] of [prepareClaudeAuthEnvironment]'s result. *)
Definition prepareClaudeAuthEnvironment (f : AuthFiles) (now : Z)
  : list (string * string) :=
  if negb (hasValidCredentials (credentialsFile f) now) then []
  else
    let authEnv :=
      [("CLAUDE_CREDENTIALS_PATH"%string, credentialsPath f);
       ("DEBUG_PRELOAD_SCRIPT"%string, "1"%string)] in
    let authEnv := set_key "NODE_OPTIONS" (nodeOptions f) authEnv in
    let authEnv := set_key "CLAUDE_CONFIG_DIR" (claudeConfigDir f) authEnv in
    set_key "CLAUDE_CREDENTIALS_PATH" (credentialsPath f) authEnv.

(** [process.env[key] = value] / [delete process.env[key]], chosen by
    whether a saved value is [undefined]. *)
Definition restore_key (key : string) (originalValue : option string)
    (env : gmap string string) : gmap string string :=
  match originalValue with
  | None => delete key env
  | Some v => <[key := v]> env
  end.

(** The [finally] of the environment window: replay [originalEnv]. *)
Definition restore_env (originalEnv : list (string * option string))
    (env : gmap string string) : gmap string string :=
  fold_left (fun e kv => restore_key kv.1 kv.2 e) originalEnv env.

(** The loop over [Object.entries(authEnv)] that saves and installs. *)
Definition install_authEnv (authEnv : list (string * string))
    (st : list (string * option string) * gmap string string)
  : list (string * option string) * gmap string string :=
  fold_left
    (fun '(originalEnv, env) kv =>
       (set_key kv.1 (env !! kv.1) originalEnv, <[kv.1 := kv.2]> env))
    authEnv st.

Record LocalRun : Type := {
  local_events : list Json;
  local_controllers : gmap string AbortController;
  local_env : gmap string string;         (* process.env afterwards *)
  local_env_during : gmap string string;  (* process.env while query runs *)
  local_originalEnv : list (string * option string)
}.

(** What [controller.enqueue] is given: the line of an event, or the
    white-space flush marker. *)
Inductive Enqueued : Type :=
| EnqJson (v : Json)     (* JSON.stringify(v) + "\n" *)
| EnqFlush.              (* " \n" *)

Section Handlers.

(** [JSON.parse]: [None] is a thrown [SyntaxError]. *)
Variable JSON_parse : string -> option Json.

(** *** [executeAgentHttpRequest] *)

(** The [for (const line of lines)] loop: the events yielded and whether
    the loop left through [return]. *)
Fixpoint forLines (lines : list string) : list Json * bool :=
  match lines with
  | [] => ([], false)
  | line :: rest =>
      match JSON_parse line with
      | None => forLines rest                    (* skip invalid JSON lines *)
      | Some streamResponse =>
          (* yield streamResponse, then look at its type *)
          match prop_type streamResponse with
          | inl _ =>                             (* caught like a parse error *)
              let '(evs, returned) := forLines rest in
              (streamResponse :: evs, returned)
          | inr ty =>
              if is_tag ty "done" || is_tag ty "error"
              then ([streamResponse], true)
              else
                let '(evs, returned) := forLines rest in
                (streamResponse :: evs, returned)
          end
      end
  end.

(** [chunk.split('\n').filter(line => line.trim())] *)
Definition chunk_lines (chunk : string) : list string :=
  List.filter (fun line => truthy (trim line)) (split_lines chunk).

(** The [while (true)] read loop: events, how it ended, reads issued. *)
Fixpoint readLoop (reads : list ReadStep) : list Json * Completion * nat :=
  match reads with
  | [] => ([], Normal, 1)                        (* done: break *)
  | ReadRejects e :: _ => ([], Throw e, 1)
  | ReadTimeout :: _ =>
      ([], Throw (new_Error "Stream read timeout after 30 seconds"), 1)
  | ReadChunk chunk :: rest =>
      let '(evs, returned) := forLines (chunk_lines chunk) in
      if returned then (evs, Return, 1)
      else
        let '(evs', c, n) := readLoop rest in
        (evs ++ evs', c, S n)
  end.

(** [`${x}`] for an optional string. *)
Definition template (x : option string) : string := default "undefined"%string x.

(** The error thrown for a response that is not [ok]. *)
Definition http_failure (agent : Agent) (response : Response) : Thrown :=
  let errorText := default "Unable to read error response"%string (text response) in
  if ((status response =? 401) || (status response =? 403))%N then
    new_Error ("Authentication failed for agent " +:+ agent_id agent
               +:+ ". Please check OAuth credentials. Status: "
               +:+ Number_toString (status response))
  else if (500 <=? status response)%N then
    new_Error ("Agent " +:+ agent_id agent +:+ " server error ("
               +:+ Number_toString (status response) +:+ "): " +:+ errorText)
  else
    new_Error ("HTTP error from agent " +:+ agent_id agent +:+ "! status: "
               +:+ Number_toString (status response) +:+ " - "
               +:+ statusText response).

(** The [catch] of the delegate: one event for the error caught. *)
Definition http_catch (error : Thrown) : Json :=
  match error with
  | ThrownError _ name _ =>
      if String.eqb name "AbortError" then ev_aborted
      else ev_error (error_text error)
  | ThrownValue _ => ev_error (error_text error)
  end.

(** The chat request prepared for the agent's endpoint, and its URL. *)
Definition agentChatRequest (agent : Agent) (message requestId : string)
    (sessionId : option string) (claudeAuth : option ClaudeAuth) : ChatRequest :=
  {| message := message; sessionId := sessionId; requestId := requestId;
     workingDirectory := agent_workingDirectory agent;
     claudeAuth := claudeAuth;
     allowedTools := None; availableAgents := None |}.

Definition chat_url (agent : Agent) : string :=
  template (apiEndpoint agent) +:+ "/api/chat".

Definition executeAgentHttpRequest
    (fetch : string -> ChatRequest -> FetchResult)
    (agent : Agent) (message requestId : string)
    (requestAbortControllers : gmap string AbortController)
    (sessionId : option string) (claudeAuth : option ClaudeAuth) : HttpRun :=
  let abortController := new_AbortController in
  let controllers := <[requestId := abortController]> requestAbortControllers in
  let agentChatRequest :=
    agentChatRequest agent message requestId sessionId claudeAuth in
  let url := chat_url agent in
  let '(evs, completion, reads) :=
    match fetch url agentChatRequest with
    | FetchRejects e => ([], Throw e, 0)
    | FetchResolves response =>
        if negb (ok response) then ([], Throw (http_failure agent response), 0)
        else
          match body response with
          | None => ([], Throw (new_Error "No response body from agent endpoint"), 0)
          | Some reads => readLoop reads          (* finally: releaseLock *)
          end
    end in
  let evs :=
    match completion with
    | Normal => evs ++ [ev_done]
    | Return => evs
    | Throw error => evs ++ [http_catch error]
    end in
  {| http_events := evs;
     http_controllers := cleanup requestId controllers;
     http_url := url;
     http_request := agentChatRequest;
     http_reads := reads |}.

(** *** [executeOrchestratorWorkflow] *)

(** [sessionId || `anthropic-${Date.now()}`] *)
Definition session_id (sessionId : option string) (now : Z) : string :=
  match sessionId with
  | Some s => if truthy s then s else "anthropic-" +:+ Number_toString (Z.to_N now)
  | None => "anthropic-" +:+ Number_toString (Z.to_N now)
  end.

Definition ev_system_init (sessionId : option string) (now : Z) : Json :=
  ev_claude_json
    (JObj [("type"%string, JStr "system"); ("subtype"%string, JStr "init");
           ("session_id"%string, JStr (session_id sessionId now));
           ("model"%string, JStr "claude-sonnet-4-20250514");
           ("tools"%string, JArr [JStr "orchestrate_execution"])]).

Definition ev_assistant (m : CurrentMessage) (sessionId : option string)
    (now : Z) : Json :=
  ev_claude_json
    (JObj [("type"%string, JStr "assistant"); ("message"%string, message_json m);
           ("session_id"%string, JStr (session_id sessionId now))]).

(** [lastContent.text = (lastContent.text || "") + text] on a block
    whose [type] is ["text"]; the block's [text] is a string or absent. *)
Definition add_text (text : string) (block : list (string * Json))
  : list (string * Json) :=
  if is_tag (get_prop "type" block) "text" then
    let old := match get_prop "text" block with
               | Some (JStr s) => s
               | _ => EmptyString
               end in
    set_prop "text" (JStr (old +:+ text)) block
  else block.

(** The [input_json_delta] branch on the last block. *)
Definition add_partial_json (partial_json : string) (block : list (string * Json))
  : list (string * Json) :=
  if is_tag (get_prop "type" block) "tool_use" then
    let input := match get_prop "input" block with
                 | Some (JStr s) => s
                 | _ => EmptyString       (* typeof input !== "string" *)
                 end in
    set_prop "input" (JStr (input +:+ partial_json)) block
  else block.

(** The [content_block_stop] branch on the last block. *)
Definition close_block (block : list (string * Json)) : list (string * Json) :=
  if is_tag (get_prop "type" block) "tool_use" then
    match get_prop "input" block with
    | Some (JStr input) =>
        if truthy (trim input) then
          match JSON_parse input with
          | Some v => set_prop "input" v block
          | None => block                   (* catch (e): logged at most *)
          end
        else block
    | _ => block
    end
  else block.

Definition LoopState : Type :=
  (option CurrentMessage * list (list (string * Json)))%type.

(** One iteration of [for await (const chunk of stream)]: the new
    [currentMessage] and [currentContent], and what is yielded. *)
Definition onChunk (sessionId : option string) (now : Z)
    (st : LoopState) (chunk : StreamChunk) : LoopState * list Json :=
  let '(currentMessage, currentContent) := st in
  match chunk with
  | MessageStart id role model usage =>
      (Some {| msg_id := id; msg_role := role; msg_model := model;
               msg_content := []; msg_stop_reason := JNull;
               msg_stop_sequence := JNull; msg_usage := usage |},
       currentContent, [])
  | ContentBlockStart content_block =>
      let contentBlock :=
        if is_tag (get_prop "type" content_block) "tool_use"
        then set_prop "input" (JStr "") content_block
        else content_block in
      (currentMessage, currentContent ++ [contentBlock], [])
  | ContentBlockDelta (TextDelta text) =>
      (currentMessage, update_last (add_text text) currentContent, [])
  | ContentBlockDelta (InputJsonDelta partial_json) =>
      (currentMessage, update_last (add_partial_json partial_json) currentContent, [])
  | ContentBlockDelta OtherDelta => (st, [])
  | MessageDelta stop_reason stop_sequence usage =>
      match currentMessage with
      | Some m =>
          let usage' :=
            match usage with
            | Some u => JObj (obj_spread (props_of (msg_usage m)) u)
            | None => msg_usage m
            end in
          (Some {| msg_id := msg_id m; msg_role := msg_role m;
                   msg_model := msg_model m; msg_content := msg_content m;
                   msg_stop_reason := stop_reason;
                   msg_stop_sequence := stop_sequence; msg_usage := usage' |},
           currentContent, [])
      | None => (st, [])
      end
  | ContentBlockStop =>
      (currentMessage, update_last close_block currentContent, [])
  | MessageStop =>
      match currentMessage with
      | Some m =>
          let m' := {| msg_id := msg_id m; msg_role := msg_role m;
                       msg_model := msg_model m;
                       msg_content := JObj <$> currentContent;
                       msg_stop_reason := msg_stop_reason m;
                       msg_stop_sequence := msg_stop_sequence m;
                       msg_usage := msg_usage m |} in
          (Some m', currentContent, [ev_assistant m' sessionId now])
      | None => (st, [])
      end
  | OtherChunk => (st, [])
  end.

(** The whole [for await] loop; [clock k] is [Date.now()] while the
    [k]-th chunk is handled. *)
Fixpoint forChunks (sessionId : option string) (clock : nat -> Z) (k : nat)
    (st : LoopState) (stream : list LlmStep) : LoopState * list Json * Completion :=
  match stream with
  | [] => (st, [], Normal)
  | LlmThrows e :: _ => (st, [], Throw e)
  | LlmChunk chunk :: rest =>
      let '(st', out) := onChunk sessionId (clock k) st chunk in
      let '(st'', evs, c) := forChunks sessionId clock (S k) st' rest in
      (st'', out ++ evs, c)
  end.

Definition worker_list (availableAgents : option (list Agent))
  : list (string * string) :=
  match availableAgents with
  | Some agents =>
      (fun a => (agent_id a, agent_description a))
        <$> List.filter not_orchestrator agents
  | None => default_workers
  end.

Definition executeOrchestratorWorkflow
    (env : gmap string string)
    (create : CreateParams -> CreateResult) (clock : nat -> Z)
    (message requestId : string)
    (requestAbortControllers : gmap string AbortController)
    (sessionId : option string) (availableAgents : option (list Agent))
  : OrchestratorRun :=
  let abortController := new_AbortController in
  let controllers := <[requestId := abortController]> requestAbortControllers in
  let workerAgents := worker_list availableAgents in
  let apiKey := or_else (env !! "ANTHROPIC_API_KEY") (env !! "CLAUDE_API_KEY") in
  let '(st, evs, completion) :=
    if falsy apiKey then
      (@None CurrentMessage, [], [],
       Throw (new_Error
         "ANTHROPIC_API_KEY environment variable is required for orchestrator mode"))
    else
      let params :=
        {| create_apiKey := default EmptyString apiKey;
           create_agent_enum := fst <$> workerAgents;
           create_agentDescriptions :=
             join newline ((fun w => "- " +:+ w.1 +:+ ": " +:+ w.2) <$> workerAgents);
           create_message := message |} in
      match create params with
      | CreateRejects e => (None, [], [], Throw e)
      | CreateResolves stream =>
          let '(st, evs, c) := forChunks sessionId clock 1 (None, []) stream in
          (st, ev_system_init sessionId (clock 0) :: evs, c)
      end in
  let evs :=
    match completion with
    | Normal => evs ++ [ev_done]
    | Return => evs
    | Throw error => evs ++ [ev_error (error_text error)]
    end in
  {| orch_events := evs;
     orch_controllers := cleanup requestId controllers;
     orch_content := st.2 |}.

(** *** [executeClaudeCommand] *)

(** The [for await (const sdkMessage of query(...))] loop. *)
Fixpoint forSdk (script : list SdkStep) : list Json * Completion :=
  match script with
  | [] => ([], Normal)
  | SdkThrows e :: _ => ([], Throw e)
  | SdkMessage sdkMessage :: rest =>
      let '(evs, c) := forSdk rest in
      (ev_claude_json sdkMessage :: evs, c)
  end.

(** The authentication set-up, whose failures are caught and leave
    [authEnv] empty. *)
Definition auth_setup (files : AuthFiles) (now : Z)
    (claudeAuth : option ClaudeAuth) : list (string * string) * list string :=
  if (bool_decide (is_Some claudeAuth) && writeCredentials_throws files)
     || prepare_throws files
  then ([], [])
  else (set_key "DEBUG_PRELOAD_SCRIPT" "0"%string
          (prepareClaudeAuthEnvironment files now), []).

(** Saving and installing the credential variables, before [authEnv]. *)
Definition install_credentials (claudeAuth : option ClaudeAuth)
    (env : gmap string string)
  : list (string * option string) * gmap string string :=
  let oauth_token :=
    match claudeAuth with
    | Some auth => if truthy (accessToken auth) then Some (accessToken auth) else None
    | None => None
    end in
  match oauth_token with
  | Some token =>
      let originalEnv := set_key "CLAUDE_CODE_OAUTH_TOKEN" (env !! "CLAUDE_CODE_OAUTH_TOKEN") [] in
      let originalEnv := set_key "ANTHROPIC_API_KEY" (env !! "ANTHROPIC_API_KEY") originalEnv in
      let originalEnv := set_key "CLAUDE_API_KEY" (env !! "CLAUDE_API_KEY") originalEnv in
      (originalEnv,
       delete "CLAUDE_API_KEY"
         (delete "ANTHROPIC_API_KEY" (<["CLAUDE_CODE_OAUTH_TOKEN" := token]> env)))
  | None =>
      let apiKey := or_else (env !! "ANTHROPIC_API_KEY") (env !! "CLAUDE_API_KEY") in
      if falsy apiKey then ([], env)
      else
        let key := default EmptyString apiKey in
        let originalEnv := set_key "ANTHROPIC_API_KEY" (env !! "ANTHROPIC_API_KEY") [] in
        let originalEnv := set_key "CLAUDE_API_KEY" (env !! "CLAUDE_API_KEY") originalEnv in
        (originalEnv,
         <["CLAUDE_API_KEY" := key]> (<["ANTHROPIC_API_KEY" := key]> env))
  end.

(** The outer [catch] of the local executor. *)
Definition local_catch (error : Thrown) : Json :=
  match error with
  | ThrownError ClsSdkAbortError _ _ => ev_aborted
  | _ =>
      let errorMessage := error_text error in
      if includes "exit with code 1" errorMessage
         || includes "authentication" errorMessage
      then ev_error
             ("Claude Code authentication failed. Please ensure valid OAuth credentials are provided. Original error: "
              +:+ errorMessage)
      else ev_error errorMessage
  end.

(** The generator drained to its end, for the runs in which the version
    probe that precedes the SDK call lets the generator go on (the probe
    yields nothing and changes no state).  The probe and the runs it
    cuts short are in [executeClaudeCommand_process] below. *)
Definition executeClaudeCommand
    (env : gmap string string) (files : AuthFiles) (now : Z)
    (query : gmap string string -> QueryOptions -> list SdkStep)
    (message requestId : string)
    (requestAbortControllers : gmap string AbortController)
    (claudePath : string) (sessionId : option string)
    (allowedTools : option (list string)) (workingDirectory : option string)
    (claudeAuth : option ClaudeAuth) : LocalRun :=
  let processedMessage := message in
  let '(authEnv, executableArgs) := auth_setup files now claudeAuth in
  let abortController := new_AbortController in
  let controllers := <[requestId := abortController]> requestAbortControllers in
  (* apply the auth environment to process.env temporarily *)
  let '(originalEnv, env_during) :=
    install_authEnv authEnv (install_credentials claudeAuth env) in
  (* try *)
  let options :=
    {| q_prompt := processedMessage;
       q_executableArgs := executableArgs;
       q_pathToClaudeCodeExecutable := claudePath;
       q_resume := if falsy sessionId then None else sessionId;
       q_allowedTools := allowedTools;
       q_cwd := if falsy workingDirectory then None else workingDirectory |} in
  let '(evs, completion) := forSdk (query env_during options) in
  let evs_try :=
    match completion with
    | Throw _ => evs
    | _ => evs ++ [ev_done]
    end in
  (* finally: restore the original environment variables *)
  let env_after := restore_env originalEnv env_during in
  (* catch *)
  let evs :=
    match completion with
    | Throw error => evs_try ++ [local_catch error]
    | _ => evs_try
    end in
  {| local_events := evs;
     local_controllers := cleanup requestId controllers;
     local_env := env_after;
     local_env_during := env_during;
     local_originalEnv := originalEnv |}.

(** *** [handleChatRequest] *)

(** Everything outside the handler that a request's run depends on. *)
Record World : Type := {
  globalRegistry : ProviderRegistry;
  fetch : string -> ChatRequest -> FetchResult;
  create : CreateParams -> CreateResult;
  query : gmap string string -> QueryOptions -> list SdkStep;
  authFiles : AuthFiles;
  clock : nat -> Z;                 (* successive readings of Date.now() *)
  random_flush : nat -> bool;       (* Math.random() < 0.3 after chunk k *)
  claudePath : string
}.

Record HandlerRun : Type := {
  run_method : ExecutionMethod;
  run_events : list Json;           (* the chunks pulled from executionMethod *)
  run_enqueued : list Enqueued;     (* what is written to the response *)
  run_controllers : gmap string AbortController;
  run_env : gmap string string
}.

Definition ev_connection_ack (now : Z) : Json :=
  ev_claude_json
    (JObj [("type"%string, JStr "system");
           ("subtype"%string, JStr "connection_ack");
           ("timestamp"%string, JNum now)]).

(** The [for await (const chunk of executionMethod)] loop of the
    transport. *)
Fixpoint enqueue_all (random : nat -> bool) (k : nat) (chunks : list Json)
  : list Enqueued :=
  match chunks with
  | [] => []
  | chunk :: rest =>
      EnqJson chunk
        :: (if random k then [EnqFlush] else [])
        ++ enqueue_all random (S k) rest
  end.

(** The stream that [handleChatRequest] returns.  Writing the request's
    OAuth credentials file beforehand touches the file system only.  Each
    strategy catches its own errors, so the transport's outer [catch] is
    not reached from them. *)
Definition handleChatRequest (w : World) (chatRequest : ChatRequest)
    (requestAbortControllers : gmap string AbortController)
    (env : gmap string string) : HandlerRun :=
  let executionMethod := selectExecutionMethod (globalRegistry w) chatRequest in
  let later := fun k => clock w (S k) in
  let '(evs, controllers, env') :=
    match executionMethod with
    | ExecAgentHttpRequest mentionedAgent =>
        let r := executeAgentHttpRequest (fetch w) mentionedAgent
                   (message chatRequest) (requestId chatRequest)
                   requestAbortControllers (sessionId chatRequest)
                   (claudeAuth chatRequest) in
        (http_events r, http_controllers r, env)
    | ExecOrchestratorWorkflow =>
        let r := executeOrchestratorWorkflow env (create w) later
                   (message chatRequest) (requestId chatRequest)
                   requestAbortControllers (sessionId chatRequest)
                   (availableAgents chatRequest) in
        (orch_events r, orch_controllers r, env)
    | ExecClaudeCommand =>
        let r := executeClaudeCommand env (authFiles w) (later 0) (query w)
                   (message chatRequest) (requestId chatRequest)
                   requestAbortControllers (claudePath w)
                   (sessionId chatRequest) (allowedTools chatRequest)
                   (workingDirectory chatRequest) (claudeAuth chatRequest) in
        (local_events r, local_controllers r, local_env r)
    end in
  {| run_method := executionMethod;
     run_events := evs;
     run_enqueued :=
       EnqJson (ev_connection_ack (clock w 0)) :: EnqFlush
         :: enqueue_all (random_flush w) 0 evs;
     run_controllers := controllers;
     run_env := env' |}.

End Handlers.

(** ** A reference [JSON.stringify]

    Used to write down the wire text of peer events and tool payloads;
    it prints what [JSON_parse_ref] reads. *)

Definition dquote : string := String (ascii_of_nat 34) EmptyString.
Definition backslash : string := String (ascii_of_nat 92) EmptyString.

Fixpoint escape_chars (s : string) : string :=
  match s with
  | EmptyString => EmptyString
  | String c s' =>
      let n := code c in
      (if n =? 34 then backslash +:+ dquote
       else if n =? 92 then backslash +:+ backslash
       else if n =? 8 then backslash +:+ "b"
       else if n =? 12 then backslash +:+ "f"
       else if n =? 10 then backslash +:+ "n"
       else if n =? 13 then backslash +:+ "r"
       else if n =? 9 then backslash +:+ "t"
       else String c EmptyString) +:+ escape_chars s'
  end.

Definition quote (s : string) : string := dquote +:+ escape_chars s +:+ dquote.

Definition Z_toString (n : Z) : string :=
  if (n <? 0)%Z then "-" +:+ Number_toString (Z.to_N (- n))
  else Number_toString (Z.to_N n).

Fixpoint JSON_stringify_ref (v : Json) : string :=
  match v with
  | JNull => "null"
  | JBool true => "true"
  | JBool false => "false"
  | JNum n => Z_toString n
  | JStr s => quote s
  | JArr items => "[" +:+ join "," (List.map JSON_stringify_ref items) +:+ "]"
  | JObj props =>
      "{" +:+
      join ","
        (List.map (fun kv => quote kv.1 +:+ ":" +:+ JSON_stringify_ref kv.2) props)
      +:+ "}"
  end.

(** [s.split("")]: the single-character pieces of a string. *)
Fixpoint characters (s : string) : list string :=
  match s with
  | EmptyString => []
  | String c s' => String c EmptyString :: characters s'
  end.

(** The concatenation of a list of deltas, in order. *)
Definition concat_deltas (ds : list string) : string :=
  fold_right String.append EmptyString ds.

(** ** A concrete deployment, for running the handlers *)

Definition anthropic_registry : ProviderRegistry :=
  {| providers := {[ "anthropic"%string := {| provider_id := "anthropic" |} ]};
     agentConfigs :=
       {[ "orchestrator"%string :=
            {| config_id := "orchestrator"; config_provider := "anthropic";
               config_isOrchestrator := Some true |} ]} |}.

Definition db_agent : Agent :=
  {| agent_id := "db-agent"; agent_name := "DB agent";
     agent_description := "Database worker";
     apiEndpoint := Some "http://peer"%string;
     agent_workingDirectory := Some "/srv/db"%string;
     isOrchestrator := Some false |}.

Definition web_agent : Agent :=
  {| agent_id := "web"; agent_name := "Web agent";
     agent_description := "Frontend worker";
     apiEndpoint := Some "http://web"%string;
     agent_workingDirectory := Some "/srv/web"%string;
     isOrchestrator := None |}.

Definition request_for (message : string) (agents : list Agent) : ChatRequest :=
  {| message := message; requestId := "r1"; sessionId := None;
     allowedTools := None; workingDirectory := None;
     availableAgents := Some agents; claudeAuth := None |}.

(** A peer that answers every request with the given response. *)
Definition peer (response : Response) : string -> ChatRequest -> FetchResult :=
  fun _ _ => FetchResolves response.

Definition ok_response (reads : list ReadStep) : Response :=
  {| status := 200; statusText := "OK"; text := None; body := Some reads |}.

Definition failed_response (status : N) (statusText body_text : string) : Response :=
  {| status := status; statusText := statusText; text := Some body_text;
     body := None |}.

(** One line of the peer's stream. *)
Definition wire_line (ev : Json) : string := JSON_stringify_ref ev +:+ newline.

Definition sample_plan : Json :=
  JObj [("steps"%string,
         JArr [JObj [("id"%string, JStr "s1"); ("agent"%string, JStr "db-agent");
                     ("message"%string, JStr "dump the schema");
                     ("output_file"%string, JStr "/tmp/step1_results.txt");
                     ("dependencies"%string, JArr [])]])].

Definition tool_use_block : list (string * Json) :=
  [("type"%string, JStr "tool_use"); ("id"%string, JStr "toolu_1");
   ("name"%string, JStr "orchestrate_execution"); ("input"%string, JObj [])].

Definition no_auth_files : AuthFiles :=
  {| credentialsFile := None; credentialsPath := "/home/u/.claude-credentials.json";
     nodeOptions := "--require preload-script.cjs";
     claudeConfigDir := "/home/u/.claude-config";
     writeCredentials_throws := false; prepare_throws := false |}.

Definition valid_auth_files : AuthFiles :=
  {| credentialsFile :=
       Some {| cred_accessToken := Some "tok"%string;
               cred_expiresAt := Some 2000000%Z |};
     credentialsPath := "/home/u/.claude-credentials.json";
     nodeOptions := "--require preload-script.cjs";
     claudeConfigDir := "/home/u/.claude-config";
     writeCredentials_throws := false; prepare_throws := false |}.

Definition sample_auth : ClaudeAuth :=
  {| accessToken := "oauth-token"; refreshToken := "refresh";
     expiresAt := 2000000; userId := "u1"; subscriptionType := "pro";
     account_email_address := "u@example.org"; account_uuid := "uuid-1" |}.

Definition sample_world (reads : list ReadStep) (stream : list LlmStep)
    (script : list SdkStep) : World :=
  {| globalRegistry := anthropic_registry;
     fetch := peer (ok_response reads);
     create := fun _ => CreateResolves stream;
     query := fun _ _ => script;
     authFiles := no_auth_files;
     clock := fun k => (1000 + Z.of_nat k)%Z;
     random_flush := fun k => Nat.even k;
     claudePath := "/usr/bin/claude" |}.

(** ** Predicates used in the statements *)

(** The orchestrator agent is served by the LLM-tool-capable provider. *)
Definition anthropic_orchestrator (reg : ProviderRegistry) : Prop :=
  exists p, getProviderForAgent reg "orchestrator" = Some p
            /\ provider_id p = "anthropic"%string.

(** The message has exactly one mention, and it names [agent], a
    non-orchestrator agent of the request that carries an endpoint. *)
Definition single_worker_mention (req : ChatRequest) (agent : Agent) : Prop :=
  exists m agents,
    match_mentions (message req) = [m]
    /\ availableAgents req = Some agents
    /\ agent ∈ agents
    /\ agent_id agent = substring1 m
    /\ not_orchestrator agent = true
    /\ is_Some (apiEndpoint agent).

(** No event of the list carries the given [type]. *)
Definition no_event_of_type (tag : string) (evs : list Json) : Prop :=
  Forall (fun e => is_tag (event_type e) tag = false) evs.

(** The terminal events of a sequence, in order. *)
Definition terminal_events (evs : list Json) : list Json :=
  List.filter is_terminal evs.

(** A tool-call block whose [input] holds the string accumulated so far. *)
Definition accumulating (block : list (string * Json)) (input : string)
  : list (string * Json) :=
  set_prop "input" (JStr input) block.

(** A run of [input_json_delta] chunks carrying the given pieces. *)
Definition json_deltas (ds : list string) : list LlmStep :=
  (fun d => LlmChunk (ContentBlockDelta (InputJsonDelta d))) <$> ds.

(** The chunks of one tool-call block: its start, its deltas in order,
    its stop. *)
Definition tool_block_chunks (block : list (string * Json)) (ds : list string)
  : list LlmStep :=
  LlmChunk (ContentBlockStart block) :: json_deltas ds ++ [LlmChunk ContentBlockStop].

(** Every saved value is the value the variable had in [env0]. *)
Definition saved_from (env0 : gmap string string)
    (originalEnv : list (string * option string)) : Prop :=
  forall k v, (k, v) ∈ originalEnv -> v = env0 !! k.

(** Outside the saved keys, [env] still is [env0]. *)
Definition agrees_outside (originalEnv : list (string * option string))
    (env env0 : gmap string string) : Prop :=
  forall k, k ∉ originalEnv.*1 -> env !! k = env0 !! k.

(** The names that [prepareClaudeAuthEnvironment] may set. *)
Definition auth_keys : list string :=
  ["CLAUDE_CREDENTIALS_PATH"; "DEBUG_PRELOAD_SCRIPT"; "NODE_OPTIONS";
   "CLAUDE_CONFIG_DIR"]%string.

(** The names of the credential variables. *)
Definition credential_keys : list string :=
  ["CLAUDE_CODE_OAUTH_TOKEN"; "ANTHROPIC_API_KEY"; "CLAUDE_API_KEY"]%string.

(** What the LLM client throws when its request is aborted. *)
Definition llm_abort_error : Thrown :=
  ThrownError ClsApiError "APIUserAbortError" "Request was aborted.".

(** A sequence with exactly one terminal event, in last position. *)
Definition one_terminal_last (evs : list Json) : Prop :=
  exists before t,
    evs = before ++ [t] /\ is_terminal t = true
    /\ Forall (fun e => is_terminal e = false) before.

(** ** Brackets and quotes of a JSON text

    A scan that follows string literals and bracket depth.  Every JSON
    text takes it from depth 0, outside a string, back to depth 0, outside
    a string: its string literals are closed, its brackets balance, and
    no backslash stands outside a string literal. *)
Inductive LexState : Type :=
| LexOut (depth : nat)     (* outside a string literal *)
| LexIn (depth : nat)      (* inside a string literal *)
| LexEsc (depth : nat)     (* inside one, after a backslash *)
| LexBad.

Definition lex_step (q : LexState) (c : ascii) : LexState :=
  match q with
  | LexOut d =>
      if code c =? 34 then LexIn d
      else if code c =? 92 then LexBad
      else if (code c =? 123) || (code c =? 91) then LexOut (S d)
      else if (code c =? 125) || (code c =? 93) then
        match d with
        | O => LexBad
        | S d' => LexOut d'
        end
      else LexOut d
  | LexIn d =>
      if code c =? 34 then LexOut d
      else if code c =? 92 then LexEsc d
      else LexIn d
  | LexEsc d => LexIn d
  | LexBad => LexBad
  end.

Fixpoint lex_run (q : LexState) (s : string) : LexState :=
  match s with
  | EmptyString => q
  | String c s' => lex_run (lex_step q c) s'
  end.

(** Strictly inside some bracket. *)
Definition inside (q : LexState) : bool :=
  match q with
  | LexOut (S _) | LexIn (S _) | LexEsc (S _) => true
  | _ => false
  end.

(** From [q], the scan of [s] stays inside a bracket until the last
    character, which takes it to depth 0 outside a string. *)
Fixpoint nested_from (q : LexState) (s : string) : bool :=
  match s with
  | EmptyString => false
  | String c s' =>
      let q' := lex_step q c in
      match s' with
      | EmptyString => match q' with LexOut O => true | _ => false end
      | String _ _ => inside q' && nested_from q' s'
      end
  end.

(** A text that opens a bracket with its first character and closes it
    with its last, as the serialization of an object does. *)
Definition nested (line : string) : bool := nested_from (LexOut 0) line.

(** Every state of the scan of [s] after [q] is inside a bracket. *)
Fixpoint all_inside (q : LexState) (s : string) : bool :=
  match s with
  | EmptyString => true
  | String c s' => inside (lex_step q c) && all_inside (lex_step q c) s'
  end.

(** Scanned at depth [S d] outside a string, the text stays inside and
    comes back to where it started. *)
Definition scans_inside (s : string) : Prop :=
  forall d, all_inside (LexOut (S d)) s = true
            /\ lex_run (LexOut (S d)) s = LexOut (S d).

(** What is assumed of [JSON.parse]: it accepts no text whose scan fails. *)
Definition balanced_parser (JSON_parse : string -> option Json) : Prop :=
  forall s v, JSON_parse s = Some v -> lex_run (LexOut 0) s = LexOut 0.

(** How the scan of a fragment, started afresh, relates to the scan of
    the whole line at the same place. *)
Definition out_of_step (whole fresh : LexState) : Prop :=
  fresh = LexBad \/ whole = LexBad
  \/ (exists d d', whole = LexIn d /\ fresh = LexOut d')
  \/ (exists d d', whole = LexOut d /\ fresh = LexIn d')
  \/ (exists d, whole = LexEsc (S d) /\ fresh = LexOut 0)
  \/ (exists d d', d' < d
        /\ ((whole = LexOut d /\ fresh = LexOut d')
            \/ (whole = LexIn d /\ fresh = LexIn d')
            \/ (whole = LexEsc d /\ fresh = LexEsc d'))).

(** ** The shape of a mention *)

(** What may follow the first word character of a name: word characters,
    and hyphens each followed by a word character. *)
Fixpoint name_tail (s : string) : bool :=
  match s with
  | EmptyString => true
  | String c s' =>
      if is_word c then name_tail s'
      else if Ascii.eqb c "-" then
        match s' with
        | String d _ => is_word d && name_tail s'
        | EmptyString => false
        end
      else false
  end.

(** An [@], a word character, and a name tail. *)
Definition mention_shape (m : string) : bool :=
  match m with
  | String a (String c rest) => Ascii.eqb a "@" && is_word c && name_tail rest
  | _ => false
  end.

(** A character that can neither continue a name nor be part of one. *)
Definition separator (c : ascii) : bool :=
  negb (is_word c) && negb (Ascii.eqb c "-").

(** ** More predicates on streams *)

(** The lines of a body delivered in the given chunks, chunk by chunk. *)
Definition body_lines (chunks : list string) : list string :=
  concat (chunk_lines <$> chunks).

(** A value whose [type] makes the delegate's line loop return. *)
Definition ends_stream (v : Json) : bool :=
  is_tag (event_type v) "done" || is_tag (event_type v) "error".

(** No line feed in the text. *)
Fixpoint no_newline (s : string) : bool :=
  match s with
  | EmptyString => true
  | String c s' => negb (code c =? 10) && no_newline s'
  end.

(** Some character of the text is not white space. *)
Fixpoint has_visible (s : string) : bool :=
  match s with
  | EmptyString => false
  | String c s' => negb (is_space c) || has_visible s'
  end.

(** The text starts with a character that is not white space. *)
Definition head_visible (s : string) : bool :=
  match s with
  | EmptyString => false
  | String c _ => negb (is_space c)
  end.

(** The text of a chunk in which the peer writes the given events, one
    per line. *)
Definition wire_text (evs : list Json) : string :=
  concat_deltas (wire_line <$> evs).

(** [error.name === "AbortError"] *)
Definition named_abort (error : Thrown) : bool :=
  match error with
  | ThrownError _ name _ => String.eqb name "AbortError"
  | ThrownValue _ => false
  end.

(** [error instanceof AbortError], for the SDK's class. *)
Definition sdk_abort (error : Thrown) : bool :=
  match error with
  | ThrownError ClsSdkAbortError _ _ => true
  | _ => false
  end.

(** The events that a reader of the response decodes: the flush markers
    are white space between lines. *)
Definition written_events (written : list Enqueued) : list Json :=
  omap (fun w => match w with EnqJson v => Some v | EnqFlush => None end) written.

(** A run of [text_delta] chunks carrying the given pieces. *)
Definition text_deltas (ds : list string) : list LlmStep :=
  (fun d => LlmChunk (ContentBlockDelta (TextDelta d))) <$> ds.

(** The prefix that the local executor puts before the message of an
    error that looks like a failed authentication. *)
Definition auth_failure_prefix : string :=
  "Claude Code authentication failed. Please ensure valid OAuth credentials are provided. Original error: ".

(** ** Building the registry ([providers/registry.ts]) *)

(** [new ProviderRegistry()] *)
Definition new_ProviderRegistry : ProviderRegistry :=
  {| providers := ∅; agentConfigs := ∅ |}.

Definition registerProvider (r : ProviderRegistry) (provider : AgentProvider)
  : ProviderRegistry :=
  {| providers := <[provider_id provider := provider]> (providers r);
     agentConfigs := agentConfigs r |}.

Definition registerAgent (r : ProviderRegistry) (config : AgentConfiguration)
  : ProviderRegistry :=
  {| providers := providers r;
     agentConfigs := <[config_id config := config]> (agentConfigs r) |}.

(** The constructors of the provider classes, which live in modules of
    their own: each takes its key or path. *)
Record ProviderClasses : Type := {
  OpenAIProvider : string -> AgentProvider;
  ClaudeCodeProvider : string -> AgentProvider;
  AnthropicProvider : string -> AgentProvider
}.

Record ProviderOptions : Type := {
  openaiApiKey : option string;
  opt_claudePath : option string;
  anthropicApiKey : option string
}.

(** [if (option) this.registerProvider(new Class(option))] *)
Definition register_if (value : option string)
    (Class : string -> AgentProvider) (r : ProviderRegistry) : ProviderRegistry :=
  match value with
  | Some s => if truthy s then registerProvider r (Class s) else r
  | None => r
  end.

Definition initializeDefaultProviders (classes : ProviderClasses)
    (options : ProviderOptions) (r : ProviderRegistry) : ProviderRegistry :=
  let r := register_if (openaiApiKey options) (OpenAIProvider classes) r in
  let r := register_if (opt_claudePath options) (ClaudeCodeProvider classes) r in
  register_if (anthropicApiKey options) (AnthropicProvider classes) r.

(** The three default agents, with the fields of a configuration that
    the registry's lookups and the handlers read. *)
Definition createDefaultAgents (r : ProviderRegistry) : ProviderRegistry :=
  let r := registerAgent r
             {| config_id := "ux-designer"; config_provider := "openai";
                config_isOrchestrator := None |} in
  let r := registerAgent r
             {| config_id := "implementation"; config_provider := "claude-code";
                config_isOrchestrator := None |} in
  let orchestratorProvider :=
    match getProvider r "anthropic" with
    | Some _ => "anthropic"%string
    | None => "claude-code"%string
    end in
  registerAgent r
    {| config_id := "orchestrator"; config_provider := orchestratorProvider;
       config_isOrchestrator := Some true |}.

(** Every provider is filed under its own id. *)
Definition keyed_by_id (r : ProviderRegistry) : Prop :=
  forall k p, providers r !! k = Some p -> provider_id p = k.

(** ** The Workers deployment
    ([providers/workers-registry.ts], [handlers/workers-chat.ts],
    [handlers/workers-multi-agent.ts]) *)

(** What a provider's [executeChat] yields. *)
Record ProviderResponse : Type := {
  resp_type : string;
  resp_content : option string;
  resp_error : option string
}.

Inductive ProviderStep : Type :=
| ProviderYields (response : ProviderResponse)
| ProviderThrows (e : Thrown).

(** The request handed to [executeChat]. *)
Record ProviderChatRequest : Type := {
  chat_message : string;
  chat_sessionId : option string;
  chat_requestId : string
}.

Record WorkersRun : Type := {
  workers_events : list Json;
  workers_controllers : gmap string AbortController;
  workers_completion : Completion;    (* how the generator ended *)
  workers_chat : option ProviderChatRequest  (* what executeChat was given *)
}.

(** How the Workers handler answers [POST /api/chat]. *)
Inductive WorkersRoute : Type :=
| RouteJson (body : Json) (status : N)   (* c.json(body, status) *)
| RouteMultiAgent                        (* handleMultiAgentChatRequest *)
| RouteSingleAgent.                      (* the stream of executeSingleAgentChat *)

Module Workers.

Definition initializeProviders (classes : ProviderClasses)
    (options : ProviderOptions) (r : ProviderRegistry) : ProviderRegistry :=
  let r := register_if (openaiApiKey options) (OpenAIProvider classes) r in
  register_if (anthropicApiKey options) (AnthropicProvider classes) r.

Definition createDefaultAgents (r : ProviderRegistry) : ProviderRegistry :=
  let r :=
    match getProvider r "openai" with
    | Some _ =>
        registerAgent r
          {| config_id := "ux-designer"; config_provider := "openai";
             config_isOrchestrator := None |}
    | None => r
    end in
  match getProvider r "anthropic" with
  | Some _ =>
      registerAgent r
        {| config_id := "orchestrator"; config_provider := "anthropic";
           config_isOrchestrator := Some true |}
  | None => r
  end.

Definition shouldUseOrchestratorMode (workersRegistry : ProviderRegistry)
    (message : string) (availableAgents : option (list Agent)) : bool :=
  let orchestratorProvider := getProviderForAgent workersRegistry "orchestrator" in
  if negb (bool_decide (provider_id <$> orchestratorProvider = Some "anthropic"%string))
  then false
  else
    match availableAgents with
    | Some (_ :: _) =>
        match match_mentions message with
        | [] => false                       (* match gave null *)
        | mentionMatches => 1 <? length mentionMatches
        end
    | _ => false
    end.

(** A [StreamResponse] of the Workers handlers. *)
Definition stream_event (type content requestId agentId : string) : Json :=
  JObj [("type"%string, JStr type); ("content"%string, JStr content);
        ("requestId"%string, JStr requestId); ("agentId"%string, JStr agentId)].

(** The body of [for await (const response of provider.executeChat(...))]:
    what one response makes the generator yield. *)
Definition onResponse (requestId agentId : string) (response : ProviderResponse)
  : list Json :=
  let content_truthy :=
    match resp_content response with
    | Some s => truthy s
    | None => false
    end in
  if String.eqb (resp_type response) "text" && content_truthy then
    [stream_event "text_delta" (default EmptyString (resp_content response))
       requestId agentId]
  else if String.eqb (resp_type response) "done" then
    [stream_event "done" "" requestId agentId]
  else if String.eqb (resp_type response) "error" then
    [stream_event "error"
       (default "Unknown error"%string
          (or_else (resp_error response) (Some "Unknown error"%string)))
       requestId agentId]
  else [].

Fixpoint forResponses (requestId agentId : string) (script : list ProviderStep)
  : list Json * Completion :=
  match script with
  | [] => ([], Normal)
  | ProviderThrows e :: _ => ([], Throw e)
  | ProviderYields response :: rest =>
      let '(evs, c) := forResponses requestId agentId rest in
      (onResponse requestId agentId response ++ evs, c)
  end.

Definition executeSingleAgentChat (workersRegistry : ProviderRegistry)
    (executeChat : AgentProvider -> ProviderChatRequest -> list ProviderStep)
    (request : ChatRequest)
    (requestAbortControllers : gmap string AbortController) : WorkersRun :=
  let abortController := new_AbortController in
  let controllers :=
    <[requestId request := abortController]> requestAbortControllers in
  let '(evs, completion, chat) :=
    match getProvider workersRegistry "anthropic" with
    | None =>
        ([stream_event "error" "Anthropic provider not available"
            (requestId request) "system"], Return, None)
    | Some provider =>
        let chat := {| chat_message := message request;
                       chat_sessionId := sessionId request;
                       chat_requestId := requestId request |} in
        let '(evs, c) :=
          forResponses (requestId request) "anthropic" (executeChat provider chat) in
        (evs, c, Some chat)
    end in
  (* finally *)
  {| workers_events := evs;
     workers_controllers := delete (requestId request) controllers;
     workers_completion := completion;
     workers_chat := chat |}.

(** The message put before the orchestrator: the agents of the request,
    one per line, then the user's message. *)
Definition contextMessage (request : ChatRequest) : string :=
  match availableAgents request with
  | Some ((_ :: _) as agents) =>
      let agentsList :=
        join newline
          ((fun a => "- @" +:+ agent_id a +:+ ": " +:+ agent_description a)
             <$> agents) in
      "Available agents:" +:+ newline +:+ agentsList +:+ newline +:+ newline
      +:+ "User request:" +:+ newline +:+ message request
  | _ => message request
  end.

Definition executeMultiAgentChat (workersRegistry : ProviderRegistry)
    (executeChat : AgentProvider -> ProviderChatRequest -> list ProviderStep)
    (request : ChatRequest)
    (requestAbortControllers : gmap string AbortController) : WorkersRun :=
  let abortController := new_AbortController in
  let controllers :=
    <[requestId request := abortController]> requestAbortControllers in
  let '(evs, completion, chat) :=
    match getProviderForAgent workersRegistry "orchestrator" with
    | None =>
        ([stream_event "error" "Orchestrator not available"
            (requestId request) "system"], Return, None)
    | Some orchestrator =>
        let chat := {| chat_message := contextMessage request;
                       chat_sessionId := sessionId request;
                       chat_requestId := requestId request |} in
        let '(evs, c) :=
          forResponses (requestId request) "orchestrator"
            (executeChat orchestrator chat) in
        (evs, c, Some chat)
    end in
  (* finally *)
  {| workers_events := evs;
     workers_controllers := delete (requestId request) controllers;
     workers_completion := completion;
     workers_chat := chat |}.

(** The decision of [handleChatRequest] on a request body that parsed.
    A field that is missing reads as [undefined], which is falsy like the
    empty string that stands for it here. *)
Definition handleChatRequest (workersRegistry : ProviderRegistry)
    (request : ChatRequest) : WorkersRoute :=
  if negb (truthy (message request)) || negb (truthy (requestId request)) then
    RouteJson
      (JObj [("error"%string,
              JStr "Missing required fields: message, requestId")]) 400
  else if shouldUseOrchestratorMode workersRegistry (message request)
            (availableAgents request)
  then RouteMultiAgent
  else RouteSingleAgent.

End Workers.

(** The type of a Workers event is one of the three the handlers emit. *)
Definition workers_event_type (e : Json) : Prop :=
  event_type e = Some (JStr "text_delta")
  \/ event_type e = Some (JStr "done")
  \/ event_type e = Some (JStr "error").

(** ** Frontend endpoints ([config/api.ts]) *)

(** [import.meta.env], as far as it is read. *)
Record ViteEnv : Type := {
  DEV : bool;
  VITE_USE_LOCAL_API : option string
}.

Definition render_backend : string := "https://agentrooms-api.onrender.com".

Definition getApiUrl (env : ViteEnv) (endpoint : string)
    (orchestratorEndpoint : option string) : string :=
  if DEV env && bool_decide (VITE_USE_LOCAL_API env = Some "true"%string)
  then endpoint
  else
    let baseUrl :=
      default render_backend (or_else orchestratorEndpoint (Some render_backend)) in
    baseUrl +:+ endpoint.

Definition getAbortUrl (env : ViteEnv) (requestId : string)
    (orchestratorEndpoint : option string) : string :=
  getApiUrl env ("/api/abort" +:+ "/" +:+ requestId) orchestratorEndpoint.

Definition getChatUrl (env : ViteEnv) (orchestratorEndpoint : option string)
  : string :=
  getApiUrl env "/api/chat" orchestratorEndpoint.

Definition getProjectsUrl (env : ViteEnv) (orchestratorEndpoint : option string)
  : string :=
  getApiUrl env "/api/projects" orchestratorEndpoint.

Definition getConversationUrl (env : ViteEnv)
    (encodedProjectName sessionId : string)
    (orchestratorEndpoint : option string) : string :=
  getApiUrl env
    ("/api/projects" +:+ "/" +:+ encodedProjectName +:+ "/histories/" +:+ sessionId)
    orchestratorEndpoint.

Definition getAgentProjectsUrl (agentEndpoint : string) : string :=
  agentEndpoint +:+ "/api/agent-projects".

Definition getAgentConversationUrl (agentEndpoint encodedProjectName
    sessionId : string) : string :=
  agentEndpoint +:+ "/api/agent-conversations" +:+ "/" +:+ encodedProjectName
  +:+ "/" +:+ sessionId.

(** The [type] of the last block of [currentContent], if any. *)
Definition last_block_type (content : list (list (string * Json))) : option Json :=
  last content ≫= get_prop "type".

(** ** The version probe of the local executor

    Before it calls the SDK, and with the window's environment already
    installed, [executeClaudeCommand] spawns [node claudePath --version]
    in the request's working directory and awaits the child's [close]
    event.  A [spawn] that throws is caught and logged.  The child is
    given no [error] listener, so a child that cannot be started (a
    working directory that does not exist and could not be created, for
    one) emits an unhandled [error] and the server process dies; and a
    child that never closes leaves the generator suspended for good. *)
Inductive ProbeResult : Type :=
| ProbeReturns          (* close was emitted, or spawn threw and was caught *)
| ProbeUnhandledError   (* error emitted on the child: no listener *)
| ProbeNeverCloses.

(** What becomes of the generator. *)
Inductive Fate : Type :=
| RunsToEnd
| ProcessDies
| NeverResumes.

Definition probe_fate (probe : ProbeResult) : Fate :=
  match probe with
  | ProbeReturns => RunsToEnd
  | ProbeUnhandledError => ProcessDies
  | ProbeNeverCloses => NeverResumes
  end.

Record LocalProcessRun : Type := {
  lp_fate : Fate;
  lp_events : list Json;                         (* everything it ever yields *)
  lp_controllers : gmap string AbortController;  (* the registry it leaves *)
  lp_env : gmap string string                    (* process.env it leaves *)
}.

(** [executeClaudeCommand] with its probe: [spawnVersion] is what the
    spawned child does, given the environment, the path and the working
    directory it is started with.  When the probe does not return, the
    generator has yielded nothing, neither [finally] has run, and the
    registry and the environment stay as the set-up left them. *)
Definition executeClaudeCommand_process
    (spawnVersion : gmap string string -> string -> option string -> ProbeResult)
    (env : gmap string string) (files : AuthFiles) (now : Z)
    (query : gmap string string -> QueryOptions -> list SdkStep)
    (message requestId : string)
    (requestAbortControllers : gmap string AbortController)
    (claudePath : string) (sessionId : option string)
    (allowedTools : option (list string)) (workingDirectory : option string)
    (claudeAuth : option ClaudeAuth) : LocalProcessRun :=
  let '(authEnv, executableArgs) := auth_setup files now claudeAuth in
  let abortController := new_AbortController in
  let controllers := <[requestId := abortController]> requestAbortControllers in
  let '(originalEnv, env_during) :=
    install_authEnv authEnv (install_credentials claudeAuth env) in
  let probe := spawnVersion env_during claudePath workingDirectory in
  match probe with
  | ProbeReturns =>
      let r := executeClaudeCommand env files now query message requestId
                 requestAbortControllers claudePath sessionId allowedTools
                 workingDirectory claudeAuth in
      {| lp_fate := RunsToEnd;
         lp_events := local_events r;
         lp_controllers := local_controllers r;
         lp_env := local_env r |}
  | _ =>
      {| lp_fate := probe_fate probe;
         lp_events := [];
         lp_controllers := controllers;
         lp_env := env_during |}
  end.

(** [handleChatRequest] with the probe of its local executor: what
    becomes of the stream, and what was pulled and written by then. *)
Definition handleChatRequest_process (JSON_parse : string -> option Json)
    (spawnVersion : gmap string string -> string -> option string -> ProbeResult)
    (w : World) (chatRequest : ChatRequest)
    (requestAbortControllers : gmap string AbortController)
    (env : gmap string string) : Fate * HandlerRun :=
  let r := handleChatRequest JSON_parse w chatRequest requestAbortControllers env in
  match run_method r with
  | ExecClaudeCommand =>
      let p := executeClaudeCommand_process spawnVersion env (authFiles w)
                 (clock w 1) (query w) (message chatRequest)
                 (requestId chatRequest) requestAbortControllers (claudePath w)
                 (sessionId chatRequest) (allowedTools chatRequest)
                 (workingDirectory chatRequest) (claudeAuth chatRequest) in
      (lp_fate p,
       {| run_method := ExecClaudeCommand;
          run_events := lp_events p;
          run_enqueued :=
            EnqJson (ev_connection_ack (clock w 0)) :: EnqFlush
              :: enqueue_all (random_flush w) 0 (lp_events p);
          run_controllers := lp_controllers p;
          run_env := lp_env p |})
  | _ => (RunsToEnd, r)
  end.

(** A credentials file whose expiry is beyond the time values. *)
Definition far_future_auth_files : AuthFiles :=
  {| credentialsFile :=
       Some {| cred_accessToken := Some "tok"%string;
               cred_expiresAt := Some 9000000000000000%Z |};
     credentialsPath := "/home/u/.claude-credentials.json";
     nodeOptions := "--require preload-script.cjs";
     claudeConfigDir := "/home/u/.claude-config";
     writeCredentials_throws := false; prepare_throws := false |}.

(** A child that cannot be started in a working directory that does not
    exist. *)
Definition spawn_needs_cwd (existing : list string)
  : gmap string string -> string -> option string -> ProbeResult :=
  fun _ _ cwd =>
    match cwd with
    | Some dir =>
        if bool_decide (dir ∈ existing) then ProbeReturns else ProbeUnhandledError
    | None => ProbeReturns
    end.

(** ** A Workers deployment, for running the handlers *)

Definition sample_classes : ProviderClasses :=
  {| OpenAIProvider := fun _ => {| provider_id := "openai" |};
     ClaudeCodeProvider := fun _ => {| provider_id := "claude-code" |};
     AnthropicProvider := fun _ => {| provider_id := "anthropic" |} |}.

Definition text_response (content : string) : ProviderResponse :=
  {| resp_type := "text"; resp_content := Some content; resp_error := None |}.

Definition done_response : ProviderResponse :=
  {| resp_type := "done"; resp_content := None; resp_error := None |}.

(** Case analysis on every pair or triple bound by a destructuring [let]. *)
Ltac split_lets :=
  repeat match goal with
    | |- context [let '(_, _) := ?X in _] => destruct X
    end.

(** * Properties *)

(** ** Registry bookkeeping *)

Lemma cleanup_insert (requestId : string) (c : AbortController)
    (m : gmap string AbortController) :
  cleanup requestId (<[requestId := c]> m) = delete requestId m.
Proof.
  unfold cleanup. rewrite bool_decide_eq_true_2.
  - apply delete_insert_eq.
  - rewrite lookup_insert_eq. eauto.
Qed.

Lemma http_controllers_eq JSON_parse fetch agent message requestId
    (ctrls : gmap string AbortController) sessionId claudeAuth :
  http_controllers
    (executeAgentHttpRequest JSON_parse fetch agent message requestId ctrls
       sessionId claudeAuth)
  = delete requestId ctrls.
Proof.
  unfold executeAgentHttpRequest. split_lets. simpl. apply cleanup_insert.
Qed.

Lemma orch_controllers_eq JSON_parse env create clock message requestId
    (ctrls : gmap string AbortController) sessionId availableAgents :
  orch_controllers
    (executeOrchestratorWorkflow JSON_parse env create clock message requestId
       ctrls sessionId availableAgents)
  = delete requestId ctrls.
Proof.
  unfold executeOrchestratorWorkflow. split_lets. simpl. apply cleanup_insert.
Qed.

Lemma local_controllers_eq env files now query message requestId
    (ctrls : gmap string AbortController) claudePath sessionId allowedTools
    workingDirectory claudeAuth :
  local_controllers
    (executeClaudeCommand env files now query message requestId ctrls
       claudePath sessionId allowedTools workingDirectory claudeAuth)
  = delete requestId ctrls.
Proof.
  unfold executeClaudeCommand. split_lets. simpl. apply cleanup_insert.
Qed.

Lemma run_controllers_eq JSON_parse w req
    (ctrls : gmap string AbortController) env :
  run_controllers (handleChatRequest JSON_parse w req ctrls env)
  = delete (requestId req) ctrls.
Proof.
  unfold handleChatRequest.
  destruct (selectExecutionMethod (globalRegistry w) req); simpl.
  - apply http_controllers_eq.
  - apply orch_controllers_eq.
  - apply local_controllers_eq.
Qed.

(** C5. When a strategy's generator has run to its end (the transport
    closes the response only after draining it), the cancellation
    registry holds no entry for the request id; this holds for the remote
    delegate, the orchestrator planner and the local executor, for every
    script of what their collaborators deliver (normal completion, error,
    cancellation), and so for the handler. *)
Theorem registry_released_after_stream JSON_parse w req
    (ctrls : gmap string AbortController) env fetch agent create clock
    files now query claudePath :
  let rid := requestId req in
  http_controllers
    (executeAgentHttpRequest JSON_parse fetch agent (message req) rid ctrls
       (sessionId req) (claudeAuth req)) !! rid = None
  /\ orch_controllers
       (executeOrchestratorWorkflow JSON_parse env create clock (message req)
          rid ctrls (sessionId req) (availableAgents req)) !! rid = None
  /\ local_controllers
       (executeClaudeCommand env files now query (message req) rid ctrls
          claudePath (sessionId req) (allowedTools req) (workingDirectory req)
          (claudeAuth req)) !! rid = None
  /\ run_controllers (handleChatRequest JSON_parse w req ctrls env) !! rid = None.
Proof.
  intros rid.
  rewrite http_controllers_eq, orch_controllers_eq, local_controllers_eq,
    run_controllers_eq.
  repeat split; apply lookup_delete_eq.
Qed.

(** ** Request classification *)

Lemma shouldUseOrchestrator_anthropic reg message agents :
  anthropic_orchestrator reg ->
  shouldUseOrchestrator reg message agents
  = match agents with
    | Some (_ :: _) => 1 <? length (match_mentions message)
    | _ => false
    end.
Proof.
  intros (p & Hp & Hid). unfold shouldUseOrchestrator.
  rewrite Hp. simpl. rewrite Hid.
  rewrite bool_decide_eq_true_2 by reflexivity. reflexivity.
Qed.

Lemma shouldUseOrchestrator_needs_two reg message agents :
  shouldUseOrchestrator reg message agents = true ->
  1 < length (match_mentions message).
Proof.
  unfold shouldUseOrchestrator.
  destruct (negb _); [discriminate|].
  destruct agents as [[|a agents]|]; try discriminate.
  intros H. apply Nat.ltb_lt in H. exact H.
Qed.

(** The single-mention branch of the handler sits behind
    [shouldUseOrchestrator], which asks for at least two mentions: no
    request reaches it. *)
Lemma remote_single_unreachable reg req agent :
  selectExecutionMethod reg req <> ExecAgentHttpRequest agent.
Proof.
  unfold selectExecutionMethod.
  destruct (shouldUseOrchestrator reg (message req) (availableAgents req)) eqn:Hs;
    [|discriminate].
  apply shouldUseOrchestrator_needs_two in Hs.
  destruct (match_mentions (message req)) as [|m [|m' ms]]; simpl in Hs;
    try lia; discriminate.
Qed.

(** C1 fails on the code, at this input: for the request
    ["@db-agent do X"] with [db-agent] available, carrying an endpoint,
    and an anthropic orchestrator configured, the handler does not select
    the remote delegate. *)
Lemma single_mention_not_delegated :
  let req := request_for "@db-agent do X" [db_agent] in
  anthropic_orchestrator anthropic_registry
  /\ single_worker_mention req db_agent
  /\ run_method (handleChatRequest JSON_parse_ref (sample_world [] [] []) req ∅ ∅)
     <> ExecAgentHttpRequest db_agent.
Proof.
  split; [|split].
  - exists {| provider_id := "anthropic" |}. split; reflexivity.
  - exists "@db-agent"%string, [db_agent]. repeat split; try reflexivity.
    + apply list_elem_of_singleton. reflexivity.
    + eexists. reflexivity.
  - vm_compute. discriminate.
Qed.

(** C1 fails on the code.  The handler has a branch that hands a single
    mention of a worker agent to the remote delegate, but the branch sits
    behind [shouldUseOrchestrator], which is false unless there is more
    than one mention.  So for every chat request whose message contains
    exactly one mention token naming a non-orchestrator agent that is
    present in availableAgents and carries an apiEndpoint, and with an
    anthropic orchestrator configured, the handler does not delegate over
    HTTP as the claim says: it runs the request with the local executor
    [executeClaudeCommand]. *)
Theorem single_mention_runs_locally JSON_parse w req agent
    (ctrls : gmap string AbortController) env :
  anthropic_orchestrator (globalRegistry w) ->
  single_worker_mention req agent ->
  let r := handleChatRequest JSON_parse w req ctrls env in
  run_method r = ExecClaudeCommand
  /\ run_events r
     = local_events
         (executeClaudeCommand env (authFiles w) (clock w 1) (query w)
            (message req) (requestId req) ctrls (claudePath w) (sessionId req)
            (allowedTools req) (workingDirectory req) (claudeAuth req)).
Proof.
  intros Hreg (m & agents & Hm & Hagents & Hin & _) r.
  assert (Hsel : selectExecutionMethod (globalRegistry w) req = ExecClaudeCommand).
  { unfold selectExecutionMethod.
    rewrite (shouldUseOrchestrator_anthropic _ _ _ Hreg), Hagents, Hm.
    destruct agents; [inversion Hin | reflexivity]. }
  subst r. unfold handleChatRequest. rewrite Hsel. split; reflexivity.
Qed.

Lemma single_mention_runs_locally_witness :
  let req := request_for "@db-agent do X" [db_agent] in
  let r := handleChatRequest JSON_parse_ref
             (sample_world [] [] [SdkMessage (JStr "hello")]) req ∅ ∅ in
  run_method r = ExecClaudeCommand
  /\ run_events r = [ev_claude_json (JStr "hello"); ev_done].
Proof.
  intros req r.
  destruct (single_mention_runs_locally JSON_parse_ref
              (sample_world [] [] [SdkMessage (JStr "hello")]) req db_agent ∅ ∅)
    as [Hm He].
  - exists {| provider_id := "anthropic" |}. split; reflexivity.
  - exists "@db-agent"%string, [db_agent]. repeat split; try reflexivity.
    + apply list_elem_of_singleton. reflexivity.
    + eexists. reflexivity.
  - split; [exact Hm|]. subst r. rewrite He. vm_compute. reflexivity.
Defined.

(** C4. For every chat request whose message contains more than one
    mention token (counted as matched, repetitions included), whose
    availableAgents list is non-empty, and with an anthropic orchestrator
    configured, the handler selects the Orchestrate strategy: the events
    of the request are those of [executeOrchestratorWorkflow]. *)
Theorem many_mentions_orchestrate JSON_parse w req agents
    (ctrls : gmap string AbortController) env :
  anthropic_orchestrator (globalRegistry w) ->
  availableAgents req = Some agents ->
  agents <> [] ->
  1 < length (match_mentions (message req)) ->
  let r := handleChatRequest JSON_parse w req ctrls env in
  shouldUseOrchestrator (globalRegistry w) (message req) (availableAgents req) = true
  /\ run_method r = ExecOrchestratorWorkflow
  /\ run_events r
     = orch_events
         (executeOrchestratorWorkflow JSON_parse env (create w)
            (fun k => clock w (S k)) (message req) (requestId req) ctrls
            (sessionId req) (availableAgents req)).
Proof.
  intros Hreg Hagents Hne Hlen r.
  assert (Hs : shouldUseOrchestrator (globalRegistry w) (message req)
                 (availableAgents req) = true).
  { rewrite (shouldUseOrchestrator_anthropic _ _ _ Hreg), Hagents.
    destruct agents; [congruence|]. apply Nat.ltb_lt. exact Hlen. }
  assert (Hsel : selectExecutionMethod (globalRegistry w) req
                 = ExecOrchestratorWorkflow).
  { unfold selectExecutionMethod. rewrite Hs.
    destruct (match_mentions (message req)) as [|m [|m' ms]]; simpl in Hlen;
      try lia; reflexivity. }
  subst r. unfold handleChatRequest. rewrite Hsel. repeat split; assumption.
Qed.

Lemma many_mentions_orchestrate_witness :
  let req := request_for "@db-agent and @web and @web again" [db_agent; web_agent] in
  let w := sample_world [] [] [] in
  length (match_mentions (message req)) = 3
  /\ run_method (handleChatRequest JSON_parse_ref w req ∅ ∅)
     = ExecOrchestratorWorkflow.
Proof.
  intros req w. split; [reflexivity|].
  refine (proj1 (proj2 (many_mentions_orchestrate JSON_parse_ref w req
                          [db_agent; web_agent] ∅ ∅ _ _ _ _))).
  - exists {| provider_id := "anthropic" |}. split; reflexivity.
  - reflexivity.
  - discriminate.
  - vm_compute. lia.
Defined.

(** ** Remote delegate: failed responses *)

Lemma http_run_failed JSON_parse fetch agent message requestId
    (ctrls : gmap string AbortController) sessionId claudeAuth response :
  fetch (chat_url agent)
        (agentChatRequest agent message requestId sessionId claudeAuth)
  = FetchResolves response ->
  ok response = false ->
  http_events
    (executeAgentHttpRequest JSON_parse fetch agent message requestId ctrls
       sessionId claudeAuth)
  = [http_catch (http_failure agent response)].
Proof.
  intros Hfetch Hok. unfold executeAgentHttpRequest.
  rewrite Hfetch, Hok. reflexivity.
Qed.

(** C6. When the peer answers the delegate's POST with a status outside
    200..299, the delegate yields exactly one event, an [error], and
    nothing after it (no [done]): for 401 and 403 its message names the
    agent id, speaks of failed authentication and ends with the status;
    for any other status from 500 up it carries the status and the
    response body (or a fixed text when the body cannot be read); for
    every remaining status it is the generic HTTP error with status and
    status text. *)
Theorem delegate_non_2xx_single_error JSON_parse fetch agent message requestId
    (ctrls : gmap string AbortController) sessionId claudeAuth response :
  fetch (chat_url agent)
        (agentChatRequest agent message requestId sessionId claudeAuth)
  = FetchResolves response ->
  ok response = false ->
  let r := executeAgentHttpRequest JSON_parse fetch agent message requestId
             ctrls sessionId claudeAuth in
  let st := Number_toString (status response) in
  (status response = 401%N \/ status response = 403%N ->
   http_events r
   = [ev_error ("Authentication failed for agent " +:+ agent_id agent
                +:+ ". Please check OAuth credentials. Status: " +:+ st)])
  /\ (status response <> 401%N -> status response <> 403%N ->
      (500 <= status response)%N ->
      http_events r
      = [ev_error ("Agent " +:+ agent_id agent +:+ " server error (" +:+ st
                   +:+ "): "
                   +:+ default "Unable to read error response"%string
                         (text response))])
  /\ (status response <> 401%N -> status response <> 403%N ->
      (status response < 500)%N ->
      http_events r
      = [ev_error ("HTTP error from agent " +:+ agent_id agent
                   +:+ "! status: " +:+ st +:+ " - " +:+ statusText response)])
  /\ (exists error, http_events r = [ev_error error])
  /\ no_event_of_type "done" (http_events r).
Proof.
  intros Hfetch Hok r st. subst r st.
  rewrite (http_run_failed _ _ _ _ _ _ _ _ _ Hfetch Hok).
  unfold http_failure.
  repeat split.
  - intros [H | H]; rewrite H; reflexivity.
  - intros H1 H3 H5.
    apply N.eqb_neq in H1, H3. rewrite H1, H3. simpl.
    apply N.leb_le in H5. rewrite H5. reflexivity.
  - intros H1 H3 H5.
    apply N.eqb_neq in H1, H3. rewrite H1, H3. simpl.
    apply N.leb_gt in H5. rewrite H5. reflexivity.
  - destruct (_ || _)%bool; [|destruct (500 <=? _)%N]; eexists; reflexivity.
  - destruct (_ || _)%bool; [|destruct (500 <=? _)%N];
      repeat constructor.
Qed.

Lemma delegate_non_2xx_single_error_witness :
  let r := executeAgentHttpRequest JSON_parse_ref
             (peer (failed_response 403 "Forbidden" "denied")) db_agent
             "@db-agent do X" "r1" ∅ None None in
  http_events r
  = [ev_error "Authentication failed for agent db-agent. Please check OAuth credentials. Status: 403"]
  /\ no_event_of_type "done" (http_events r).
Proof.
  intros r.
  destruct (delegate_non_2xx_single_error JSON_parse_ref
              (peer (failed_response 403 "Forbidden" "denied")) db_agent
              "@db-agent do X" "r1" ∅ None None
              (failed_response 403 "Forbidden" "denied"))
    as (H403 & _ & _ & _ & Hdone).
  - reflexivity.
  - reflexivity.
  - split; [|exact Hdone]. apply H403. right. reflexivity.
Defined.

(** ** Remote delegate: the read loop *)

Section ReadLoop.

Variable JSON_parse : string -> option Json.

Local Abbreviation forLines := (forLines JSON_parse).
Local Abbreviation readLoop := (readLoop JSON_parse).

Lemma forLines_app l1 l2 :
  forLines (l1 ++ l2)
  = let '(e1, returned) := forLines l1 in
    if returned then (e1, true)
    else let '(e2, returned2) := forLines l2 in (e1 ++ e2, returned2).
Proof.
  induction l1 as [|line l1 IH]; simpl.
  - destruct (forLines l2); reflexivity.
  - destruct (JSON_parse line) as [v|]; [|exact IH].
    destruct (prop_type v) as [e|ty].
    + rewrite IH. destruct (forLines l1) as [e1 [|]]; [reflexivity|].
      destruct (forLines l2); reflexivity.
    + destruct (is_tag ty "done" || is_tag ty "error"); [reflexivity|].
      rewrite IH. destruct (forLines l1) as [e1 [|]]; [reflexivity|].
      destruct (forLines l2); reflexivity.
Qed.

Lemma forLines_skip l1 bad l2 :
  JSON_parse bad = None ->
  forLines (l1 ++ bad :: l2) = forLines (l1 ++ l2).
Proof.
  intros Hbad. rewrite !forLines_app. simpl. rewrite Hbad. reflexivity.
Qed.

Lemma forLines_skip_last l bad :
  JSON_parse bad = None -> forLines (l ++ [bad]) = forLines l.
Proof.
  intros Hbad. rewrite (forLines_skip l bad [] Hbad), app_nil_r. reflexivity.
Qed.

Lemma forLines_stop l1 line l2 v evs1 :
  forLines l1 = (evs1, false) ->
  JSON_parse line = Some v ->
  is_tag (event_type v) "done" || is_tag (event_type v) "error" = true ->
  forLines (l1 ++ line :: l2) = (evs1 ++ [v], true).
Proof.
  intros H1 Hv Hty. rewrite forLines_app, H1. simpl. rewrite Hv.
  unfold event_type in Hty. destruct (prop_type v) as [e|ty].
  - discriminate.
  - rewrite Hty. reflexivity.
Qed.

Lemma readLoop_congr before rs rs' :
  readLoop rs = readLoop rs' ->
  readLoop (before ++ rs) = readLoop (before ++ rs').
Proof.
  intros H. induction before as [|[chunk|e|] before IH]; simpl;
    [exact H| |reflexivity|reflexivity].
  rewrite IH. reflexivity.
Qed.

Lemma readLoop_cons chunk rest :
  readLoop (ReadChunk chunk :: rest)
  = let '(evs, returned) := forLines (chunk_lines chunk) in
    if returned then (evs, Return, 1)
    else let '(evs', c, n) := readLoop rest in (evs ++ evs', c, S n).
Proof. reflexivity. Qed.

Lemma readLoop_chunks before rest evs0 n0 :
  readLoop (ReadChunk <$> before) = (evs0, Normal, n0) ->
  readLoop ((ReadChunk <$> before) ++ rest)
  = let '(evs, c, n) := readLoop rest in (evs0 ++ evs, c, length before + n).
Proof.
  revert evs0 n0. induction before as [|chunk before IH]; intros evs0 n0.
  - intros H. inversion H; subst. simpl.
    destruct (readLoop rest) as [[evs c] n]. reflexivity.
  - rewrite fmap_cons, <- app_comm_cons, !readLoop_cons.
    destruct (forLines (chunk_lines chunk)) as [e1 [|]];
      [discriminate|].
    destruct (readLoop (ReadChunk <$> before)) as [[evs c] n] eqn:Hb.
    intros H. inversion H; subst.
    rewrite (IH evs n eq_refl).
    destruct (readLoop rest) as [[evs' c'] n']. rewrite app_assoc. reflexivity.
Qed.

Lemma http_run_ok agent message requestId
    (ctrls : gmap string AbortController) sessionId claudeAuth reads :
  let r := executeAgentHttpRequest JSON_parse (peer (ok_response reads)) agent
             message requestId ctrls sessionId claudeAuth in
  http_events r
  = match readLoop reads with
    | (evs, Normal, _) => evs ++ [ev_done]
    | (evs, Return, _) => evs
    | (evs, Throw error, _) => evs ++ [http_catch error]
    end
  /\ http_reads r = (readLoop reads).2.
Proof.
  unfold executeAgentHttpRequest, peer. simpl.
  destruct (readLoop reads) as [[evs [| |e]] n]; split; reflexivity.
Qed.

Lemma http_run_congr agent message requestId
    (ctrls : gmap string AbortController) sessionId claudeAuth reads reads' :
  readLoop reads = readLoop reads' ->
  let run := fun rs =>
    executeAgentHttpRequest JSON_parse (peer (ok_response rs)) agent message
      requestId ctrls sessionId claudeAuth in
  http_events (run reads) = http_events (run reads')
  /\ http_reads (run reads) = http_reads (run reads').
Proof.
  intros H run. subst run. simpl.
  destruct (http_run_ok agent message requestId ctrls sessionId claudeAuth reads)
    as [-> ->].
  destruct (http_run_ok agent message requestId ctrls sessionId claudeAuth reads')
    as [-> ->].
  rewrite H. split; reflexivity.
Qed.

(** C8. In the delegate's read loop a line that [JSON.parse] rejects is
    skipped: the run yields the same events, and issues the same reads,
    as when the chunk comes without that line, so the line neither ends
    the stream nor produces an event.  A line that parses to a value of
    type [done] or [error] is yielded and ends the re-stream at once: the
    events are those yielded so far followed by that value, whatever the
    rest of the chunk and of the body holds, and the read that delivered
    the chunk is the last one issued. *)
Theorem delegate_skip_and_stop agent message requestId
    (ctrls : gmap string AbortController) sessionId claudeAuth :
  let run := fun rs =>
    executeAgentHttpRequest JSON_parse (peer (ok_response rs)) agent message
      requestId ctrls sessionId claudeAuth in
  (forall before chunk chunk' rest l1 bad l2,
      chunk_lines chunk = l1 ++ bad :: l2 ->
      chunk_lines chunk' = l1 ++ l2 ->
      JSON_parse bad = None ->
      http_events (run (before ++ ReadChunk chunk :: rest))
      = http_events (run (before ++ ReadChunk chunk' :: rest))
      /\ http_reads (run (before ++ ReadChunk chunk :: rest))
         = http_reads (run (before ++ ReadChunk chunk' :: rest)))
  /\ (forall before chunk rest l1 line l2 v evs0 n0 evs1,
         readLoop (ReadChunk <$> before) = (evs0, Normal, n0) ->
         chunk_lines chunk = l1 ++ line :: l2 ->
         forLines l1 = (evs1, false) ->
         JSON_parse line = Some v ->
         is_tag (event_type v) "done" || is_tag (event_type v) "error" = true ->
         http_events (run ((ReadChunk <$> before) ++ ReadChunk chunk :: rest))
         = evs0 ++ evs1 ++ [v]
         /\ http_reads (run ((ReadChunk <$> before) ++ ReadChunk chunk :: rest))
            = length before + 1).
Proof.
  intros run. split.
  - intros before chunk chunk' rest l1 bad l2 Hc Hc' Hbad.
    apply http_run_congr, readLoop_congr. simpl.
    rewrite Hc, Hc', (forLines_skip l1 bad l2 Hbad). reflexivity.
  - intros before chunk rest l1 line l2 v evs0 n0 evs1 Hb Hc H1 Hv Hty.
    subst run. simpl.
    destruct (http_run_ok agent message requestId ctrls sessionId claudeAuth
                ((ReadChunk <$> before) ++ ReadChunk chunk :: rest)) as [-> ->].
    rewrite (readLoop_chunks before _ evs0 n0 Hb). simpl.
    rewrite Hc, (forLines_stop l1 line l2 v evs1 H1 Hv Hty).
    split; reflexivity.
Qed.

(** Two fragments that do not parse, one ending a chunk and one starting
    the next, are both skipped: the run is that of the chunks' other
    lines ([c1'] and [c2'] hold the non-blank lines of [c1] and [c2]
    without the fragments). *)
Lemma fragments_skipped agent message requestId
    (ctrls : gmap string AbortController) sessionId claudeAuth
    before c1 c2 c1' c2' rest ls1 f1 f2 ls2 :
  split_lines c1 = ls1 ++ [f1] ->
  split_lines c2 = f2 :: ls2 ->
  JSON_parse f1 = None ->
  JSON_parse f2 = None ->
  chunk_lines c1' = List.filter (fun line => truthy (trim line)) ls1 ->
  chunk_lines c2' = List.filter (fun line => truthy (trim line)) ls2 ->
  let run := fun rs =>
    executeAgentHttpRequest JSON_parse (peer (ok_response rs)) agent message
      requestId ctrls sessionId claudeAuth in
  http_events (run (before ++ ReadChunk c1 :: ReadChunk c2 :: rest))
  = http_events (run (before ++ ReadChunk c1' :: ReadChunk c2' :: rest))
  /\ http_reads (run (before ++ ReadChunk c1 :: ReadChunk c2 :: rest))
     = http_reads (run (before ++ ReadChunk c1' :: ReadChunk c2' :: rest)).
Proof.
  intros H1 H2 Hf1 Hf2 H1' H2' run.
  apply http_run_congr, readLoop_congr. simpl.
  rewrite H1', H2'. unfold chunk_lines. rewrite H1, H2.
  rewrite List.filter_app. simpl.
  assert (E1 : forLines (List.filter (fun line => truthy (trim line)) ls1
                         ++ (if truthy (trim f1) then [f1] else []))
               = forLines (List.filter (fun line => truthy (trim line)) ls1)).
  { destruct (truthy (trim f1)).
    - apply forLines_skip_last. exact Hf1.
    - rewrite app_nil_r. reflexivity. }
  rewrite E1.
  assert (E2 : forLines (if truthy (trim f2)
                         then f2 :: List.filter (fun line => truthy (trim line)) ls2
                         else List.filter (fun line => truthy (trim line)) ls2)
               = forLines (List.filter (fun line => truthy (trim line)) ls2)).
  { destruct (truthy (trim f2)); [|reflexivity]. simpl. rewrite Hf2. reflexivity. }
  rewrite E2. reflexivity.
Qed.

End ReadLoop.

Lemma delegate_skip_and_stop_witness :
  let run := fun rs =>
    executeAgentHttpRequest JSON_parse_ref (peer (ok_response rs)) db_agent
      "@db-agent do X" "r1" ∅ None None in
  let hello := ev_claude_json (JStr "hello") in
  let more := ev_claude_json (JStr "more") in
  http_events (run [ReadChunk ("not json" +:+ newline +:+ wire_line hello)])
  = [hello; ev_done]
  /\ http_events
       (run [ReadChunk (wire_line hello);
             ReadChunk (wire_line more +:+ wire_line ev_done +:+ wire_line hello);
             ReadChunk (wire_line more); ReadTimeout])
     = [hello; more; ev_done]
  /\ http_reads
       (run [ReadChunk (wire_line hello);
             ReadChunk (wire_line more +:+ wire_line ev_done +:+ wire_line hello);
             ReadChunk (wire_line more); ReadTimeout])
     = 2.
Proof.
  intros run hello more.
  destruct (delegate_skip_and_stop JSON_parse_ref db_agent "@db-agent do X" "r1"
              ∅ None None) as [Hskip Hstop].
  split.
  - destruct (Hskip [] ("not json" +:+ newline +:+ wire_line hello)
                (wire_line hello) [] [] "not json"%string
                [JSON_stringify_ref hello]) as [He _];
      [reflexivity | reflexivity | reflexivity |].
    subst run. etransitivity; [exact He|]. vm_compute. reflexivity.
  - apply (Hstop [wire_line hello]
             (wire_line more +:+ wire_line ev_done +:+ wire_line hello)
             [ReadChunk (wire_line more); ReadTimeout]
             [JSON_stringify_ref more] (JSON_stringify_ref ev_done)
             [JSON_stringify_ref hello] ev_done [hello] 2 [more]);
      reflexivity.
Defined.

(** ** Lines split across chunks *)

Lemma lex_run_app q a b : lex_run q (a +:+ b) = lex_run (lex_run q a) b.
Proof.
  revert q. induction a as [|c a IH]; intros q; [reflexivity|].
  change (lex_run (lex_step q c) (a +:+ b) = lex_run (lex_run (lex_step q c) a) b).
  apply IH.
Qed.

Lemma lex_run_bad s : lex_run LexBad s = LexBad.
Proof. induction s as [|c s IH]; [reflexivity | exact IH]. Qed.

(** A character that is neither a quote, a backslash nor a bracket
    leaves the scan where it is. *)
Lemma lex_step_plain d c :
  code c <> 34 -> code c <> 92 -> code c <> 123 -> code c <> 91 ->
  code c <> 125 -> code c <> 93 ->
  lex_step (LexOut d) c = LexOut d.
Proof.
  intros H1 H2 H3 H4 H5 H6. unfold lex_step.
  apply Nat.eqb_neq in H1, H2, H3, H4, H5, H6.
  rewrite H1, H2, H3, H4, H5, H6. reflexivity.
Qed.

Lemma nested_from_run q s : nested_from q s = true -> lex_run q s = LexOut 0.
Proof.
  revert q. induction s as [|c s IH]; intros q; [discriminate|].
  cbn [nested_from lex_run]. destruct s as [|c' s].
  - destruct (lex_step q c) as [[|d]|d|d|]; try discriminate. reflexivity.
  - intros H. apply andb_true_iff in H as [_ H]. apply IH. exact H.
Qed.

Lemma nested_from_inside q p p' :
  p <> EmptyString -> p' <> EmptyString ->
  nested_from q (p +:+ p') = true ->
  inside (lex_run q p) = true.
Proof.
  revert q. induction p as [|c p IH]; intros q Hp Hp'; [congruence|].
  change (String c p +:+ p') with (String c (p +:+ p')).
  cbn [nested_from lex_run].
  destruct p as [|c0 p].
  - change (EmptyString +:+ p') with p'.
    destruct p' as [|c' p']; [congruence|].
    intros H. apply andb_true_iff in H as [H _]. exact H.
  - change (String c0 p +:+ p') with (String c0 (p +:+ p')).
    intros H. apply andb_true_iff in H as [_ H].
    apply IH; [discriminate | exact Hp' | exact H].
Qed.

Lemma out_of_step_step whole fresh c :
  out_of_step whole fresh -> out_of_step (lex_step whole c) (lex_step fresh c).
Proof.
  unfold out_of_step.
  intros [-> | [-> | [(d & d' & -> & ->) | [(d & d' & -> & ->)
    | [(d & -> & ->) | (d & d' & Hlt & [[-> ->] | [[-> ->] | [-> ->]]])]]]]];
    cbn [lex_step].
  - auto.
  - auto.
  - destruct (code c =? 34); [right; right; right; left; eauto|].
    destruct (code c =? 92); [auto|].
    destruct (_ || _); [right; right; left; eauto|].
    destruct (_ || _); [|right; right; left; eauto].
    destruct d'; [auto | right; right; left; eauto].
  - destruct (code c =? 34); [right; right; left; eauto|].
    destruct (code c =? 92); [auto|].
    destruct (_ || _); [right; right; right; left; eauto|].
    destruct (_ || _); [|right; right; right; left; eauto].
    destruct d; [auto | right; right; right; left; eauto].
  - destruct (code c =? 34).
    { do 5 right. exists (S d), 0. split; [lia | auto]. }
    destruct (code c =? 92); [auto|].
    destruct (_ || _); [right; right; left; eauto|].
    destruct (_ || _); [auto | right; right; left; eauto].
  - destruct (code c =? 34).
    { do 5 right. exists d, d'. auto. }
    destruct (code c =? 92); [auto|].
    destruct (_ || _).
    { do 5 right. exists (S d), (S d'). split; [lia | auto]. }
    destruct (_ || _).
    + destruct d' as [|d']; [auto|]. destruct d as [|d]; [lia|].
      do 5 right. exists d, d'. split; [lia | auto].
    + do 5 right. exists d, d'. auto.
  - destruct (code c =? 34).
    { do 5 right. exists d, d'. auto. }
    destruct (code c =? 92); do 5 right; exists d, d'; auto.
  - do 5 right. exists d, d'. auto.
Qed.

Lemma out_of_step_run whole fresh s :
  out_of_step whole fresh -> out_of_step (lex_run whole s) (lex_run fresh s).
Proof.
  revert whole fresh. induction s as [|c s IH]; intros whole fresh H; [exact H|].
  apply IH, out_of_step_step, H.
Qed.

Lemma out_of_step_end fresh : out_of_step (LexOut 0) fresh -> fresh <> LexOut 0.
Proof.
  intros [-> | [H | [(d & d' & H & _) | [(d & d' & _ & ->)
    | [(d & H & _) | (d & d' & Hlt & [[H ->] | [[H _] | [H _]]])]]]]];
    try discriminate.
  inversion H; subst. lia.
Qed.

Lemma out_of_step_start q : inside q = true -> out_of_step q (LexOut 0).
Proof.
  unfold out_of_step. destruct q as [[|d]|[|d]|[|d]|]; try discriminate; intros _.
  - do 5 right. exists (S d), 0. split; [lia | auto].
  - right; right; left. eauto.
  - right; right; right; right; left. eauto.
Qed.

(** Cut strictly inside, a nested text leaves two pieces neither of
    which scans from depth 0 back to depth 0. *)
Lemma nested_fragments f1 f2 :
  nested (f1 +:+ f2) = true ->
  f1 <> EmptyString -> f2 <> EmptyString ->
  lex_run (LexOut 0) f1 <> LexOut 0 /\ lex_run (LexOut 0) f2 <> LexOut 0.
Proof.
  intros Hn H1 H2.
  pose proof (nested_from_inside _ _ _ H1 H2 Hn) as Hin.
  pose proof (nested_from_run _ _ Hn) as Hrun. rewrite lex_run_app in Hrun.
  split.
  - intros E. rewrite E in Hin. discriminate.
  - pose proof (out_of_step_run _ _ f2 (out_of_step_start _ Hin)) as Hs.
    rewrite Hrun in Hs. exact (out_of_step_end _ Hs).
Qed.

Lemma balanced_fragments JSON_parse f1 f2 :
  balanced_parser JSON_parse ->
  nested (f1 +:+ f2) = true ->
  f1 <> EmptyString -> f2 <> EmptyString ->
  JSON_parse f1 = None /\ JSON_parse f2 = None.
Proof.
  intros Hb Hn H1 H2.
  destruct (nested_fragments f1 f2 Hn H1 H2) as [N1 N2].
  split.
  - destruct (JSON_parse f1) as [v|] eqn:E; [|reflexivity].
    exfalso. apply N1, (Hb _ _ E).
  - destruct (JSON_parse f2) as [v|] eqn:E; [|reflexivity].
    exfalso. apply N2, (Hb _ _ E).
Qed.

(** *** The reference parser accepts only texts that scan *)

Lemma skip_ws_lex s d :
  lex_run (LexOut d) s = lex_run (LexOut d) (skip_ws s).
Proof.
  induction s as [|c s IH]; [reflexivity|].
  cbn [skip_ws]. destruct (is_json_ws c) eqn:E; [|reflexivity].
  cbn [lex_run]. rewrite lex_step_plain; [exact IH| | | | | |];
    unfold is_json_ws in E;
    repeat (apply orb_true_iff in E as [E | E]);
    apply Nat.eqb_eq in E; lia.
Qed.

Lemma parse_chars_lex n : forall s body rest d,
  String.length s <= n ->
  parse_chars s = Some (body, rest) ->
  lex_run (LexIn d) s = lex_run (LexOut d) rest.
Proof.
  induction n as [|n IH]; intros s body rest d Hlen.
  - destruct s; [discriminate | simpl in Hlen; lia].
  - destruct s as [|c s]; [discriminate|].
    cbn [parse_chars lex_run lex_step String.length] in *.
    destruct (code c =? 34) eqn:Equote.
    + intros H. inversion H; subst. reflexivity.
    + destruct (code c =? 92) eqn:Eback.
      * destruct s as [|e s]; [discriminate|].
        destruct (unescape e); [|discriminate].
        destruct (parse_chars s) as [[body' rest']|] eqn:E; [|discriminate].
        intros H. inversion H; subst.
        cbn [lex_run lex_step]. apply (IH s body' rest d); [|exact E].
        cbn [String.length] in Hlen. lia.
      * destruct (code c <? 32); [discriminate|].
        destruct (parse_chars s) as [[body' rest']|] eqn:E; [|discriminate].
        intros H. inversion H; subst.
        apply (IH s body' rest d); [lia | exact E].
Qed.

Lemma is_digit_plain c d : is_digit c = true -> lex_step (LexOut d) c = LexOut d.
Proof.
  unfold is_digit. intros H. apply andb_true_iff in H as [H1 H2].
  apply Nat.leb_le in H1, H2. apply lex_step_plain; lia.
Qed.

Lemma parse_digits_lex s : forall acc n rest d,
  parse_digits acc s = (n, rest) ->
  lex_run (LexOut d) s = lex_run (LexOut d) rest.
Proof.
  induction s as [|c s IH]; intros acc n rest d; cbn [parse_digits].
  - intros H. inversion H. reflexivity.
  - destruct (is_digit c) eqn:E.
    + intros H. cbn [lex_run]. rewrite (is_digit_plain c d E). exact (IH _ _ _ d H).
    + intros H. inversion H. reflexivity.
Qed.

Lemma parse_unsigned_lex neg s n rest d :
  parse_unsigned neg s = Some (n, rest) ->
  lex_run (LexOut d) s = lex_run (LexOut d) rest.
Proof.
  unfold parse_unsigned. destruct s as [|c s']; [discriminate|].
  destruct (is_digit c) eqn:Ed; [|discriminate]. cbn [negb].
  destruct (code c =? 48).
  - cbn [lex_run]. rewrite (is_digit_plain c d Ed).
    destruct s' as [|c' s''].
    + intros H. inversion H. reflexivity.
    + destruct (_ || _); [discriminate|]. intros H. inversion H. reflexivity.
  - destruct (parse_digits 0 (String c s')) as [n' rest'] eqn:E.
    rewrite (parse_digits_lex _ _ _ _ d E).
    destruct rest' as [|c' s''].
    + intros H. inversion H. reflexivity.
    + destruct (_ || _); [discriminate|]. intros H. inversion H. reflexivity.
Qed.

Lemma parse_int_lex s n rest d :
  parse_int s = Some (n, rest) ->
  lex_run (LexOut d) s = lex_run (LexOut d) rest.
Proof.
  unfold parse_int. destruct s as [|c s']; [discriminate|].
  destruct (code c =? 45) eqn:E.
  - intros H. cbn [lex_run]. rewrite lex_step_plain;
      [exact (parse_unsigned_lex _ _ _ _ d H)| | | | | |];
      apply Nat.eqb_eq in E; lia.
  - apply parse_unsigned_lex.
Qed.

Lemma strip_prefix_app p s rest : strip_prefix p s = Some rest -> s = p +:+ rest.
Proof.
  revert s. induction p as [|a p IH]; intros s; cbn [strip_prefix].
  - intros H. inversion H. reflexivity.
  - destruct s as [|b s]; [discriminate|].
    destruct (Ascii.eqb a b) eqn:E; [|discriminate].
    apply Ascii.eqb_eq in E. subst b. intros H.
    change (String a s = String a (p +:+ rest)). f_equal. exact (IH s H).
Qed.

Lemma expect_lex lit v s v' rest d :
  lex_run (LexOut d) lit = LexOut d ->
  expect lit v s = Some (v', rest) ->
  lex_run (LexOut d) s = lex_run (LexOut d) rest.
Proof.
  intros Hlit. unfold expect.
  destruct (strip_prefix lit s) as [r|] eqn:E; [|discriminate].
  intros H. inversion H; subst.
  rewrite (strip_prefix_app _ _ _ E), lex_run_app, Hlit. reflexivity.
Qed.

Lemma parse_lex fuel :
  (forall s v rest d,
      parse_value fuel s = Some (v, rest) ->
      lex_run (LexOut d) s = lex_run (LexOut d) rest)
  /\ (forall s acc v rest d,
         parse_elements fuel s acc = Some (v, rest) ->
         lex_run (LexOut (S d)) s = lex_run (LexOut d) rest)
  /\ (forall s acc v rest d,
         parse_members fuel s acc = Some (v, rest) ->
         lex_run (LexOut (S d)) s = lex_run (LexOut d) rest).
Proof.
  induction fuel as [|fuel (IHv & IHe & IHm)].
  - repeat split; intros; discriminate.
  - split; [|split].
    + intros s v rest d. cbn [parse_value]. rewrite (skip_ws_lex s d).
      destruct (skip_ws s) as [|c s']; [discriminate|].
      destruct (code c =? 123) eqn:Ebrace.
      { cbn [lex_run lex_step].
        assert (Eq : (code c =? 34) = false)
          by (apply Nat.eqb_eq in Ebrace; apply Nat.eqb_neq; lia).
        assert (Eb : (code c =? 92) = false)
          by (apply Nat.eqb_eq in Ebrace; apply Nat.eqb_neq; lia).
        rewrite Eq, Eb, Ebrace. cbn [orb].
        rewrite (skip_ws_lex s' (S d)).
        destruct (skip_ws s') as [|c2 s2]; [discriminate|].
        destruct (code c2 =? 125) eqn:Eclose.
        - intros H. inversion H; subst. cbn [lex_run lex_step].
          apply Nat.eqb_eq in Eclose.
          replace (code c2 =? 34) with false by (symmetry; apply Nat.eqb_neq; lia).
          replace (code c2 =? 92) with false by (symmetry; apply Nat.eqb_neq; lia).
          replace (code c2 =? 123) with false by (symmetry; apply Nat.eqb_neq; lia).
          replace (code c2 =? 91) with false by (symmetry; apply Nat.eqb_neq; lia).
          replace (code c2 =? 125) with true by (symmetry; apply Nat.eqb_eq; lia).
          reflexivity.
        - intros H. exact (IHm _ _ _ _ d H). }
      destruct (code c =? 91) eqn:Ebracket.
      { cbn [lex_run lex_step].
        assert (Eq : (code c =? 34) = false)
          by (apply Nat.eqb_eq in Ebracket; apply Nat.eqb_neq; lia).
        assert (Eb : (code c =? 92) = false)
          by (apply Nat.eqb_eq in Ebracket; apply Nat.eqb_neq; lia).
        rewrite Eq, Eb, Ebrace, Ebracket. cbn [orb].
        rewrite (skip_ws_lex s' (S d)).
        destruct (skip_ws s') as [|c2 s2]; [discriminate|].
        destruct (code c2 =? 93) eqn:Eclose.
        - intros H. inversion H; subst. cbn [lex_run lex_step].
          apply Nat.eqb_eq in Eclose.
          replace (code c2 =? 34) with false by (symmetry; apply Nat.eqb_neq; lia).
          replace (code c2 =? 92) with false by (symmetry; apply Nat.eqb_neq; lia).
          replace (code c2 =? 123) with false by (symmetry; apply Nat.eqb_neq; lia).
          replace (code c2 =? 91) with false by (symmetry; apply Nat.eqb_neq; lia).
          replace (code c2 =? 125) with false by (symmetry; apply Nat.eqb_neq; lia).
          replace (code c2 =? 93) with true by (symmetry; apply Nat.eqb_eq; lia).
          reflexivity.
        - intros H. exact (IHe _ _ _ _ d H). }
      destruct (code c =? 34) eqn:Equote.
      { destruct (parse_chars s') as [[body r]|] eqn:E; [|discriminate].
        intros H. inversion H; subst.
        cbn [lex_run lex_step]. rewrite Equote.
        exact (parse_chars_lex _ _ _ _ d (le_n _) E). }
      destruct (code c =? 116).
      { intros H. exact (expect_lex "true" _ _ _ _ d eq_refl H). }
      destruct (code c =? 102).
      { intros H. exact (expect_lex "false" _ _ _ _ d eq_refl H). }
      destruct (code c =? 110).
      { intros H. exact (expect_lex "null" _ _ _ _ d eq_refl H). }
      destruct (parse_int (String c s')) as [[n r]|] eqn:E; [|discriminate].
      intros H. inversion H; subst. exact (parse_int_lex _ _ _ d E).
    + intros s acc v rest d. cbn [parse_elements].
      destruct (parse_value fuel s) as [[x r]|] eqn:E; [|discriminate].
      rewrite (IHv _ _ _ (S d) E), (skip_ws_lex r (S d)).
      destruct (skip_ws r) as [|c r']; [discriminate|].
      destruct (code c =? 44) eqn:Ecomma.
      { intros H. cbn [lex_run]. rewrite lex_step_plain;
          [exact (IHe _ _ _ _ d H)| | | | | |];
          apply Nat.eqb_eq in Ecomma; lia. }
      destruct (code c =? 93) eqn:Eclose; [|discriminate].
      intros H. inversion H; subst. cbn [lex_run lex_step].
      apply Nat.eqb_eq in Eclose.
      replace (code c =? 34) with false by (symmetry; apply Nat.eqb_neq; lia).
      replace (code c =? 92) with false by (symmetry; apply Nat.eqb_neq; lia).
      replace (code c =? 123) with false by (symmetry; apply Nat.eqb_neq; lia).
      replace (code c =? 91) with false by (symmetry; apply Nat.eqb_neq; lia).
      replace (code c =? 125) with false by (symmetry; apply Nat.eqb_neq; lia).
      replace (code c =? 93) with true by (symmetry; apply Nat.eqb_eq; lia).
      reflexivity.
    + intros s acc v rest d. cbn [parse_members]. rewrite (skip_ws_lex s (S d)).
      destruct (skip_ws s) as [|q s1]; [discriminate|].
      destruct (code q =? 34) eqn:Equote; [|discriminate]. cbn [negb].
      destruct (parse_chars s1) as [[key s2]|] eqn:Ekey; [|discriminate].
      cbn [lex_run lex_step]. rewrite Equote.
      rewrite (parse_chars_lex _ _ _ _ (S d) (le_n _) Ekey), (skip_ws_lex s2 (S d)).
      destruct (skip_ws s2) as [|colon s3]; [discriminate|].
      destruct (code colon =? 58) eqn:Ecolon; [|discriminate]. cbn [negb].
      destruct (parse_value fuel s3) as [[x r]|] eqn:E; [|discriminate].
      cbn [lex_run]. rewrite lex_step_plain;
        [| apply Nat.eqb_eq in Ecolon; lia ..].
      rewrite (IHv _ _ _ (S d) E), (skip_ws_lex r (S d)).
      destruct (skip_ws r) as [|c r']; [discriminate|].
      destruct (code c =? 44) eqn:Ecomma.
      { intros H. cbn [lex_run]. rewrite lex_step_plain;
          [exact (IHm _ _ _ _ d H)| | | | | |];
          apply Nat.eqb_eq in Ecomma; lia. }
      destruct (code c =? 125) eqn:Eclose; [|discriminate].
      intros H. inversion H; subst. cbn [lex_run lex_step].
      apply Nat.eqb_eq in Eclose.
      replace (code c =? 34) with false by (symmetry; apply Nat.eqb_neq; lia).
      replace (code c =? 92) with false by (symmetry; apply Nat.eqb_neq; lia).
      replace (code c =? 123) with false by (symmetry; apply Nat.eqb_neq; lia).
      replace (code c =? 91) with false by (symmetry; apply Nat.eqb_neq; lia).
      replace (code c =? 125) with true by (symmetry; apply Nat.eqb_eq; lia).
      reflexivity.
Qed.

Lemma JSON_parse_ref_balanced : balanced_parser JSON_parse_ref.
Proof.
  intros s v. unfold JSON_parse_ref.
  destruct (parse_value _ s) as [[x rest]|] eqn:E; [|discriminate].
  destruct (skip_ws rest) eqn:Ews; [|discriminate].
  intros _.
  rewrite (proj1 (parse_lex _) _ _ _ 0 E), (skip_ws_lex rest 0), Ews.
  reflexivity.
Qed.

(** *** The serialization of an object is a nested text *)

Lemma all_inside_app q a b :
  all_inside q (a +:+ b) = all_inside q a && all_inside (lex_run q a) b.
Proof.
  revert q. induction a as [|c a IH]; intros q; [reflexivity|].
  change (String c a +:+ b) with (String c (a +:+ b)).
  cbn [all_inside lex_run]. rewrite IH, andb_assoc. reflexivity.
Qed.

Lemma nested_from_app q a b :
  b <> EmptyString ->
  nested_from q (a +:+ b) = all_inside q a && nested_from (lex_run q a) b.
Proof.
  intros Hb. revert q. induction a as [|c a IH]; intros q; [reflexivity|].
  change (String c a +:+ b) with (String c (a +:+ b)).
  cbn [nested_from all_inside lex_run].
  specialize (IH (lex_step q c)).
  destruct (a +:+ b) as [|c' r] eqn:E.
  - destruct a; [|discriminate]. change (b = EmptyString) in E. congruence.
  - rewrite IH, andb_assoc. reflexivity.
Qed.

Lemma scans_inside_app a b : scans_inside a -> scans_inside b -> scans_inside (a +:+ b).
Proof.
  intros Ha Hb d. destruct (Ha d) as [Ha1 Ha2]. destruct (Hb d) as [Hb1 Hb2].
  rewrite all_inside_app, lex_run_app, Ha1, Ha2, Hb1, Hb2. auto.
Qed.

Lemma scans_inside_nil : scans_inside EmptyString.
Proof. intros d. auto. Qed.

Lemma scans_inside_plain c :
  code c <> 34 -> code c <> 92 -> code c <> 123 -> code c <> 91 ->
  code c <> 125 -> code c <> 93 ->
  scans_inside (String c EmptyString).
Proof.
  intros. intros d. cbn [all_inside lex_run]. rewrite lex_step_plain by assumption.
  auto.
Qed.

Lemma escape_chars_scan s d :
  all_inside (LexIn (S d)) (escape_chars s) = true
  /\ lex_run (LexIn (S d)) (escape_chars s) = LexIn (S d).
Proof.
  induction s as [|c s [IH1 IH2]]; [auto|].
  cbn [escape_chars].
  rewrite all_inside_app, lex_run_app.
  assert (H : all_inside (LexIn (S d))
                (if code c =? 34 then backslash +:+ dquote
                 else if code c =? 92 then backslash +:+ backslash
                 else if code c =? 8 then backslash +:+ "b"
                 else if code c =? 12 then backslash +:+ "f"
                 else if code c =? 10 then backslash +:+ "n"
                 else if code c =? 13 then backslash +:+ "r"
                 else if code c =? 9 then backslash +:+ "t"
                 else String c EmptyString) = true
              /\ lex_run (LexIn (S d))
                   (if code c =? 34 then backslash +:+ dquote
                    else if code c =? 92 then backslash +:+ backslash
                    else if code c =? 8 then backslash +:+ "b"
                    else if code c =? 12 then backslash +:+ "f"
                    else if code c =? 10 then backslash +:+ "n"
                    else if code c =? 13 then backslash +:+ "r"
                    else if code c =? 9 then backslash +:+ "t"
                    else String c EmptyString) = LexIn (S d)).
  { destruct (code c =? 34) eqn:E1; [auto|].
    destruct (code c =? 92) eqn:E2; [auto|].
    destruct (code c =? 8); [auto|].
    destruct (code c =? 12); [auto|].
    destruct (code c =? 10); [auto|].
    destruct (code c =? 13); [auto|].
    destruct (code c =? 9); [auto|].
    cbn [all_inside lex_run lex_step]. rewrite E1, E2. auto. }
  destruct H as [H1 H2]. rewrite H1, H2, IH1, IH2. auto.
Qed.

Lemma quote_scan s : scans_inside (quote s).
Proof.
  intros d. unfold quote.
  rewrite !all_inside_app, !lex_run_app.
  change (lex_run (LexOut (S d)) dquote) with (LexIn (S d)).
  change (all_inside (LexOut (S d)) dquote) with true.
  destruct (escape_chars_scan s d) as [H1 H2]. rewrite H1, H2. auto.
Qed.

Lemma digits_scan u : scans_inside (NilEmpty.string_of_uint u).
Proof.
  induction u; cbn [NilEmpty.string_of_uint];
    try apply scans_inside_nil;
    match goal with
    | |- scans_inside (String ?c ?r) =>
        change (String c r) with (String c EmptyString +:+ r);
        apply scans_inside_app; [apply scans_inside_plain; vm_compute; lia | assumption]
    end.
Qed.

Lemma Number_toString_scan n : scans_inside (Number_toString n).
Proof.
  unfold Number_toString, NilZero.string_of_uint.
  destruct (N.to_uint n); try apply digits_scan.
  apply scans_inside_plain; vm_compute; lia.
Qed.

Lemma Z_toString_scan n : scans_inside (Z_toString n).
Proof.
  unfold Z_toString. destruct (n <? 0)%Z.
  - apply scans_inside_app; [|apply Number_toString_scan].
    apply scans_inside_plain; vm_compute; lia.
  - apply Number_toString_scan.
Qed.

Lemma join_scan sep l :
  scans_inside sep -> Forall scans_inside l -> scans_inside (join sep l).
Proof.
  intros Hsep Hl. induction Hl as [|x l Hx Hl IH]; [apply scans_inside_nil|].
  cbn [join]. destruct l as [|y l]; [exact Hx|].
  apply scans_inside_app; [exact Hx|].
  apply scans_inside_app; [exact Hsep | exact IH].
Qed.

Lemma comma_scan : scans_inside ",".
Proof. apply scans_inside_plain; vm_compute; lia. Qed.

(** A bracketed text, scanned one level down. *)
Lemma bracket_scan (open close : ascii) e :
  code open = 123 \/ code open = 91 ->
  code close = 125 \/ code close = 93 ->
  scans_inside e ->
  scans_inside (String open EmptyString +:+ e +:+ String close EmptyString).
Proof.
  intros Ho Hc He d. destruct (He (S d)) as [H1 H2].
  rewrite !all_inside_app, !lex_run_app.
  assert (Eo : lex_step (LexOut (S d)) open = LexOut (S (S d))).
  { unfold lex_step.
    replace (code open =? 34) with false by (symmetry; apply Nat.eqb_neq; lia).
    replace (code open =? 92) with false by (symmetry; apply Nat.eqb_neq; lia).
    destruct Ho as [-> | ->]; reflexivity. }
  assert (Ec : lex_step (LexOut (S (S d))) close = LexOut (S d)).
  { unfold lex_step.
    replace (code close =? 34) with false by (symmetry; apply Nat.eqb_neq; lia).
    replace (code close =? 92) with false by (symmetry; apply Nat.eqb_neq; lia).
    replace (code close =? 123) with false by (symmetry; apply Nat.eqb_neq; lia).
    replace (code close =? 91) with false by (symmetry; apply Nat.eqb_neq; lia).
    destruct Hc as [-> | ->]; reflexivity. }
  cbn [all_inside lex_run]. rewrite Eo, H1, H2. cbn [all_inside lex_run].
  rewrite Ec. auto.
Qed.

Lemma JSON_stringify_ref_scan : forall v, scans_inside (JSON_stringify_ref v).
Proof.
  fix IH 1. intros [ | [|] | n | s | items | props]; cbn [JSON_stringify_ref].
  - intros d. auto.
  - intros d. auto.
  - intros d. auto.
  - apply Z_toString_scan.
  - apply quote_scan.
  - apply (bracket_scan "[" "]"); [right; reflexivity | right; reflexivity|].
    apply join_scan; [apply comma_scan|].
    induction items as [|x items IHitems]; constructor; [apply IH | exact IHitems].
  - apply (bracket_scan "{" "}"); [left; reflexivity | left; reflexivity|].
    apply join_scan; [apply comma_scan|].
    induction props as [|[k x] props IHprops]; constructor; [|exact IHprops].
    cbn [fst snd].
    apply scans_inside_app; [apply quote_scan|].
    apply scans_inside_app; [apply scans_inside_plain; vm_compute; lia | apply IH].
Qed.

(** The serialization of an object is a nested text. *)
Lemma object_text_nested props : nested (JSON_stringify_ref (JObj props)) = true.
Proof.
  cbn [JSON_stringify_ref]. unfold nested.
  set (members := join "," _).
  assert (Hm : scans_inside members).
  { subst members. apply join_scan; [apply comma_scan|].
    induction props as [|[k x] props IHprops]; constructor; [|exact IHprops].
    cbn [fst snd].
    apply scans_inside_app; [apply quote_scan|].
    apply scans_inside_app; [apply scans_inside_plain; vm_compute; lia|].
    apply JSON_stringify_ref_scan. }
  destruct (Hm 0) as [H1 H2].
  change ("{" +:+ members +:+ "}") with (String "{" (members +:+ "}")).
  cbn [nested_from].
  destruct (members +:+ "}") as [|c r] eqn:E.
  - destruct members; discriminate.
  - rewrite <- E. change (lex_step (LexOut 0) "{") with (LexOut 1).
    rewrite nested_from_app by discriminate. rewrite H1, H2. reflexivity.
Qed.

(** C10. The delegate keeps no partial line from one chunk for the next.
    Let [f1] be the text after the last newline of a chunk and [f2] the
    text before the first newline of the chunk that follows, both
    non-empty, so that the peer's line [f1 ++ f2], a nested text as the
    serialization of every stream event is ([object_text_nested]), is
    cut strictly inside.  Then neither fragment parses ([JSON.parse]
    accepting only texts whose string literals are closed and whose
    brackets balance), both are skipped, and the run yields the same
    events and issues the same reads as when the two chunks bring only
    their other lines: the event of the split line is not yielded. *)
Theorem delegate_split_line_lost JSON_parse agent message requestId
    (ctrls : gmap string AbortController) sessionId claudeAuth
    before c1 c2 c1' c2' rest ls1 f1 f2 ls2 :
  balanced_parser JSON_parse ->
  nested (f1 +:+ f2) = true ->
  f1 <> EmptyString -> f2 <> EmptyString ->
  split_lines c1 = ls1 ++ [f1] ->
  split_lines c2 = f2 :: ls2 ->
  chunk_lines c1' = List.filter (fun line => truthy (trim line)) ls1 ->
  chunk_lines c2' = List.filter (fun line => truthy (trim line)) ls2 ->
  let run := fun rs =>
    executeAgentHttpRequest JSON_parse (peer (ok_response rs)) agent message
      requestId ctrls sessionId claudeAuth in
  JSON_parse f1 = None
  /\ JSON_parse f2 = None
  /\ http_events (run (before ++ ReadChunk c1 :: ReadChunk c2 :: rest))
     = http_events (run (before ++ ReadChunk c1' :: ReadChunk c2' :: rest))
  /\ http_reads (run (before ++ ReadChunk c1 :: ReadChunk c2 :: rest))
     = http_reads (run (before ++ ReadChunk c1' :: ReadChunk c2' :: rest)).
Proof.
  intros Hb Hn Hf1 Hf2 H1 H2 H1' H2' run.
  destruct (balanced_fragments JSON_parse f1 f2 Hb Hn Hf1 Hf2) as [N1 N2].
  split; [exact N1|]. split; [exact N2|].
  exact (fragments_skipped JSON_parse agent message requestId ctrls sessionId
           claudeAuth before c1 c2 c1' c2' rest ls1 f1 f2 ls2
           H1 H2 N1 N2 H1' H2').
Qed.

Lemma delegate_split_line_lost_witness :
  let run := fun rs =>
    executeAgentHttpRequest JSON_parse_ref (peer (ok_response rs)) db_agent
      "@db-agent do X" "r1" ∅ None None in
  let hello := ev_claude_json (JStr "hello") in
  let lost := ev_claude_json (JStr "lost") in
  let line := JSON_stringify_ref lost in
  let f1 := String.substring 0 20 line in
  let f2 := String.substring 20 (String.length line - 20) line in
  f1 +:+ f2 = line
  /\ JSON_parse_ref line = Some lost
  /\ JSON_parse_ref f1 = None
  /\ JSON_parse_ref f2 = None
  /\ http_events
       (run [ReadChunk (wire_line hello +:+ f1);
             ReadChunk (f2 +:+ newline +:+ wire_line ev_done)])
     = [hello; ev_done].
Proof.
  intros run hello lost line f1 f2.
  split; [reflexivity|]. split; [reflexivity|].
  destruct (delegate_split_line_lost JSON_parse_ref db_agent "@db-agent do X"
              "r1" ∅ None None [] (wire_line hello +:+ f1)
              (f2 +:+ newline +:+ wire_line ev_done)
              (wire_line hello) (wire_line ev_done) []
              [JSON_stringify_ref hello] f1 f2
              [JSON_stringify_ref ev_done; EmptyString])
    as (N1 & N2 & He & _);
    [exact JSON_parse_ref_balanced | reflexivity | discriminate | discriminate
    | reflexivity | reflexivity | reflexivity | reflexivity |].
  split; [exact N1|]. split; [exact N2|].
  subst run. etransitivity; [exact He|]. vm_compute. reflexivity.
Defined.

(** ** Orchestrator planner: accumulation of a tool-call block *)

Lemma append_assoc (a b c : string) : (a +:+ b) +:+ c = a +:+ (b +:+ c).
Proof.
  induction a as [|x a IH]; [reflexivity|].
  change (String x ((a +:+ b) +:+ c) = String x (a +:+ (b +:+ c))).
  f_equal. exact IH.
Qed.

Lemma append_nil_r (a : string) : a +:+ EmptyString = a.
Proof.
  induction a as [|x a IH]; [reflexivity|].
  change (String x (a +:+ EmptyString) = String x a).
  f_equal. exact IH.
Qed.

Lemma get_prop_set_prop_eq k v o : get_prop k (set_prop k v o) = Some v.
Proof.
  induction o as [|[k' v'] o IH]; simpl.
  - rewrite String.eqb_refl. reflexivity.
  - destruct (String.eqb k k') eqn:E; simpl.
    + rewrite String.eqb_refl. reflexivity.
    + rewrite E. exact IH.
Qed.

Lemma get_prop_set_prop_ne k k' v o :
  k <> k' -> get_prop k' (set_prop k v o) = get_prop k' o.
Proof.
  intros Hne. induction o as [|[k0 v0] o IH]; simpl.
  - apply String.eqb_neq in Hne. rewrite String.eqb_sym, Hne. reflexivity.
  - destruct (String.eqb k k0) eqn:E; simpl.
    + apply String.eqb_eq in E. subst k0.
      apply String.eqb_neq in Hne. rewrite String.eqb_sym, Hne. reflexivity.
    + rewrite IH. reflexivity.
Qed.

Lemma set_prop_set_prop k v v' o :
  set_prop k v' (set_prop k v o) = set_prop k v' o.
Proof.
  induction o as [|[k0 v0] o IH]; simpl.
  - rewrite String.eqb_refl. reflexivity.
  - destruct (String.eqb k k0) eqn:E; simpl.
    + rewrite String.eqb_refl. reflexivity.
    + rewrite E, IH. reflexivity.
Qed.

Lemma update_last_snoc {A : Type} (f : A -> A) (l : list A) (x : A) :
  update_last f (l ++ [x]) = l ++ [f x].
Proof.
  induction l as [|y l IH]; [reflexivity|].
  simpl. rewrite IH. destruct (l ++ [x]) eqn:E; [|reflexivity].
  destruct l; discriminate.
Qed.

Section Accumulation.

Variable JSON_parse : string -> option Json.
Variables (sessionId : option string) (clock : nat -> Z).

Local Abbreviation forChunks := (forChunks JSON_parse sessionId clock).

Lemma type_of_accumulating block v :
  get_prop "type" (set_prop "input" v block) = get_prop "type" block.
Proof. apply get_prop_set_prop_ne. discriminate. Qed.

Lemma add_partial_json_accumulating block input d :
  is_tag (get_prop "type" block) "tool_use" = true ->
  add_partial_json d (accumulating block input)
  = accumulating block (input +:+ d).
Proof.
  intros Hty. unfold add_partial_json, accumulating.
  rewrite type_of_accumulating, Hty, get_prop_set_prop_eq.
  apply set_prop_set_prop.
Qed.

Lemma forChunks_deltas k cm content block input ds rest :
  is_tag (get_prop "type" block) "tool_use" = true ->
  forChunks k (cm, content ++ [accumulating block input]) (json_deltas ds ++ rest)
  = forChunks (k + length ds)
      (cm, content ++ [accumulating block (input +:+ concat_deltas ds)]) rest.
Proof.
  intros Hty. revert k input.
  induction ds as [|d ds IH]; intros k input; simpl.
  - rewrite append_nil_r, Nat.add_0_r. reflexivity.
  - rewrite update_last_snoc, (add_partial_json_accumulating _ _ _ Hty).
    rewrite IH, append_assoc. replace (S k + length ds) with (k + S (length ds)) by lia.
    destruct (forChunks _ _ rest) as [[st evs] c]. reflexivity.
Qed.

Lemma close_block_accumulating block input :
  is_tag (get_prop "type" block) "tool_use" = true ->
  close_block JSON_parse (accumulating block input)
  = if truthy (trim input) then
      match JSON_parse input with
      | Some v => set_prop "input" v block
      | None => accumulating block input
      end
    else accumulating block input.
Proof.
  intros Hty. unfold close_block, accumulating.
  rewrite type_of_accumulating, Hty, get_prop_set_prop_eq.
  destruct (truthy (trim input)); [|reflexivity].
  destruct (JSON_parse input); [|reflexivity].
  apply set_prop_set_prop.
Qed.

Lemma forChunks_tool_block k cm content block ds rest :
  is_tag (get_prop "type" block) "tool_use" = true ->
  forChunks k (cm, content) (tool_block_chunks block ds ++ rest)
  = forChunks (k + length ds + 2)
      (cm, content
           ++ [close_block JSON_parse (accumulating block (concat_deltas ds))])
      rest.
Proof.
  intros Hty. unfold tool_block_chunks. simpl. rewrite Hty.
  rewrite <- app_assoc.
  fold (accumulating block EmptyString).
  rewrite (forChunks_deltas (S k) cm content block EmptyString ds _ Hty).
  simpl. rewrite update_last_snoc.
  change (EmptyString +:+ concat_deltas ds) with (concat_deltas ds).
  replace (S (S (k + length ds))) with (k + length ds + 2) by lia.
  destruct (forChunks _ _ rest) as [[st evs] c]. reflexivity.
Qed.

(** C7. However the JSON payload of a tool-call block is cut into
    partial-JSON deltas (any list of strings whose concatenation is the
    payload, from one whole piece to single characters), the planner's
    accumulation ends, when the block closes, with the block's [input]
    equal to what [JSON.parse] makes of the payload: the original plan
    object whenever the payload is its serialization.  When the payload
    does not parse, the raw string is kept as the [input], the loop goes
    on with the chunks that follow, and the closing of the block yields
    no event, so no [error] event comes from it: a stream made of this
    block alone ends with the assistant message and [done]. *)
Theorem tool_input_roundtrip k cm content block ds payload rest
    env create message requestId (ctrls : gmap string AbortController)
    availableAgents id role model usage :
  is_tag (get_prop "type" block) "tool_use" = true ->
  concat_deltas ds = payload ->
  let after input :=
    forChunks (k + length ds + 2) (cm, content ++ [set_prop "input" input block])
      rest in
  let run := executeOrchestratorWorkflow JSON_parse env create clock message
               requestId ctrls sessionId availableAgents in
  let report input :=
    ev_assistant
      {| msg_id := id; msg_role := role; msg_model := model;
         msg_content := [JObj (set_prop "input" input block)];
         msg_stop_reason := JNull; msg_stop_sequence := JNull;
         msg_usage := usage |}
      sessionId (clock (length ds + 4)) in
  let whole_stream :=
    CreateResolves
      (LlmChunk (MessageStart id role model usage)
         :: tool_block_chunks block ds ++ [LlmChunk MessageStop]) in
  (forall plan,
      truthy (trim payload) = true ->
      JSON_parse payload = Some plan ->
      forChunks k (cm, content) (tool_block_chunks block ds ++ rest) = after plan
      /\ (falsy (or_else (env !! "ANTHROPIC_API_KEY") (env !! "CLAUDE_API_KEY"))
          = false ->
          (forall params, create params = whole_stream) ->
          orch_events run
          = [ev_system_init sessionId (clock 0); report plan; ev_done]))
  /\ (JSON_parse payload = None ->
      forChunks k (cm, content) (tool_block_chunks block ds ++ rest)
      = after (JStr payload)
      /\ (falsy (or_else (env !! "ANTHROPIC_API_KEY") (env !! "CLAUDE_API_KEY"))
          = false ->
          (forall params, create params = whole_stream) ->
          orch_events run
          = [ev_system_init sessionId (clock 0); report (JStr payload); ev_done]
          /\ no_event_of_type "error" (orch_events run))).
Proof.
  intros Hty Hpayload after run report whole_stream.
  assert (Hrun : forall input,
             close_block JSON_parse (accumulating block payload)
             = set_prop "input" input block ->
             falsy (or_else (env !! "ANTHROPIC_API_KEY") (env !! "CLAUDE_API_KEY"))
             = false ->
             (forall params, create params = whole_stream) ->
             orch_events run
             = [ev_system_init sessionId (clock 0); report input; ev_done]).
  { intros input Hclose Hkey Hcreate. subst run.
    unfold executeOrchestratorWorkflow. rewrite Hkey, Hcreate.
    unfold whole_stream.
    change (forChunks 1 (None, [])
              (LlmChunk (MessageStart id role model usage)
                 :: tool_block_chunks block ds ++ [LlmChunk MessageStop]))
      with (let '(st', out) :=
              onChunk JSON_parse sessionId (clock 1) (None, [])
                (MessageStart id role model usage) in
            let '(st'', evs, c) :=
              forChunks 2 st' (tool_block_chunks block ds ++ [LlmChunk MessageStop]) in
            (st'', out ++ evs, c)).
    cbn [onChunk].
    rewrite (forChunks_tool_block 2 _ [] block ds _ Hty).
    rewrite Hpayload, Hclose. simpl.
    replace (S (S (length ds + 2))) with (length ds + 4) by lia.
    reflexivity. }
  split.
  - intros plan Htrim Hparse.
    assert (Hclose : close_block JSON_parse (accumulating block payload)
                     = set_prop "input" plan block).
    { rewrite (close_block_accumulating _ _ Hty), Htrim, Hparse. reflexivity. }
    split.
    + rewrite (forChunks_tool_block k cm content block ds rest Hty).
      rewrite Hpayload, Hclose. reflexivity.
    + apply Hrun. exact Hclose.
  - intros Hparse.
    assert (Hclose : close_block JSON_parse (accumulating block payload)
                     = set_prop "input" (JStr payload) block).
    { rewrite (close_block_accumulating _ _ Hty), Hparse.
      destruct (truthy (trim payload)); reflexivity. }
    split.
    + rewrite (forChunks_tool_block k cm content block ds rest Hty).
      rewrite Hpayload, Hclose. reflexivity.
    + intros Hkey Hcreate. rewrite (Hrun _ Hclose Hkey Hcreate).
      split; [reflexivity|]. repeat constructor.
Qed.

End Accumulation.

Lemma tool_input_roundtrip_witness :
  let payload := JSON_stringify_ref sample_plan in
  let env : gmap string string := {[ "ANTHROPIC_API_KEY"%string := "sk-key"%string ]} in
  let clock := fun k => (1000 + Z.of_nat k)%Z in
  let stream := fun ds =>
    LlmChunk (MessageStart "msg_1" "assistant" "claude-sonnet-4-20250514" (JObj []))
      :: tool_block_chunks tool_use_block ds ++ [LlmChunk MessageStop] in
  let run := fun ds =>
    executeOrchestratorWorkflow JSON_parse_ref env
      (fun _ => CreateResolves (stream ds)) clock "@db-agent @web plan" "r1" ∅
      (Some "s1"%string) (Some [db_agent; web_agent]) in
  let report := fun input =>
    ev_assistant
      {| msg_id := "msg_1"; msg_role := "assistant";
         msg_model := "claude-sonnet-4-20250514";
         msg_content := [JObj (set_prop "input" input tool_use_block)];
         msg_stop_reason := JNull; msg_stop_sequence := JNull;
         msg_usage := JObj [] |} (Some "s1"%string) 0 in
  orch_events (run (characters payload))
  = [ev_system_init (Some "s1"%string) 0; report sample_plan; ev_done]
  /\ orch_events (run ["{"; "oops"]%string)
     = [ev_system_init (Some "s1"%string) 0; report (JStr "{oops"); ev_done].
Proof.
  intros payload env clock stream run report.
  split.
  - destruct (tool_input_roundtrip JSON_parse_ref (Some "s1"%string) clock 0 None
                [] tool_use_block (characters payload) payload [] env
                (fun _ => CreateResolves (stream (characters payload)))
                "@db-agent @web plan" "r1" ∅ (Some [db_agent; web_agent])
                "msg_1" "assistant" "claude-sonnet-4-20250514" (JObj []))
      as [Hok _]; [reflexivity | reflexivity |].
    destruct (Hok sample_plan) as [_ Hrun]; [reflexivity | reflexivity |].
    apply Hrun; [reflexivity | intros; reflexivity].
  - destruct (tool_input_roundtrip JSON_parse_ref (Some "s1"%string) clock 0 None
                [] tool_use_block ["{"; "oops"]%string "{oops" [] env
                (fun _ => CreateResolves (stream ["{"; "oops"]%string))
                "@db-agent @web plan" "r1" ∅ (Some [db_agent; web_agent])
                "msg_1" "assistant" "claude-sonnet-4-20250514" (JObj []))
      as [_ Hbad]; [reflexivity | reflexivity |].
    destruct Hbad as [_ Hrun]; [reflexivity|].
    apply Hrun; [reflexivity | intros; reflexivity].
Defined.

(** ** Local executor: the environment window *)

Lemma elem_of_set_key {V : Type} (k : string) (v : V) o k' v' :
  (k', v') ∈ set_key k v o -> (k' = k /\ v' = v) \/ (k', v') ∈ o.
Proof.
  induction o as [|[k0 v0] o IH]; simpl.
  - intros H. apply list_elem_of_singleton in H. inversion H. auto.
  - destruct (String.eqb k k0) eqn:E.
    + intros H. apply elem_of_cons in H as [H | H].
      * inversion H. auto.
      * right. apply elem_of_cons. auto.
    + intros H. apply elem_of_cons in H as [H | H].
      * right. rewrite H. apply elem_of_cons. auto.
      * destruct (IH H) as [? | ?]; [auto|]. right. apply elem_of_cons. auto.
Qed.

Lemma keys_set_key {V : Type} (k : string) (v : V) o k' :
  k' ∈ (set_key k v o).*1 <-> k' = k \/ k' ∈ o.*1.
Proof.
  induction o as [|[k0 v0] o IH]; simpl.
  - rewrite list_elem_of_singleton. split; [auto|]. intros [?|H]; [auto|inversion H].
  - destruct (String.eqb k k0) eqn:E; simpl.
    + apply String.eqb_eq in E. subst k0. rewrite !elem_of_cons. tauto.
    + rewrite !elem_of_cons, IH. tauto.
Qed.

Lemma set_key_lookup {V : Type} (k : string) (v : V) o :
  (k, v) ∈ set_key k v o.
Proof.
  induction o as [|[k0 v0] o IH]; simpl.
  - apply list_elem_of_singleton. reflexivity.
  - destruct (String.eqb k k0); apply elem_of_cons; auto.
Qed.

Lemma saved_from_set_key env0 k v o :
  saved_from env0 o -> v = env0 !! k -> saved_from env0 (set_key k v o).
Proof.
  intros Ho Hv k' v' Hin.
  apply elem_of_set_key in Hin as [[-> ->] | Hin]; [exact Hv | exact (Ho _ _ Hin)].
Qed.

Lemma agrees_outside_set_key o env env0 k v :
  agrees_outside o env env0 -> agrees_outside (set_key k v o) env env0.
Proof.
  intros H k' Hk'. apply H. intros Hin. apply Hk', keys_set_key. auto.
Qed.

Lemma agrees_outside_insert o (env env0 : gmap string string) k v :
  k ∈ o.*1 -> agrees_outside o env env0 -> agrees_outside o (<[k := v]> env) env0.
Proof.
  intros Hk H k' Hk'. rewrite lookup_insert_ne; [apply H, Hk'|].
  intros ->. exact (Hk' Hk).
Qed.

Lemma agrees_outside_delete o (env env0 : gmap string string) k :
  k ∈ o.*1 -> agrees_outside o env env0 -> agrees_outside o (delete k env) env0.
Proof.
  intros Hk H k' Hk'. rewrite lookup_delete_ne; [apply H, Hk'|].
  intros ->. exact (Hk' Hk).
Qed.

Lemma restore_env_cons k v o (env : gmap string string) :
  restore_env ((k, v) :: o) env = restore_env o (restore_key k v env).
Proof. reflexivity. Qed.

(** Replaying the saved values puts back, key by key, what [env0] had. *)
Lemma restore_env_lookup env0 o (env : gmap string string) k :
  saved_from env0 o ->
  restore_env o env !! k = if decide (k ∈ o.*1) then env0 !! k else env !! k.
Proof.
  revert env.
  induction o as [|[k0 v0] o IH]; intros env Hsaved.
  - reflexivity.
  - rewrite restore_env_cons, fmap_cons, IH.
    2: { intros k' v' Hin. apply Hsaved, elem_of_cons. auto. }
    assert (Hv0 : v0 = env0 !! k0) by (apply Hsaved, elem_of_cons; auto).
    cbn [fst].
    destruct (decide (k ∈ o.*1)) as [Hin | Hnin].
    + rewrite decide_True; [reflexivity | apply elem_of_cons; auto].
    + destruct (decide (k = k0)) as [-> | Hne].
      * rewrite decide_True by (apply elem_of_cons; auto).
        unfold restore_key. destruct v0 as [v|].
        -- rewrite lookup_insert_eq. exact Hv0.
        -- rewrite lookup_delete_eq. exact Hv0.
      * rewrite decide_False.
        2: { intros Hin. apply elem_of_cons in Hin as [? | ?]; contradiction. }
        unfold restore_key. destruct v0 as [v|].
        -- apply lookup_insert_ne. congruence.
        -- apply lookup_delete_ne. congruence.
Qed.

Lemma restore_env_id env0 o (env : gmap string string) :
  saved_from env0 o -> agrees_outside o env env0 -> restore_env o env = env0.
Proof.
  intros Hs Ha. apply map_eq. intros k.
  rewrite (restore_env_lookup env0 o env k Hs).
  destruct (decide (k ∈ o.*1)); [reflexivity | apply Ha; assumption].
Qed.

Lemma install_credentials_saved claudeAuth (env : gmap string string) :
  let '(o, env') := install_credentials claudeAuth env in
  saved_from env o /\ agrees_outside o env' env
  /\ (forall k, k ∈ o.*1 -> k ∈ credential_keys).
Proof.
  unfold install_credentials.
  destruct (match claudeAuth with
            | Some auth => if truthy (accessToken auth) then Some (accessToken auth) else None
            | None => None
            end) as [token|].
  - split; [|split].
    + intros k v Hin. simpl in Hin.
      repeat (apply elem_of_cons in Hin as [Hin | Hin]; [inversion Hin; reflexivity|]).
      inversion Hin.
    + intros k Hk. simpl in Hk.
      rewrite !not_elem_of_cons in Hk. destruct Hk as (H1 & H2 & H3 & _).
      rewrite lookup_delete_ne, lookup_delete_ne, lookup_insert_ne by congruence.
      reflexivity.
    + intros k Hk. exact Hk.
  - destruct (falsy _).
    + split; [|split].
      * intros k v Hin. inversion Hin.
      * intros k _. reflexivity.
      * intros k Hk. inversion Hk.
    + split; [|split].
      * intros k v Hin. simpl in Hin.
        repeat (apply elem_of_cons in Hin as [Hin | Hin]; [inversion Hin; reflexivity|]).
        inversion Hin.
      * intros k Hk. simpl in Hk.
        rewrite !not_elem_of_cons in Hk. destruct Hk as (H1 & H2 & _).
        rewrite lookup_insert_ne, lookup_insert_ne by congruence.
        reflexivity.
      * intros k Hk. simpl in Hk. unfold credential_keys.
        rewrite !elem_of_cons in Hk. rewrite !elem_of_cons. tauto.
Qed.

Lemma install_authEnv_cons k v authEnv o (env : gmap string string) :
  install_authEnv ((k, v) :: authEnv) (o, env)
  = install_authEnv authEnv (set_key k (env !! k) o, <[k := v]> env).
Proof. reflexivity. Qed.

Lemma install_authEnv_saved env0 authEnv o (env : gmap string string) :
  saved_from env0 o -> agrees_outside o env env0 ->
  NoDup authEnv.*1 ->
  (forall k, k ∈ authEnv.*1 -> k ∉ o.*1) ->
  saved_from env0 (install_authEnv authEnv (o, env)).1
  /\ agrees_outside (install_authEnv authEnv (o, env)).1
       (install_authEnv authEnv (o, env)).2 env0.
Proof.
  revert o env.
  induction authEnv as [|[k v] authEnv IH]; intros o env Hs Ha Hnd Hdisj.
  - split; assumption.
  - rewrite fmap_cons in Hnd, Hdisj. cbn [fst] in Hnd, Hdisj.
    apply NoDup_cons in Hnd as [Hk Hnd].
    assert (Hko : k ∉ o.*1) by (apply Hdisj, elem_of_cons; auto).
    rewrite install_authEnv_cons.
    apply IH.
    + apply saved_from_set_key; [exact Hs | apply Ha, Hko].
    + apply agrees_outside_insert; [apply keys_set_key; auto|].
      apply agrees_outside_set_key, Ha.
    + exact Hnd.
    + intros k' Hk' Hin. apply keys_set_key in Hin as [-> | Hin].
      * exact (Hk Hk').
      * apply (Hdisj k'); [apply elem_of_cons; auto | exact Hin].
Qed.

(** What the window holds for a name that [authEnv] does not set. *)
Lemma install_authEnv_other authEnv o (env : gmap string string) k :
  k ∉ authEnv.*1 ->
  (install_authEnv authEnv (o, env)).2 !! k = env !! k.
Proof.
  revert o env.
  induction authEnv as [|[k0 v0] authEnv IH]; intros o env Hk.
  - reflexivity.
  - rewrite fmap_cons in Hk. cbn [fst] in Hk.
    apply not_elem_of_cons in Hk as [Hne Hk].
    rewrite install_authEnv_cons, (IH _ _ Hk).
    apply lookup_insert_ne. congruence.
Qed.

(** What the window holds for a name that [authEnv] sets. *)
Lemma install_authEnv_set authEnv o (env : gmap string string) k v :
  NoDup authEnv.*1 ->
  (k, v) ∈ authEnv ->
  (install_authEnv authEnv (o, env)).2 !! k = Some v.
Proof.
  revert o env.
  induction authEnv as [|[k0 v0] authEnv IH]; intros o env Hnd Hin.
  - inversion Hin.
  - rewrite fmap_cons in Hnd. cbn [fst] in Hnd.
    apply NoDup_cons in Hnd as [Hk0 Hnd].
    rewrite install_authEnv_cons.
    apply elem_of_cons in Hin as [Heq | Hin].
    + inversion Heq; subst k0 v0.
      rewrite (install_authEnv_other _ _ _ _ Hk0). apply lookup_insert_eq.
    + apply IH; assumption.
Qed.

Lemma auth_setup_keys files now claudeAuth :
  NoDup (auth_setup files now claudeAuth).1.*1
  /\ (forall k, k ∈ (auth_setup files now claudeAuth).1.*1 -> k ∈ auth_keys).
Proof.
  unfold auth_setup, prepareClaudeAuthEnvironment.
  destruct (_ || _); simpl.
  - split; [constructor | intros k Hk; inversion Hk].
  - destruct (negb _); simpl.
    + split; [apply NoDup_singleton|].
      intros k Hk. apply list_elem_of_singleton in Hk. subst k.
      unfold auth_keys. rewrite !elem_of_cons. auto.
    + split.
      * apply (bool_decide_unpack _). vm_compute. reflexivity.
      * intros k Hk. exact Hk.
Qed.

Lemma auth_keys_not_credentials k :
  k ∈ auth_keys -> k ∉ credential_keys.
Proof.
  unfold auth_keys, credential_keys. intros H Hc.
  repeat (apply elem_of_cons in Hc as [Hc | Hc];
          [subst k;
           repeat (apply elem_of_cons in H as [H | H]; [discriminate H|]);
           inversion H|]).
  inversion Hc.
Qed.

Lemma local_run_env env files now query message requestId
    (ctrls : gmap string AbortController) claudePath sessionId allowedTools
    workingDirectory claudeAuth :
  let r := executeClaudeCommand env files now query message requestId ctrls
             claudePath sessionId allowedTools workingDirectory claudeAuth in
  let window :=
    install_authEnv (auth_setup files now claudeAuth).1
      (install_credentials claudeAuth env) in
  local_originalEnv r = window.1
  /\ local_env_during r = window.2
  /\ local_env r = restore_env window.1 window.2.
Proof.
  unfold executeClaudeCommand.
  destruct (auth_setup files now claudeAuth) as [authEnv args].
  destruct (install_authEnv authEnv (install_credentials claudeAuth env))
    as [o e] eqn:Ew.
  destruct (forSdk _) as [evs c].
  cbn [fst snd]. rewrite Ew. repeat split; reflexivity.
Qed.

Lemma window_saved env files now claudeAuth :
  let window :=
    install_authEnv (auth_setup files now claudeAuth).1
      (install_credentials claudeAuth env) in
  saved_from env window.1 /\ agrees_outside window.1 window.2 env.
Proof.
  intros window. subst window.
  pose proof (install_credentials_saved claudeAuth env) as Hc.
  destruct (install_credentials claudeAuth env) as [o1 e1].
  destruct Hc as (Hs & Ha & Hkeys).
  destruct (auth_setup_keys files now claudeAuth) as [Hnd Hauth].
  apply install_authEnv_saved; try assumption.
  intros k Hk Hin. apply (auth_keys_not_credentials k); auto.
Qed.

Lemma window_credential env files now claudeAuth k :
  k ∈ credential_keys ->
  (install_authEnv (auth_setup files now claudeAuth).1
     (install_credentials claudeAuth env)).2 !! k
  = (install_credentials claudeAuth env).2 !! k.
Proof.
  intros Hk.
  destruct (install_credentials claudeAuth env) as [o1 e1].
  apply install_authEnv_other.
  destruct (auth_setup_keys files now claudeAuth) as [_ Hauth].
  intros Hin. exact (auth_keys_not_credentials k (Hauth k Hin) Hk).
Qed.

(** C9. The local executor saves each environment variable it is about
    to change, installs the credential variables (the OAuth token with
    both API-key variables removed, or else the API key under both names)
    and the authentication environment, and runs the tool call in that
    environment.  Whatever the call does, whether its messages end
    normally, it throws an error, or it throws the abort error, the
    [finally] replays the saved values (a variable that was unset is
    deleted), and [process.env] after the call equals [process.env]
    before it; every variable whose value differs during the call has
    its prior value among the saved ones. *)
Theorem environment_window_restored env files now query message requestId
    (ctrls : gmap string AbortController) claudePath sessionId allowedTools
    workingDirectory claudeAuth :
  let r := executeClaudeCommand env files now query message requestId ctrls
             claudePath sessionId allowedTools workingDirectory claudeAuth in
  local_env r = env
  /\ (forall k, local_env_during r !! k <> env !! k ->
                (k, env !! k) ∈ local_originalEnv r)
  /\ (forall auth,
         claudeAuth = Some auth -> truthy (accessToken auth) = true ->
         local_env_during r !! "CLAUDE_CODE_OAUTH_TOKEN" = Some (accessToken auth)
         /\ local_env_during r !! "ANTHROPIC_API_KEY" = None
         /\ local_env_during r !! "CLAUDE_API_KEY" = None)
  /\ (forall apiKey,
         (forall auth, claudeAuth = Some auth -> truthy (accessToken auth) = false) ->
         or_else (env !! "ANTHROPIC_API_KEY") (env !! "CLAUDE_API_KEY") = Some apiKey ->
         truthy apiKey = true ->
         local_env_during r !! "ANTHROPIC_API_KEY" = Some apiKey
         /\ local_env_during r !! "CLAUDE_API_KEY" = Some apiKey)
  /\ (forall k v, (k, v) ∈ (auth_setup files now claudeAuth).1 ->
                  local_env_during r !! k = Some v).
Proof.
  intros r.
  destruct (local_run_env env files now query message requestId ctrls claudePath
              sessionId allowedTools workingDirectory claudeAuth)
    as (Ho & Hd & He).
  fold r in Ho, Hd, He.
  destruct (window_saved env files now claudeAuth) as [Hs Ha].
  cbv zeta in Hs, Ha.
  rewrite Ho, Hd, He.
  split; [|split; [|split; [|split]]].
  - apply restore_env_id; assumption.
  - intros k Hk.
    destruct (decide (k ∈ (install_authEnv (auth_setup files now claudeAuth).1
                             (install_credentials claudeAuth env)).1.*1))
      as [Hin | Hnin].
    + apply list_elem_of_fmap in Hin as ([k' v] & -> & Hin).
      cbn [fst]. rewrite <- (Hs _ _ Hin). exact Hin.
    + exfalso. apply Hk, Ha, Hnin.
  - intros auth -> Htok.
    rewrite !window_credential
      by (unfold credential_keys; rewrite !elem_of_cons; auto).
    unfold install_credentials. rewrite Htok. cbn [snd].
    rewrite lookup_delete_ne, lookup_delete_ne, lookup_insert_eq by discriminate.
    rewrite lookup_delete_ne, lookup_delete_eq by discriminate.
    rewrite lookup_delete_eq. auto.
  - intros apiKey Hno Hkey Htruthy.
    rewrite !window_credential
      by (unfold credential_keys; rewrite !elem_of_cons; auto).
    unfold install_credentials.
    assert (Hnone : match claudeAuth with
                    | Some auth =>
                        if truthy (accessToken auth) then Some (accessToken auth)
                        else None
                    | None => None
                    end = None).
    { destruct claudeAuth as [auth|]; [|reflexivity].
      rewrite (Hno auth eq_refl). reflexivity. }
    rewrite Hnone, Hkey. unfold falsy. rewrite Htruthy. cbn [negb snd default].
    rewrite lookup_insert_ne, lookup_insert_eq by discriminate.
    rewrite lookup_insert_eq. auto.
  - intros k v Hin.
    destruct (install_credentials claudeAuth env) as [o1 e1].
    apply install_authEnv_set; [|exact Hin].
    apply auth_setup_keys.
Qed.

Lemma environment_window_restored_witness :
  let env : gmap string string :=
    {[ "ANTHROPIC_API_KEY"%string := "sk-old"%string;
       "NODE_OPTIONS"%string := "--max-old-space-size=512"%string ]} in
  let r := executeClaudeCommand env valid_auth_files 0
             (fun _ _ => [SdkMessage (JStr "working"); SdkThrows sdk_abort_error])
             "do it" "r1" ∅ "/usr/bin/claude" None None None (Some sample_auth) in
  local_events r = [ev_claude_json (JStr "working"); ev_aborted]
  /\ local_env r = env
  /\ local_env_during r !! "CLAUDE_CODE_OAUTH_TOKEN"%string = Some "oauth-token"%string
  /\ local_env_during r !! "ANTHROPIC_API_KEY"%string = None
  /\ local_env_during r !! "NODE_OPTIONS"%string = Some "--require preload-script.cjs"%string.
Proof.
  intros env r.
  destruct (environment_window_restored env valid_auth_files 0
              (fun _ _ => [SdkMessage (JStr "working"); SdkThrows sdk_abort_error])
              "do it" "r1" ∅ "/usr/bin/claude" None None None (Some sample_auth))
    as (Henv & _ & Hoauth & _ & Hauth).
  destruct (Hoauth sample_auth eq_refl eq_refl) as (Htok & Hkey & _).
  split; [reflexivity|].
  split; [exact Henv|].
  split; [exact Htok|].
  split; [exact Hkey|].
  apply Hauth. vm_compute.
  do 2 apply list_elem_of_further. apply list_elem_of_here.
Defined.

(** ** Cancellation and terminal events *)

Lemma forSdk_messages msgs rest :
  forSdk ((SdkMessage <$> msgs) ++ rest)
  = ((ev_claude_json <$> msgs) ++ (forSdk rest).1, (forSdk rest).2).
Proof.
  induction msgs as [|m msgs IH].
  - change (forSdk rest = ((forSdk rest).1, (forSdk rest).2)).
    destruct (forSdk rest). reflexivity.
  - rewrite !fmap_cons, <- !app_comm_cons. cbn [forSdk]. rewrite IH. reflexivity.
Qed.

Lemma forSdk_events script :
  Forall (fun e => is_terminal e = false) (forSdk script).1.
Proof.
  induction script as [|[m|e] script IH]; cbn [forSdk].
  - constructor.
  - destruct (forSdk script) as [evs c]. constructor; [reflexivity | exact IH].
  - constructor.
Qed.

Lemma local_catch_terminal error : is_terminal (local_catch error) = true.
Proof.
  unfold local_catch.
  destruct error as [[] name msg | s]; try reflexivity;
    cbn [error_text]; destruct (_ || _); reflexivity.
Qed.

Lemma local_events_eq env files now query message requestId
    (ctrls : gmap string AbortController) claudePath sessionId allowedTools
    workingDirectory claudeAuth :
  exists script,
    local_events
      (executeClaudeCommand env files now query message requestId ctrls
         claudePath sessionId allowedTools workingDirectory claudeAuth)
    = (forSdk script).1
        ++ [match (forSdk script).2 with
            | Throw error => local_catch error
            | _ => ev_done
            end]
    /\ exists e o, script = query e o.
Proof.
  unfold executeClaudeCommand.
  destruct (auth_setup files now claudeAuth) as [authEnv args].
  destruct (install_authEnv authEnv (install_credentials claudeAuth env))
    as [o e].
  match goal with |- context [forSdk ?s] => exists s end.
  split; [|eauto].
  destruct (forSdk _) as [evs [| |err]]; reflexivity.
Qed.

(** The local executor ends with exactly one terminal event. *)
Lemma local_one_terminal env files now query message requestId
    (ctrls : gmap string AbortController) claudePath sessionId allowedTools
    workingDirectory claudeAuth :
  one_terminal_last
    (local_events
       (executeClaudeCommand env files now query message requestId ctrls
          claudePath sessionId allowedTools workingDirectory claudeAuth)).
Proof.
  destruct (local_events_eq env files now query message requestId ctrls
              claudePath sessionId allowedTools workingDirectory claudeAuth)
    as (script & -> & _).
  eexists _, _. split; [reflexivity|]. split; [|apply forSdk_events].
  destruct (forSdk script).2; try reflexivity. apply local_catch_terminal.
Qed.

(** Cancelling the local executor: the SDK call, which is given the
    controller, throws its abort error, and the stream ends with
    [aborted]. *)
Lemma local_cancel_aborted env files now script msgs rest message requestId
    (ctrls : gmap string AbortController) claudePath sessionId allowedTools
    workingDirectory claudeAuth :
  script = (SdkMessage <$> msgs) ++ SdkThrows sdk_abort_error :: rest ->
  local_events
    (executeClaudeCommand env files now (fun _ _ => script) message requestId
       ctrls claudePath sessionId allowedTools workingDirectory claudeAuth)
  = (ev_claude_json <$> msgs) ++ [ev_aborted].
Proof.
  intros ->.
  destruct (local_events_eq env files now
              (fun _ _ => (SdkMessage <$> msgs) ++ SdkThrows sdk_abort_error :: rest)
              message requestId ctrls claudePath sessionId allowedTools
              workingDirectory claudeAuth)
    as (script & -> & e & o & ->).
  rewrite forSdk_messages. cbn [forSdk fst snd]. rewrite app_nil_r. reflexivity.
Qed.

(** Cancelling the remote delegate: the read, made under the
    controller's signal, rejects with the abort error, and the stream
    ends with [aborted]. *)
Lemma delegate_cancel_aborted JSON_parse agent message requestId
    (ctrls : gmap string AbortController) sessionId claudeAuth
    before rest evs0 n0 :
  readLoop JSON_parse (ReadChunk <$> before) = (evs0, Normal, n0) ->
  http_events
    (executeAgentHttpRequest JSON_parse
       (peer (ok_response ((ReadChunk <$> before)
                           ++ ReadRejects fetch_abort_error :: rest)))
       agent message requestId ctrls sessionId claudeAuth)
  = evs0 ++ [ev_aborted].
Proof.
  intros Hb.
  destruct (http_run_ok JSON_parse agent message requestId ctrls sessionId
              claudeAuth
              ((ReadChunk <$> before) ++ ReadRejects fetch_abort_error :: rest))
    as [-> _].
  rewrite (readLoop_chunks JSON_parse before _ evs0 n0 Hb). cbn [readLoop].
  rewrite app_nil_r. reflexivity.
Qed.

Section Planner.

Variable JSON_parse : string -> option Json.

Lemma onChunk_events sessionId now st chunk :
  Forall (fun e => is_terminal e = false)
    (onChunk JSON_parse sessionId now st chunk).2.
Proof.
  destruct st as [cm content].
  destruct chunk as [id role model usage|b|[t|pj|]|sr ss u| | |]; cbn [onChunk snd];
    try constructor.
  - destruct cm; cbn [snd]; constructor.
  - destruct cm; cbn [snd]; repeat constructor.
Qed.

Lemma forChunks_events sessionId clock k st stream :
  Forall (fun e => is_terminal e = false)
    (forChunks JSON_parse sessionId clock k st stream).1.2.
Proof.
  revert k st. induction stream as [|[chunk|e] stream IH]; intros k st;
    cbn [forChunks].
  - constructor.
  - pose proof (onChunk_events sessionId (clock k) st chunk) as Ho.
    destruct (onChunk JSON_parse sessionId (clock k) st chunk) as [st' out].
    pose proof (IH (S k) st') as Hr.
    destruct (forChunks JSON_parse sessionId clock (S k) st' stream)
      as [[st'' evs] c].
    cbn [fst snd] in *. apply Forall_app. split; assumption.
  - constructor.
Qed.

Lemma forChunks_no_return sessionId clock k st stream :
  (forChunks JSON_parse sessionId clock k st stream).2 <> Return.
Proof.
  revert k st. induction stream as [|[chunk|e] stream IH]; intros k st;
    cbn [forChunks]; try discriminate.
  destruct (onChunk JSON_parse sessionId (clock k) st chunk) as [st' out].
  pose proof (IH (S k) st') as Hr.
  destruct (forChunks JSON_parse sessionId clock (S k) st' stream)
    as [[st'' evs] c].
  exact Hr.
Qed.

Lemma orch_events_eq env create clock message requestId
    (ctrls : gmap string AbortController) sessionId availableAgents :
  exists before completion,
    orch_events
      (executeOrchestratorWorkflow JSON_parse env create clock message requestId
         ctrls sessionId availableAgents)
    = before ++ [match completion with
                 | Throw error => ev_error (error_text error)
                 | _ => ev_done
                 end]
    /\ Forall (fun e => is_terminal e = false) before.
Proof.
  unfold executeOrchestratorWorkflow.
  destruct (falsy _).
  - eexists [], (Throw _). split; [reflexivity | constructor].
  - destruct (create _) as [e | stream].
    + eexists [], (Throw e). split; [reflexivity | constructor].
    + pose proof (forChunks_events sessionId clock 1 (None, []) stream) as Hf.
      pose proof (forChunks_no_return sessionId clock 1 (None, []) stream) as Hn.
      destruct (forChunks JSON_parse sessionId clock 1 (None, []) stream)
        as [[st evs] c].
      cbn [fst snd] in Hf, Hn.
      exists (ev_system_init sessionId (clock 0) :: evs), c.
      split.
      * destruct c; [reflexivity | contradiction | reflexivity].
      * constructor; [reflexivity | exact Hf].
Qed.

(** The orchestrator planner ends with exactly one terminal event. *)
Lemma orch_one_terminal env create clock message requestId
    (ctrls : gmap string AbortController) sessionId availableAgents :
  one_terminal_last
    (orch_events
       (executeOrchestratorWorkflow JSON_parse env create clock message requestId
          ctrls sessionId availableAgents)).
Proof.
  destruct (orch_events_eq env create clock message requestId ctrls sessionId
              availableAgents) as (before & c & -> & Hb).
  exists before. eexists. split; [reflexivity|]. split; [|exact Hb].
  destruct c; reflexivity.
Qed.

(** C2 fails on the orchestrator planner.  The planner registers an
    abort controller but hands no signal to the LLM call, and its [catch]
    has no case for an abort: whatever the environment, the LLM client
    and the stream do, the planner's events never include [aborted], and
    its terminal event is [done] or [error].  In particular, when the
    LLM call is cut off and throws its abort error after the first chunk,
    the stream ends with an [error] event carrying that error's message. *)
Theorem planner_never_reports_abort env create clock message requestId
    (ctrls : gmap string AbortController) sessionId availableAgents :
  let r := executeOrchestratorWorkflow JSON_parse env create clock message
             requestId ctrls sessionId availableAgents in
  no_event_of_type "aborted" (orch_events r)
  /\ (exists before t,
         orch_events r = before ++ [t]
         /\ (t = ev_done \/ exists error, t = ev_error error))
  /\ orch_events
       (executeOrchestratorWorkflow JSON_parse
          {[ "ANTHROPIC_API_KEY"%string := "sk-key"%string ]}
          (fun _ => CreateResolves
                      [LlmChunk (MessageStart "msg_1" "assistant" "m" (JObj []));
                       LlmThrows llm_abort_error])
          clock message requestId ctrls (Some "s1"%string) availableAgents)
     = [ev_system_init (Some "s1"%string) 0; ev_error "Request was aborted."].
Proof.
  intros r. subst r.
  destruct (orch_events_eq env create clock message requestId ctrls sessionId
              availableAgents) as (before & c & -> & Hb).
  split; [|split].
  - apply Forall_app. split.
    + eapply Forall_impl; [exact Hb|]. intros e He. cbv beta in He.
      unfold is_terminal in He.
      apply orb_false_iff in He as [_ He]. exact He.
    + destruct c; repeat constructor.
  - exists before. eexists. split; [reflexivity|].
    destruct c; [left; reflexivity | left; reflexivity | right; eauto].
  - reflexivity.
Qed.

End Planner.

(** C3 fails on the remote delegate.  A peer line of type [aborted] is
    forwarded, but only [done] and [error] end the re-stream: when the
    peer's body is the single line of an [aborted] event, the delegate
    yields that event and then its own [done], two terminal events. *)
Theorem delegate_appends_done_after_aborted :
  let r := executeAgentHttpRequest JSON_parse_ref
             (peer (ok_response [ReadChunk (wire_line ev_aborted)])) db_agent
             "@db-agent do X" "r1" ∅ None None in
  JSON_parse_ref (JSON_stringify_ref ev_aborted) = Some ev_aborted
  /\ http_events r = [ev_aborted; ev_done]
  /\ terminal_events (http_events r) = [ev_aborted; ev_done]
  /\ ~ one_terminal_last (http_events r).
Proof.
  intros r.
  split; [reflexivity|]. split; [reflexivity|]. split; [reflexivity|].
  intros (before & t & Hev & _ & Hb).
  change (http_events r) with [ev_aborted; ev_done] in Hev.
  destruct before as [|e1 before]; [inversion Hev|].
  inversion Hev as [[He1 Hrest]]. subst e1.
  inversion Hb as [|? ? Hterminal _]. discriminate Hterminal.
Qed.

(** * Further properties of the code *)

(** ** Mentions *)

Lemma name_tail_scan s : name_tail (scan_name s) = true.
Proof.
  induction s as [|c s IH]; [reflexivity|].
  cbn [scan_name]. destruct (is_word c) eqn:Hc.
  - cbn [name_tail]. rewrite Hc. exact IH.
  - destruct (Ascii.eqb c "-") eqn:Hh; [|reflexivity].
    destruct s as [|d s']; [reflexivity|].
    destruct (is_word d) eqn:Hd; [|reflexivity].
    cbn [name_tail]. rewrite Hc, Hh.
    cbn [scan_name] in IH |- *. rewrite Hd in IH |- *.
    rewrite Hd. exact IH.
Qed.

(** X1. Every mention that the pattern finds in a message is an [@]
    followed by a name that starts with a word character and goes on with
    word characters and hyphens, each hyphen followed by a word character:
    no mention is a bare [@], none ends in a hyphen, none holds a space
    or a second [@]. *)
Theorem mentions_well_formed message :
  Forall (fun m => mention_shape m = true) (match_mentions message).
Proof.
  induction message as [|c s IH]; [constructor|].
  cbn [match_mentions]. destruct (Ascii.eqb c "@") eqn:Hc; [|exact IH].
  destruct s as [|d s']; [exact IH|].
  cbn [match_name]. destruct (is_word d) eqn:Hd; [|exact IH].
  constructor; [|exact IH].
  cbn [scan_name]. rewrite Hd. cbn [mention_shape]. rewrite Hc, Hd.
  apply name_tail_scan.
Qed.

Lemma separator_stops c t : separator c = true -> scan_name (String c t) = EmptyString.
Proof.
  unfold separator. intros H. apply andb_true_iff in H as [Hw Hh].
  apply negb_true_iff in Hw, Hh. cbn [scan_name]. rewrite Hw, Hh. reflexivity.
Qed.

Lemma scan_name_separator s c t :
  separator c = true -> scan_name (s +:+ String c t) = scan_name s.
Proof.
  intros Hsep. induction s as [|x s IH].
  - change (EmptyString +:+ String c t) with (String c t).
    apply separator_stops, Hsep.
  - change (String x s +:+ String c t) with (String x (s +:+ String c t)).
    cbn [scan_name]. rewrite IH.
    destruct (is_word x); [reflexivity|].
    destruct (Ascii.eqb x "-"); [|reflexivity].
    destruct s as [|d s'].
    + change (EmptyString +:+ String c t) with (String c t).
      unfold separator in Hsep. apply andb_true_iff in Hsep as [Hw _].
      apply negb_true_iff in Hw. rewrite Hw. reflexivity.
    + change (String d s' +:+ String c t) with (String d (s' +:+ String c t)).
      reflexivity.
Qed.

Lemma match_name_separator s c t :
  separator c = true -> match_name (s +:+ String c t) = match_name s.
Proof.
  intros Hsep. destruct s as [|x s].
  - change (EmptyString +:+ String c t) with (String c t).
    unfold separator in Hsep. apply andb_true_iff in Hsep as [Hw _].
    apply negb_true_iff in Hw. cbn [match_name]. rewrite Hw. reflexivity.
  - change (String x s +:+ String c t) with (String x (s +:+ String c t)).
    unfold match_name. destruct (is_word x); [|reflexivity].
    f_equal. exact (scan_name_separator (String x s) c t Hsep).
Qed.

(** X2. Mentions are found independently on the two sides of a
    character that is neither a word character nor a hyphen: the matches
    of [s] followed by such a character and any text are the matches of
    [s], then the matches of the rest.  Matches are counted as found,
    so a mention written twice counts twice. *)
Theorem mentions_split_at_separator s c t :
  separator c = true ->
  match_mentions (s +:+ String c t)
  = match_mentions s ++ match_mentions (String c t).
Proof.
  intros Hsep. induction s as [|x s IH].
  - reflexivity.
  - change (String x s +:+ String c t) with (String x (s +:+ String c t)).
    cbn [match_mentions]. rewrite IH, (match_name_separator s c t Hsep).
    destruct (Ascii.eqb x "@"); [|reflexivity].
    destruct (match_name s); reflexivity.
Qed.

Lemma mentions_split_at_separator_witness :
  separator " " = true
  /\ match_mentions ("ask @web" +:+ String " " "and @web again")
     = ["@web"; "@web"]%string.
Proof.
  split; [reflexivity|].
  rewrite (mentions_split_at_separator "ask @web" " " "and @web again");
    reflexivity.
Defined.

(** ** Strategy selection *)

Lemma shouldUseOrchestrator_iff reg msg agents :
  shouldUseOrchestrator reg msg agents = true
  <-> anthropic_orchestrator reg
      /\ (exists a rest, agents = Some (a :: rest))
      /\ 1 < length (match_mentions msg).
Proof.
  split.
  - intros H. pose proof (shouldUseOrchestrator_needs_two _ _ _ H) as Hlen.
    unfold shouldUseOrchestrator in H.
    destruct (bool_decide _) eqn:Hb; [|discriminate].
    apply bool_decide_eq_true_1 in Hb.
    destruct (getProviderForAgent reg "orchestrator") as [p|] eqn:Hp;
      [|discriminate].
    split; [exists p; split; [exact Hp | simpl in Hb; congruence]|].
    split; [|exact Hlen].
    destruct agents as [[|a rest]|]; try discriminate.
    eauto.
  - intros (Hreg & (a & rest & ->) & Hlen).
    rewrite (shouldUseOrchestrator_anthropic _ _ _ Hreg).
    apply Nat.ltb_lt. exact Hlen.
Qed.

Lemma selectExecutionMethod_eq reg req :
  selectExecutionMethod reg req
  = if shouldUseOrchestrator reg (message req) (availableAgents req)
    then ExecOrchestratorWorkflow else ExecClaudeCommand.
Proof.
  unfold selectExecutionMethod.
  destruct (shouldUseOrchestrator reg (message req) (availableAgents req)) eqn:Hs;
    [|reflexivity].
  apply shouldUseOrchestrator_needs_two in Hs.
  destruct (match_mentions (message req)) as [|m [|m' ms]]; simpl in Hs;
    try lia; reflexivity.
Qed.

(** X3. The handler's choice of strategy, for every registry and
    request: it runs the orchestrator planner exactly when the
    orchestrator agent is served by the anthropic provider, the request
    lists at least one agent, and the message holds more than one
    mention; in every other case it runs the local executor.  The remote
    delegate is never chosen. *)
Theorem strategy_selection_complete reg req :
  (shouldUseOrchestrator reg (message req) (availableAgents req) = true
   <-> anthropic_orchestrator reg
       /\ (exists a agents, availableAgents req = Some (a :: agents))
       /\ 1 < length (match_mentions (message req)))
  /\ selectExecutionMethod reg req
     = (if shouldUseOrchestrator reg (message req) (availableAgents req)
        then ExecOrchestratorWorkflow else ExecClaudeCommand)
  /\ (forall agent, selectExecutionMethod reg req <> ExecAgentHttpRequest agent).
Proof.
  split; [apply shouldUseOrchestrator_iff|].
  split; [apply selectExecutionMethod_eq|].
  intros agent. apply remote_single_unreachable.
Qed.

(** ** Lines of the wire text *)

Lemma split_lines_nonempty s : split_lines s <> [].
Proof.
  induction s as [|c s IH]; [discriminate|].
  cbn [split_lines]. destruct (code c =? 10); [discriminate|].
  destruct (split_lines s); discriminate.
Qed.

Lemma split_lines_newline a b :
  split_lines (a +:+ newline +:+ b) = split_lines a ++ split_lines b.
Proof.
  induction a as [|c a IH].
  - reflexivity.
  - change (String c a +:+ newline +:+ b) with (String c (a +:+ newline +:+ b)).
    cbn [split_lines]. rewrite IH.
    destruct (code c =? 10); [reflexivity|].
    pose proof (split_lines_nonempty a) as Hne.
    destruct (split_lines a); [contradiction | reflexivity].
Qed.

Lemma split_lines_single s : no_newline s = true -> split_lines s = [s].
Proof.
  induction s as [|c s IH]; [reflexivity|].
  cbn [no_newline split_lines]. intros H.
  apply andb_true_iff in H as [Hc Hs]. apply negb_true_iff in Hc.
  rewrite Hc, (IH Hs). reflexivity.
Qed.

Lemma has_visible_rev s : forall acc,
  has_visible (rev_string acc s) = has_visible acc || has_visible s.
Proof.
  induction s as [|c s IH]; intros acc; cbn [rev_string has_visible].
  - rewrite orb_false_r. reflexivity.
  - rewrite IH. cbn [has_visible].
    destruct (is_space c), (has_visible acc), (has_visible s); reflexivity.
Qed.

Lemma has_visible_trimStart s : has_visible (trimStart s) = has_visible s.
Proof.
  induction s as [|c s IH]; [reflexivity|].
  cbn [trimStart]. destruct (is_space c) eqn:Hc; [|reflexivity].
  cbn [has_visible]. rewrite Hc. exact IH.
Qed.

Lemma has_visible_truthy s : has_visible s = true -> truthy s = true.
Proof. destruct s; [discriminate | reflexivity]. Qed.

Lemma trim_visible s : has_visible s = true -> truthy (trim s) = true.
Proof.
  intros H. apply has_visible_truthy. unfold trim.
  rewrite has_visible_rev, has_visible_trimStart, has_visible_rev,
    has_visible_trimStart.
  cbn [has_visible orb]. exact H.
Qed.

Lemma head_visible_has s : head_visible s = true -> has_visible s = true.
Proof.
  destruct s as [|c s]; [discriminate|]. cbn [head_visible has_visible].
  intros ->. reflexivity.
Qed.

Lemma chunk_lines_newline a b :
  chunk_lines (a +:+ newline +:+ b) = chunk_lines a ++ chunk_lines b.
Proof.
  unfold chunk_lines. rewrite split_lines_newline. apply List.filter_app.
Qed.

Lemma chunk_lines_single s :
  no_newline s = true -> head_visible s = true -> chunk_lines s = [s].
Proof.
  intros Hn Hv. unfold chunk_lines. rewrite (split_lines_single s Hn).
  cbn [List.filter]. rewrite (trim_visible s (head_visible_has s Hv)).
  reflexivity.
Qed.

Lemma no_newline_app a b :
  no_newline (a +:+ b) = no_newline a && no_newline b.
Proof.
  induction a as [|c a IH]; [reflexivity|].
  change (String c a +:+ b) with (String c (a +:+ b)).
  cbn [no_newline]. rewrite IH. apply andb_assoc.
Qed.

Lemma escape_chars_no_newline s : no_newline (escape_chars s) = true.
Proof.
  induction s as [|c s IH]; [reflexivity|].
  cbn [escape_chars]. rewrite no_newline_app, IH, andb_true_r.
  destruct (code c =? 34); [reflexivity|].
  destruct (code c =? 92); [reflexivity|].
  destruct (code c =? 8); [reflexivity|].
  destruct (code c =? 12); [reflexivity|].
  destruct (code c =? 10) eqn:E; [reflexivity|].
  destruct (code c =? 13); [reflexivity|].
  destruct (code c =? 9); [reflexivity|].
  cbn [no_newline]. rewrite E. reflexivity.
Qed.

Lemma quote_no_newline s : no_newline (quote s) = true.
Proof.
  unfold quote. rewrite !no_newline_app, escape_chars_no_newline. reflexivity.
Qed.

Lemma digits_no_newline u : no_newline (NilEmpty.string_of_uint u) = true.
Proof. induction u; cbn [NilEmpty.string_of_uint no_newline]; auto. Qed.

Lemma Number_toString_no_newline n : no_newline (Number_toString n) = true.
Proof.
  unfold Number_toString, NilZero.string_of_uint.
  destruct (N.to_uint n); try apply digits_no_newline. reflexivity.
Qed.

Lemma Z_toString_no_newline n : no_newline (Z_toString n) = true.
Proof.
  unfold Z_toString. destruct (n <? 0)%Z.
  - rewrite no_newline_app, Number_toString_no_newline. reflexivity.
  - apply Number_toString_no_newline.
Qed.

Lemma join_no_newline sep l :
  no_newline sep = true -> Forall (fun s => no_newline s = true) l ->
  no_newline (join sep l) = true.
Proof.
  intros Hsep Hl. induction Hl as [|x l Hx Hl IH]; [reflexivity|].
  cbn [join]. destruct l as [|y l]; [exact Hx|].
  rewrite !no_newline_app, Hx, Hsep, IH. reflexivity.
Qed.

Lemma JSON_stringify_ref_no_newline :
  forall v, no_newline (JSON_stringify_ref v) = true.
Proof.
  fix IH 1. intros [ | [|] | n | s | items | props]; cbn [JSON_stringify_ref].
  - reflexivity.
  - reflexivity.
  - reflexivity.
  - apply Z_toString_no_newline.
  - apply quote_no_newline.
  - rewrite !no_newline_app, join_no_newline; [reflexivity | reflexivity|].
    induction items as [|x items IHitems]; constructor; [apply IH | exact IHitems].
  - rewrite !no_newline_app, join_no_newline; [reflexivity | reflexivity|].
    induction props as [|[k x] props IHprops]; constructor; [|exact IHprops].
    cbn [fst snd]. rewrite !no_newline_app, quote_no_newline, IH. reflexivity.
Qed.

Lemma Number_toString_head n : head_visible (Number_toString n) = true.
Proof.
  unfold Number_toString, NilZero.string_of_uint.
  destruct (N.to_uint n); reflexivity.
Qed.

Lemma JSON_stringify_ref_head v : head_visible (JSON_stringify_ref v) = true.
Proof.
  destruct v as [ | [|] | n | s | items | props]; try reflexivity.
  cbn [JSON_stringify_ref]. unfold Z_toString.
  destruct (n <? 0)%Z; [reflexivity | apply Number_toString_head].
Qed.

Lemma chunk_lines_wire_text evs :
  chunk_lines (wire_text evs) = JSON_stringify_ref <$> evs.
Proof.
  induction evs as [|v evs IH]; [reflexivity|].
  unfold wire_text in IH |- *. rewrite fmap_cons. cbn [concat_deltas fold_right].
  unfold wire_line at 1. rewrite append_assoc, chunk_lines_newline.
  unfold concat_deltas in IH. rewrite IH, fmap_cons.
  rewrite (chunk_lines_single _ (JSON_stringify_ref_no_newline v)
             (JSON_stringify_ref_head v)).
  reflexivity.
Qed.

Lemma body_lines_wire groups :
  body_lines (wire_text <$> groups) = JSON_stringify_ref <$> concat groups.
Proof.
  induction groups as [|g groups IH]; [reflexivity|].
  rewrite fmap_cons. unfold body_lines in IH |- *.
  rewrite fmap_cons. cbn [concat]. rewrite IH, chunk_lines_wire_text, fmap_app.
  reflexivity.
Qed.

(** ** Remote delegate: further behaviour *)

Section Delegate.

Variable JSON_parse : string -> option Json.

Local Abbreviation forLines := (forLines JSON_parse).
Local Abbreviation readLoop := (readLoop JSON_parse).
Local Abbreviation delegate := (executeAgentHttpRequest JSON_parse).

(** X4. The request that the delegate posts to the peer carries the
    message, the request id, the session id and the credentials of the
    original request and the agent's working directory, but neither the
    list of available agents nor the allowed tools.  A peer that runs the
    same handler therefore always answers with its local executor,
    whatever its registry holds and however many mentions the message
    has: delegation does not cascade. *)
Theorem forwarded_request_runs_locally fetch agent msg rid
    (ctrls : gmap string AbortController) sid auth
    (w : World) (ctrls' : gmap string AbortController) env :
  let sent := http_request (delegate fetch agent msg rid ctrls sid auth) in
  message sent = msg /\ requestId sent = rid /\ sessionId sent = sid
  /\ claudeAuth sent = auth
  /\ workingDirectory sent = agent_workingDirectory agent
  /\ availableAgents sent = None /\ allowedTools sent = None
  /\ run_method (handleChatRequest JSON_parse w sent ctrls' env) = ExecClaudeCommand.
Proof.
  intros sent.
  assert (Hs : sent = agentChatRequest agent msg rid sid auth).
  { subst sent. unfold executeAgentHttpRequest. split_lets. reflexivity. }
  rewrite Hs. repeat split.
  unfold handleChatRequest, selectExecutionMethod, shouldUseOrchestrator.
  cbn [agentChatRequest availableAgents].
  destruct (negb _); reflexivity.
Qed.

Lemma body_lines_cons chunk chunks :
  body_lines (chunk :: chunks) = chunk_lines chunk ++ body_lines chunks.
Proof. reflexivity. Qed.

Lemma readLoop_body_lines chunks :
  (readLoop (ReadChunk <$> chunks)).1
  = let '(evs, returned) := forLines (body_lines chunks) in
    (evs, if returned then Return else Normal).
Proof.
  induction chunks as [|chunk chunks IH].
  - reflexivity.
  - rewrite fmap_cons, readLoop_cons, body_lines_cons, forLines_app.
    destruct (forLines (chunk_lines chunk)) as [e1 [|]]; [reflexivity|].
    destruct (readLoop (ReadChunk <$> chunks)) as [[evs c] n].
    cbn [fst] in IH |- *. 
    destruct (forLines (body_lines chunks)) as [e2 r2].
    inversion IH; subst. reflexivity.
Qed.

Lemma http_events_body_lines agent msg rid
    (ctrls : gmap string AbortController) sid auth chunks :
  http_events
    (delegate (peer (ok_response (ReadChunk <$> chunks))) agent msg rid ctrls
       sid auth)
  = let '(evs, returned) := forLines (body_lines chunks) in
    if returned then evs else evs ++ [ev_done].
Proof.
  destruct (http_run_ok JSON_parse agent msg rid ctrls sid auth
              (ReadChunk <$> chunks)) as [-> _].
  pose proof (readLoop_body_lines chunks) as H.
  destruct (readLoop (ReadChunk <$> chunks)) as [[evs c] n].
  cbn [fst] in H.
  destruct (forLines (body_lines chunks)) as [e2 [|]];
    inversion H; subst; reflexivity.
Qed.

(** X5. When every read of the body delivers a chunk, the delegate's
    events depend on the chunks only through their non-blank lines taken
    in order: they are the events of the line loop run once over all the
    lines, followed by [done] unless a line of type [done] or [error]
    ended the loop.  Where the peer cuts its body between whole lines
    makes no difference. *)
Theorem delegate_events_from_lines agent msg rid
    (ctrls : gmap string AbortController) sid auth chunks :
  http_events
    (delegate (peer (ok_response (ReadChunk <$> chunks))) agent msg rid ctrls
       sid auth)
  = let '(evs, returned) := forLines (body_lines chunks) in
    if returned then evs else evs ++ [ev_done].
Proof. apply http_events_body_lines. Qed.

Lemma forLines_verbatim evs :
  Forall (fun v => JSON_parse (JSON_stringify_ref v) = Some v) evs ->
  Forall (fun v => ends_stream v = false) evs ->
  forLines (JSON_stringify_ref <$> evs) = (evs, false).
Proof.
  intros Hp Hn. induction Hp as [|v evs Hv Hp IH]; [reflexivity|].
  inversion Hn as [|? ? Hnv Hn']; subst.
  rewrite fmap_cons. simpl. rewrite Hv, (IH Hn').
  unfold ends_stream, event_type in Hnv.
  destruct (prop_type v) as [e|ty]; [reflexivity|].
  rewrite Hnv. reflexivity.
Qed.

(** X6. Verbatim re-streaming.  Let the peer write events one per line
    and deliver them in chunks that each hold any number of whole lines,
    and let [JSON.parse] read back each event from its line.  As long as
    the events are neither [done] nor [error], the delegate yields
    exactly them, unchanged and in order, and then one [done]; at the
    first [done] or [error] event it yields that event and stops, so
    that nothing the peer wrote after it is yielded.  How the lines are
    grouped into chunks makes no difference. *)
Theorem delegate_restreams_verbatim agent msg rid
    (ctrls : gmap string AbortController) sid auth
    (groups : list (list Json)) :
  let run := fun gs =>
    http_events
      (delegate (peer (ok_response (ReadChunk <$> (wire_text <$> gs)))) agent
         msg rid ctrls sid auth) in
  Forall (fun v => JSON_parse (JSON_stringify_ref v) = Some v) (concat groups) ->
  Forall (fun v => ends_stream v = false) (concat groups) ->
  run groups = concat groups ++ [ev_done]
  /\ (forall t more,
        JSON_parse (JSON_stringify_ref t) = Some t ->
        ends_stream t = true ->
        run (groups ++ [t :: more]) = concat groups ++ [t]).
Proof.
  intros run Hp Hn. subst run. cbv beta. split.
  - rewrite http_events_body_lines, body_lines_wire.
    rewrite (forLines_verbatim _ Hp Hn). reflexivity.
  - intros t more Ht Hend.
    rewrite http_events_body_lines, body_lines_wire.
    rewrite concat_app. cbn [concat]. rewrite app_nil_r.
    rewrite fmap_app, fmap_cons.
    rewrite (forLines_stop JSON_parse _ _ _ t _ (forLines_verbatim _ Hp Hn) Ht Hend).
    reflexivity.
Qed.

(** X7. Failures before the body is read.  When [fetch] rejects, the
    delegate yields exactly one event and issues no read: [aborted] if
    the rejection is named [AbortError], otherwise an [error] with the
    rejection's message (or its string form when it is not an Error).
    When the peer answers with an ok status but no body, the single
    event is the error ["No response body from agent endpoint"]. *)
Theorem delegate_fails_before_body fetch agent msg rid
    (ctrls : gmap string AbortController) sid auth :
  let r := delegate fetch agent msg rid ctrls sid auth in
  let outcome := fetch (chat_url agent) (agentChatRequest agent msg rid sid auth) in
  (forall e, outcome = FetchRejects e ->
     http_events r
     = [if named_abort e then ev_aborted else ev_error (error_text e)]
     /\ http_reads r = 0)
  /\ (forall response, outcome = FetchResolves response ->
        ok response = true -> body response = None ->
        http_events r = [ev_error "No response body from agent endpoint"]
        /\ http_reads r = 0).
Proof.
  intros r outcome. subst r outcome. split.
  - intros e He. unfold executeAgentHttpRequest. rewrite He.
    destruct e as [cls name m | s]; cbn [named_abort http_catch];
      [destruct (String.eqb name "AbortError")|]; split; reflexivity.
  - intros response Hr Hok Hb. unfold executeAgentHttpRequest.
    rewrite Hr, Hok, Hb. split; reflexivity.
Qed.

(** X8. Failures while the body is read.  After chunks that did not end
    the stream, a read that loses the race against the 30 second timer
    ends the stream with the events so far and the error ["Stream read
    timeout after 30 seconds"]; a read that rejects ends it with the
    events so far and [aborted] when the rejection is named
    [AbortError], otherwise an [error] with its message.  Nothing of the
    body after the failed read is used, and no [done] is appended. *)
Theorem delegate_fails_in_body agent msg rid
    (ctrls : gmap string AbortController) sid auth before evs0 n0 :
  readLoop (ReadChunk <$> before) = (evs0, Normal, n0) ->
  let run := fun reads =>
    delegate (peer (ok_response reads)) agent msg rid ctrls sid auth in
  (forall rest,
     http_events (run ((ReadChunk <$> before) ++ ReadTimeout :: rest))
     = evs0 ++ [ev_error "Stream read timeout after 30 seconds"])
  /\ (forall e rest,
        http_events (run ((ReadChunk <$> before) ++ ReadRejects e :: rest))
        = evs0 ++ [if named_abort e then ev_aborted else ev_error (error_text e)])
  /\ (forall step rest,
        step = ReadTimeout \/ (exists e, step = ReadRejects e) ->
        http_reads (run ((ReadChunk <$> before) ++ step :: rest))
        = S (length before)).
Proof.
  intros Hb run. subst run. cbv beta.
  split; [|split].
  - intros rest.
    destruct (http_run_ok JSON_parse agent msg rid ctrls sid auth
                ((ReadChunk <$> before) ++ ReadTimeout :: rest)) as [-> _].
    rewrite (readLoop_chunks JSON_parse before _ evs0 n0 Hb). cbn [readLoop].
    rewrite app_nil_r. reflexivity.
  - intros e rest.
    destruct (http_run_ok JSON_parse agent msg rid ctrls sid auth
                ((ReadChunk <$> before) ++ ReadRejects e :: rest)) as [-> _].
    rewrite (readLoop_chunks JSON_parse before _ evs0 n0 Hb). cbn [readLoop].
    rewrite app_nil_r.
    destruct e as [cls name m | s]; cbn [named_abort http_catch];
      [destruct (String.eqb name "AbortError")|]; reflexivity.
  - intros step rest Hstep.
    destruct (http_run_ok JSON_parse agent msg rid ctrls sid auth
                ((ReadChunk <$> before) ++ step :: rest)) as [_ ->].
    rewrite (readLoop_chunks JSON_parse before _ evs0 n0 Hb).
    destruct Hstep as [-> | [e ->]]; cbn [readLoop snd]; lia.
Qed.

(** The events of the line loop: all but the last are neither [done]
    nor [error], and when the loop returned the last one is. *)
Lemma forLines_shape lines :
  match forLines lines with
  | (evs, true) =>
      exists pre t, evs = pre ++ [t] /\ ends_stream t = true
                    /\ Forall (fun e => ends_stream e = false) pre
  | (evs, false) => Forall (fun e => ends_stream e = false) evs
  end.
Proof.
  induction lines as [|line lines IH]; [constructor|].
  simpl. destruct (JSON_parse line) as [v|]; [|exact IH].
  assert (Hgo : ends_stream v = false ->
    match (let '(evs, returned) := forLines lines in (v :: evs, returned)) with
    | (evs, true) =>
        exists pre t, evs = pre ++ [t] /\ ends_stream t = true
                      /\ Forall (fun e => ends_stream e = false) pre
    | (evs, false) => Forall (fun e => ends_stream e = false) evs
    end).
  { intros Hv. destruct (forLines lines) as [evs [|]].
    - destruct IH as (pre & t & -> & Ht & Hpre).
      exists (v :: pre), t. repeat split; [exact Ht|]. constructor; assumption.
    - constructor; assumption. }
  unfold ends_stream, event_type in Hgo |- *.
  destruct (prop_type v) as [e|ty] eqn:Hp.
  - apply Hgo. reflexivity.
  - destruct (is_tag ty "done" || is_tag ty "error") eqn:Ht.
    + exists [], v. repeat split; [|constructor].
      rewrite Hp. exact Ht.
    + apply Hgo. reflexivity.
Qed.

Lemma readLoop_shape reads :
  match readLoop reads with
  | (evs, Return, _) =>
      exists pre t, evs = pre ++ [t] /\ ends_stream t = true
                    /\ Forall (fun e => ends_stream e = false) pre
  | (evs, _, _) => Forall (fun e => ends_stream e = false) evs
  end.
Proof.
  induction reads as [|[chunk|e|] reads IH]; try constructor.
  rewrite readLoop_cons.
  pose proof (forLines_shape (chunk_lines chunk)) as Hl.
  destruct (forLines (chunk_lines chunk)) as [e1 [|]]; [exact Hl|].
  destruct (readLoop reads) as [[evs c] n].
  destruct c as [| |err].
  - apply Forall_app. split; assumption.
  - destruct IH as (pre & t & -> & Ht & Hpre).
    exists (e1 ++ pre), t. rewrite app_assoc. repeat split; [exact Ht|].
    apply Forall_app. split; assumption.
  - apply Forall_app. split; assumption.
Qed.

Lemma http_catch_terminal error : is_terminal (http_catch error) = true.
Proof.
  destruct error as [cls name m | s]; cbn [http_catch]; [|reflexivity].
  destruct (String.eqb name "AbortError"); reflexivity.
Qed.

Lemma not_terminal_iff e :
  is_terminal e = false
  <-> ends_stream e = false /\ is_tag (event_type e) "aborted" = false.
Proof.
  unfold is_terminal, ends_stream. rewrite orb_false_iff. reflexivity.
Qed.

(** X9. The delegate ends its stream with exactly one terminal event,
    in last position, for every body (chunks, failed reads, timeouts),
    provided none of the events it forwards from the peer has type
    [aborted]: a forwarded [done] or [error] ends the stream at once, the
    end of the body appends one [done], and a failed read appends one
    [aborted] or [error].  A forwarded [aborted] is the only way to two
    terminal events. *)
Theorem delegate_one_terminal_unless_peer_aborts agent msg rid
    (ctrls : gmap string AbortController) sid auth reads :
  no_event_of_type "aborted" (readLoop reads).1.1 ->
  one_terminal_last
    (http_events
       (delegate (peer (ok_response reads)) agent msg rid ctrls sid auth)).
Proof.
  intros Hna.
  destruct (http_run_ok JSON_parse agent msg rid ctrls sid auth reads) as [-> _].
  pose proof (readLoop_shape reads) as Hs.
  destruct (readLoop reads) as [[evs c] n]. cbn [fst] in Hna.
  assert (Hmix : forall l, Forall (fun e => ends_stream e = false) l ->
                 no_event_of_type "aborted" l ->
                 Forall (fun e => is_terminal e = false) l).
  { intros l H1 H2. unfold no_event_of_type in H2.
    rewrite Forall_forall in H1, H2. apply Forall_forall. intros e He.
    apply not_terminal_iff. split; [apply H1 | apply H2]; exact He. }
  destruct c as [| |err].
  - exists evs, ev_done. repeat split. apply Hmix; assumption.
  - destruct Hs as (pre & t & -> & Ht & Hpre).
    exists pre, t. repeat split.
    + unfold is_terminal. unfold ends_stream in Ht. rewrite Ht. reflexivity.
    + apply Hmix; [exact Hpre|].
      unfold no_event_of_type in Hna |- *. apply Forall_app in Hna. tauto.
  - exists evs, (http_catch err). repeat split; [apply http_catch_terminal|].
    apply Hmix; assumption.
Qed.

End Delegate.

Lemma delegate_fails_before_body_witness :
  let unreachable := fun (_ : string) (_ : ChatRequest) =>
    FetchRejects (ThrownError ClsTypeError "TypeError" "fetch failed") in
  http_events
    (executeAgentHttpRequest JSON_parse_ref unreachable db_agent "@db-agent do X"
       "r1" ∅ None None)
  = [ev_error "fetch failed"]
  /\ http_events
       (executeAgentHttpRequest JSON_parse_ref
          (peer {| status := 200; statusText := "OK"; text := None; body := None |})
          db_agent "@db-agent do X" "r1" ∅ None None)
     = [ev_error "No response body from agent endpoint"].
Proof.
  intros unreachable. split.
  - exact (proj1 (proj1 (delegate_fails_before_body JSON_parse_ref unreachable
                           db_agent "@db-agent do X" "r1" ∅ None None)
                    _ eq_refl)).
  - exact (proj1 (proj2 (delegate_fails_before_body JSON_parse_ref
                           (peer {| status := 200; statusText := "OK";
                                    text := None; body := None |})
                           db_agent "@db-agent do X" "r1" ∅ None None)
                    _ eq_refl eq_refl eq_refl)).
Defined.

Lemma delegate_fails_in_body_witness :
  let first := wire_line (ev_claude_json (JStr "working")) in
  let run := fun reads =>
    executeAgentHttpRequest JSON_parse_ref (peer (ok_response reads)) db_agent
      "@db-agent do X" "r1" ∅ None None in
  http_events (run [ReadChunk first; ReadTimeout])
  = [ev_claude_json (JStr "working");
     ev_error "Stream read timeout after 30 seconds"]
  /\ http_events (run [ReadChunk first; ReadRejects fetch_abort_error;
                       ReadChunk (wire_line ev_done)])
     = [ev_claude_json (JStr "working"); ev_aborted].
Proof.
  intros first run.
  destruct (delegate_fails_in_body JSON_parse_ref db_agent "@db-agent do X" "r1"
              ∅ None None [first] [ev_claude_json (JStr "working")] 2)
    as (Ht & Hr & _).
  - reflexivity.
  - split.
    + exact (Ht []).
    + exact (Hr fetch_abort_error [ReadChunk (wire_line ev_done)]).
Defined.

Lemma delegate_one_terminal_unless_peer_aborts_witness :
  one_terminal_last
    (http_events
       (executeAgentHttpRequest JSON_parse_ref
          (peer (ok_response
                   [ReadChunk (wire_line (ev_claude_json (JStr "working")));
                    ReadChunk (wire_line (ev_error "peer failed")
                               +:+ wire_line ev_done)]))
          db_agent "@db-agent do X" "r1" ∅ None None)).
Proof.
  apply delegate_one_terminal_unless_peer_aborts.
  vm_compute. repeat constructor.
Defined.


Lemma delegate_restreams_verbatim_witness :
  let working := ev_claude_json (JStr "working") in
  let more := ev_claude_json (JObj [("step"%string, JNum 2)]) in
  let run := fun gs =>
    http_events
      (executeAgentHttpRequest JSON_parse_ref
         (peer (ok_response (ReadChunk <$> (wire_text <$> gs)))) db_agent
         "@db-agent do X" "r1" ∅ None None) in
  run [[working]; []; [more; working]] = [working; more; working; ev_done]
  /\ run [[working]; []; [more; working]; [ev_error "peer failed"; more; ev_done]]
     = [working; more; working; ev_error "peer failed"].
Proof.
  intros working more run.
  destruct (delegate_restreams_verbatim JSON_parse_ref db_agent "@db-agent do X"
              "r1" ∅ None None [[working]; []; [more; working]])
    as [Hdone Hstop].
  - repeat constructor.
  - repeat constructor.
  - split; [exact Hdone|].
    exact (Hstop (ev_error "peer failed") [more; ev_done] eq_refl eq_refl).
Defined.
(** ** Local executor: further behaviour *)

Lemma forSdk_split script :
  exists msgs rest,
    script = (SdkMessage <$> msgs) ++ rest
    /\ (rest = [] \/ exists e rest', rest = SdkThrows e :: rest')
    /\ forSdk script
       = (ev_claude_json <$> msgs,
          match rest with
          | SdkThrows e :: _ => Throw e
          | _ => Normal
          end).
Proof.
  induction script as [|[m|e] script IH].
  - exists [], []. repeat split. left. reflexivity.
  - destruct IH as (msgs & rest & -> & Hrest & Hf).
    exists (m :: msgs), rest. repeat split; [exact Hrest|].
    cbn [forSdk]. rewrite Hf. reflexivity.
  - exists [], (SdkThrows e :: script). repeat split. right. eauto.
Qed.

Lemma auth_setup_args files now claudeAuth :
  (auth_setup files now claudeAuth).2 = [].
Proof. unfold auth_setup. destruct (_ || _); reflexivity. Qed.

(** The run past the probe: one call of the SDK, its messages up to the
    first failure, then one more event. *)
Lemma local_events_shape env files now query msg rid
    (ctrls : gmap string AbortController) path sid tools wd auth :
  let r := executeClaudeCommand env files now query msg rid ctrls path sid
             tools wd auth in
  let script :=
    query (local_env_during r)
      {| q_prompt := msg; q_executableArgs := [];
         q_pathToClaudeCodeExecutable := path;
         q_resume := if falsy sid then None else sid;
         q_allowedTools := tools;
         q_cwd := if falsy wd then None else wd |} in
  exists msgs rest,
    script = (SdkMessage <$> msgs) ++ rest
    /\ (rest = [] \/ exists e rest', rest = SdkThrows e :: rest')
    /\ local_events r
       = (ev_claude_json <$> msgs)
           ++ [match rest with
               | SdkThrows e :: _ => local_catch e
               | _ => ev_done
               end].
Proof.
  intros r script. subst r script. unfold executeClaudeCommand.
  pose proof (auth_setup_args files now auth) as Hargs.
  destruct (auth_setup files now auth) as [authEnv args].
  cbn [snd] in Hargs. subst args.
  destruct (install_authEnv authEnv (install_credentials auth env)) as [o e].
  match goal with |- context [forSdk ?s] =>
    destruct (forSdk_split s) as (msgs & rest & Hs & Hrest & Hf) end.
  rewrite Hf. cbn [local_env_during local_events].
  exists msgs, rest. split; [exact Hs|]. split; [exact Hrest|].
  destruct Hrest as [-> | (err & rest' & ->)]; reflexivity.
Qed.

(** X10. The local executor with its version probe.  Before the SDK is
    called, and with the window's environment installed, a child process
    is spawned in the working directory and awaited.  When the probe
    returns, the SDK is called once, in the environment of the window,
    with the message as prompt, no extra executable arguments, the
    session id as [resume] and the working directory as [cwd] only when
    they are non-empty, and the request's allowed tools; the events are
    the SDK's messages up to the first failure, each wrapped as
    [claude_json] and in order, followed by exactly one more event:
    [done] when the messages ran out, or what the [catch] makes of the
    thrown value.  When the child emits an unhandled error (the process
    dies) or never closes (the generator stays suspended), the generator
    yields no event at all, and the registry entry and the window's
    environment are left in place. *)
Theorem local_stream_shape spawnVersion env files now query msg rid
    (ctrls : gmap string AbortController) path sid tools wd auth :
  let p := executeClaudeCommand_process spawnVersion env files now query msg
             rid ctrls path sid tools wd auth in
  let window :=
    install_authEnv (auth_setup files now auth).1
      (install_credentials auth env) in
  let probe := spawnVersion window.2 path wd in
  lp_fate p = probe_fate probe
  /\ match probe with
     | ProbeReturns =>
         let script :=
           query window.2
             {| q_prompt := msg; q_executableArgs := [];
                q_pathToClaudeCodeExecutable := path;
                q_resume := if falsy sid then None else sid;
                q_allowedTools := tools;
                q_cwd := if falsy wd then None else wd |} in
         exists msgs rest,
           script = (SdkMessage <$> msgs) ++ rest
           /\ (rest = [] \/ exists e rest', rest = SdkThrows e :: rest')
           /\ lp_events p
              = (ev_claude_json <$> msgs)
                  ++ [match rest with
                      | SdkThrows e :: _ => local_catch e
                      | _ => ev_done
                      end]
     | _ =>
         lp_events p = []
         /\ lp_controllers p = <[rid := new_AbortController]> ctrls
         /\ lp_env p = window.2
     end.
Proof.
  intros p window probe. subst p window probe.
  pose proof (local_events_shape env files now query msg rid ctrls path sid
                tools wd auth) as Hshape.
  destruct (local_run_env env files now query msg rid ctrls path sid tools wd
              auth) as (_ & Hduring & _).
  cbv zeta in Hshape. rewrite Hduring in Hshape.
  unfold executeClaudeCommand_process.
  destruct (auth_setup files now auth) as [authEnv args].
  cbn [fst] in Hshape |- *.
  destruct (install_authEnv authEnv (install_credentials auth env)) as [o e].
  cbn [snd] in Hshape |- *.
  destruct (spawnVersion e path wd); cbn [lp_fate lp_events lp_controllers lp_env];
    (split; [reflexivity|]).
  - exact Hshape.
  - repeat split.
  - repeat split.
Qed.

Lemma local_stream_shape_witness :
  let run := fun existing =>
    executeClaudeCommand_process (spawn_needs_cwd existing) ∅ no_auth_files 1000
      (fun _ _ => [SdkMessage (JStr "hello")]) "hi" "r1" ∅ "/usr/bin/claude"
      None None (Some "/no/such/dir"%string) None in
  lp_fate (run []) = ProcessDies
  /\ lp_events (run []) = []
  /\ lp_controllers (run []) = <["r1"%string := new_AbortController]> ∅
  /\ lp_fate (run ["/no/such/dir"%string]) = RunsToEnd.
Proof.
  intros run.
  destruct (local_stream_shape (spawn_needs_cwd []) ∅ no_auth_files 1000
              (fun _ _ => [SdkMessage (JStr "hello")]) "hi" "r1" ∅
              "/usr/bin/claude" None None (Some "/no/such/dir"%string) None)
    as (Hfate & Hev & Hctrl & _).
  destruct (local_stream_shape (spawn_needs_cwd ["/no/such/dir"%string]) ∅
              no_auth_files 1000 (fun _ _ => [SdkMessage (JStr "hello")]) "hi"
              "r1" ∅ "/usr/bin/claude" None None (Some "/no/such/dir"%string)
              None)
    as (Hfate' & _).
  repeat split; assumption.
Defined.

(** X11. What the thrown value makes of the last event.  When the SDK
    throws after some messages, the stream is those messages followed by
    [aborted] if the value is an instance of the SDK's AbortError (the
    test is on the class: a value merely named [AbortError] is an
    error), and otherwise by an [error] whose text is the value's
    message, put after a fixed authentication hint when the message
    contains ["exit with code 1"] or ["authentication"].  The original
    message is always kept as the end of the text. *)
Theorem local_failure_event env files now script msgs e rest msg rid
    (ctrls : gmap string AbortController) path sid tools wd auth :
  script = (SdkMessage <$> msgs) ++ SdkThrows e :: rest ->
  local_events
    (executeClaudeCommand env files now (fun _ _ => script) msg rid ctrls path
       sid tools wd auth)
  = (ev_claude_json <$> msgs)
      ++ [if sdk_abort e then ev_aborted
          else ev_error
                 ((if includes "exit with code 1" (error_text e)
                      || includes "authentication" (error_text e)
                   then auth_failure_prefix else EmptyString)
                  +:+ error_text e)].
Proof.
  intros ->.
  destruct (local_events_eq env files now
              (fun _ _ => (SdkMessage <$> msgs) ++ SdkThrows e :: rest)
              msg rid ctrls path sid tools wd auth)
    as (script & -> & e0 & o & ->).
  rewrite forSdk_messages. cbn [forSdk fst snd]. rewrite app_nil_r.
  do 2 f_equal.
  assert (Hother : (let errorMessage := error_text e in
            if includes "exit with code 1" errorMessage
               || includes "authentication" errorMessage
            then ev_error (auth_failure_prefix +:+ errorMessage)
            else ev_error errorMessage)
          = ev_error
              ((if includes "exit with code 1" (error_text e)
                   || includes "authentication" (error_text e)
                then auth_failure_prefix else EmptyString) +:+ error_text e)).
  { cbv zeta. destruct (_ || _); reflexivity. }
  destruct e as [[] name m | s]; cbn [local_catch sdk_abort];
    first [reflexivity | exact Hother].
Qed.

Lemma local_failure_event_witness :
  let run := fun e =>
    local_events
      (executeClaudeCommand ∅ no_auth_files 1000
         (fun _ _ => [SdkMessage (JStr "hello"); SdkThrows e;
                      SdkMessage (JStr "never")])
         "hi" "r1" ∅ "/usr/bin/claude" None None None None) in
  run sdk_abort_error = [ev_claude_json (JStr "hello"); ev_aborted]
  /\ run fetch_abort_error
     = [ev_claude_json (JStr "hello"); ev_error "This operation was aborted"]
  /\ run (new_Error "process exit with code 1")
     = [ev_claude_json (JStr "hello");
        ev_error (auth_failure_prefix +:+ "process exit with code 1")].
Proof.
  intros run. subst run. cbv beta.
  split; [|split].
  - exact (local_failure_event ∅ no_auth_files 1000 _ [JStr "hello"]
             sdk_abort_error [SdkMessage (JStr "never")] "hi" "r1" ∅
             "/usr/bin/claude" None None None None eq_refl).
  - exact (local_failure_event ∅ no_auth_files 1000 _ [JStr "hello"]
             fetch_abort_error [SdkMessage (JStr "never")] "hi" "r1" ∅
             "/usr/bin/claude" None None None None eq_refl).
  - exact (local_failure_event ∅ no_auth_files 1000 _ [JStr "hello"]
             (new_Error "process exit with code 1") [SdkMessage (JStr "never")]
             "hi" "r1" ∅ "/usr/bin/claude" None None None None eq_refl).
Defined.

(** ** The environment during the call *)

Lemma window_other env files now claudeAuth k :
  k ∉ credential_keys -> k ∉ auth_keys ->
  (install_authEnv (auth_setup files now claudeAuth).1
     (install_credentials claudeAuth env)).2 !! k = env !! k.
Proof.
  intros Hc Ha.
  pose proof (install_credentials_saved claudeAuth env) as Hs.
  destruct (install_credentials claudeAuth env) as [o1 e1].
  destruct Hs as (_ & Hagree & Hkeys).
  rewrite install_authEnv_other.
  - apply Hagree. intros Hin. exact (Hc (Hkeys k Hin)).
  - destruct (auth_setup_keys files now claudeAuth) as [_ Hauth].
    intros Hin. exact (Ha (Hauth k Hin)).
Qed.

(** X12. While the SDK call runs, the local executor has changed no
    environment variable other than the three credential variables and
    the four variables of the authentication environment: every other
    variable reads as it did before the request. *)
Theorem local_env_untouched_elsewhere env files now query msg rid
    (ctrls : gmap string AbortController) path sid tools wd auth k :
  k ∉ credential_keys -> k ∉ auth_keys ->
  local_env_during
    (executeClaudeCommand env files now query msg rid ctrls path sid tools wd
       auth) !! k
  = env !! k.
Proof.
  intros Hc Ha.
  destruct (local_run_env env files now query msg rid ctrls path sid tools wd
              auth) as (_ & -> & _).
  apply window_other; assumption.
Qed.

Lemma local_env_untouched_elsewhere_witness :
  local_env_during
    (executeClaudeCommand {[ "PATH"%string := "/usr/bin"%string ]}
       valid_auth_files 1000 (fun _ _ => []) "hi" "r1" ∅ "/usr/bin/claude"
       None None None (Some sample_auth)) !! "PATH"%string
  = Some "/usr/bin"%string.
Proof.
  rewrite (local_env_untouched_elsewhere {[ "PATH"%string := "/usr/bin"%string ]}
             valid_auth_files 1000 (fun _ _ => []) "hi" "r1" ∅
             "/usr/bin/claude" None None None (Some sample_auth) "PATH").
  - reflexivity.
  - apply (bool_decide_unpack _). vm_compute. reflexivity.
  - apply (bool_decide_unpack _). vm_compute. reflexivity.
Defined.

Lemma window_auth_value env files now claudeAuth k v :
  (k, v) ∈ (auth_setup files now claudeAuth).1 ->
  (install_authEnv (auth_setup files now claudeAuth).1
     (install_credentials claudeAuth env)).2 !! k = Some v.
Proof.
  intros Hin.
  destruct (auth_setup_keys files now claudeAuth) as [Hnd _].
  destruct (install_credentials claudeAuth env) as [o1 e1].
  apply install_authEnv_set; assumption.
Qed.

(** X13. The authentication environment during the SDK call.  Unless
    writing the credentials file or preparing the environment failed,
    the preload script's debug flag is forced to ["0"] during the call
    (overriding the ["1"] that the preparation sets); with valid stored
    credentials the credentials path, the preload [NODE_OPTIONS] and the
    configuration directory are installed as prepared.  When the set-up
    failed, or the stored credentials are not valid (a field missing or
    falsy, an expiry not more than five minutes ahead, or an expiry that
    is no time value of a [Date]), the variables it would set are left as
    they were. *)
Theorem local_auth_environment env files now query msg rid
    (ctrls : gmap string AbortController) path sid tools wd auth :
  let during :=
    local_env_during
      (executeClaudeCommand env files now query msg rid ctrls path sid tools
         wd auth) in
  let failed :=
    (bool_decide (is_Some auth) && writeCredentials_throws files)
    || prepare_throws files in
  let valid := hasValidCredentials (credentialsFile files) now in
  during !! "DEBUG_PRELOAD_SCRIPT"
  = (if failed then env !! "DEBUG_PRELOAD_SCRIPT" else Some "0"%string)
  /\ during !! "CLAUDE_CREDENTIALS_PATH"
     = (if negb failed && valid then Some (credentialsPath files)
        else env !! "CLAUDE_CREDENTIALS_PATH")
  /\ during !! "NODE_OPTIONS"
     = (if negb failed && valid then Some (nodeOptions files)
        else env !! "NODE_OPTIONS")
  /\ during !! "CLAUDE_CONFIG_DIR"
     = (if negb failed && valid then Some (claudeConfigDir files)
        else env !! "CLAUDE_CONFIG_DIR").
Proof.
  intros during failed valid. subst during.
  destruct (local_run_env env files now query msg rid ctrls path sid tools wd
              auth) as (_ & -> & _).
  assert (Hcred : forall k, k ∈ auth_keys ->
            (install_credentials auth env).2 !! k = env !! k).
  { intros k Hk.
    pose proof (install_credentials_saved auth env) as Hs.
    destruct (install_credentials auth env) as [o1 e1].
    destruct Hs as (_ & Hagree & Hkeys). apply Hagree.
    intros Hin. exact (auth_keys_not_credentials k Hk (Hkeys k Hin)). }
  assert (Hauth : (auth_setup files now auth).1
                  = if failed then []
                    else if valid
                         then [("CLAUDE_CREDENTIALS_PATH"%string, credentialsPath files);
                               ("DEBUG_PRELOAD_SCRIPT"%string, "0"%string);
                               ("NODE_OPTIONS"%string, nodeOptions files);
                               ("CLAUDE_CONFIG_DIR"%string, claudeConfigDir files)]
                         else [("DEBUG_PRELOAD_SCRIPT"%string, "0"%string)]).
  { subst failed valid. unfold auth_setup, prepareClaudeAuthEnvironment.
    destruct (_ || _); [reflexivity|].
    destruct (hasValidCredentials _ _); reflexivity. }
  pose proof (window_auth_value env files now auth) as Hset.
  assert (Hkeep : forall k, k ∈ auth_keys ->
            k ∉ (auth_setup files now auth).1.*1 ->
            (install_authEnv (auth_setup files now auth).1
               (install_credentials auth env)).2 !! k = env !! k).
  { intros k Hk Hnot. rewrite <- (Hcred k Hk).
    destruct (install_credentials auth env) as [o1 e1].
    apply install_authEnv_other, Hnot. }
  assert (Hkeys : forall k, k ∈ auth_keys <-> bool_decide (k ∈ auth_keys) = true).
  { intros k. split; [apply bool_decide_eq_true_2 | apply bool_decide_eq_true_1]. }
  clearbody failed valid.
  destruct failed, valid; cbn [negb andb]; rewrite Hauth in Hset, Hkeep |- *;
    repeat split.
  all: try (apply Hset; repeat (apply elem_of_cons; first [left; reflexivity | right])).
  all: try (apply Hkeep;
            [ apply Hkeys; vm_compute; reflexivity
            | cbn [fmap list_fmap fst]; rewrite ?not_elem_of_cons;
              repeat split; try discriminate; apply not_elem_of_nil ]).
Qed.

(** ** Stored credentials ([auth/claude-auth-utils.ts]) *)

Lemma hasValidCredentials_iff f now :
  hasValidCredentials f now = true
  <-> exists token expiry,
        f = Some {| cred_accessToken := Some token;
                    cred_expiresAt := Some expiry |}
        /\ token <> EmptyString /\ expiry <> 0%Z
        /\ (now + 300000 < expiry)%Z
        /\ (-8640000000000000 <= expiry <= 8640000000000000)%Z.
Proof.
  unfold hasValidCredentials, valid_time. split.
  - destruct f as [[[token|] [expiry|]]|]; try discriminate.
    cbn [cred_accessToken cred_expiresAt].
    destruct (truthy token) eqn:Ht; [|discriminate].
    destruct (expiry =? 0)%Z eqn:E0; [discriminate|].
    cbn [andb negb].
    destruct ((-8640000000000000 <=? expiry)%Z && (expiry <=? 8640000000000000)%Z)
      eqn:Er; [|discriminate].
    intros H. exists token, expiry.
    apply andb_true_iff in Er as [Hlo Hhi].
    apply Z.leb_le in Hlo, Hhi. apply Z.ltb_lt in H. apply Z.eqb_neq in E0.
    repeat split; try assumption; try lia.
    intros ->. discriminate Ht.
  - intros (token & expiry & -> & Ht & H0 & Hnow & Hlo & Hhi).
    cbn [cred_accessToken cred_expiresAt].
    destruct token as [|c token]; [congruence|]. cbn [truthy].
    apply Z.eqb_neq in H0. rewrite H0. cbn [andb negb].
    apply Z.leb_le in Hlo, Hhi. rewrite Hlo, Hhi. cbn [andb].
    apply Z.ltb_lt. lia.
Qed.

Lemma prepare_nonempty_iff files now :
  prepareClaudeAuthEnvironment files now <> []
  <-> hasValidCredentials (credentialsFile files) now = true.
Proof.
  unfold prepareClaudeAuthEnvironment.
  destruct (hasValidCredentials (credentialsFile files) now); cbn [negb].
  - split; [reflexivity | discriminate].
  - split; [congruence | discriminate].
Qed.

(** X14. When [prepareClaudeAuthEnvironment] returns a non-empty
    environment.  It does so exactly when the credentials file holds a
    non-empty access token and an expiry that is not zero, lies more
    than five minutes after the current time (the bound is strict), and
    is a time value of a [Date] (at most 8.64e15 ms from the epoch: for
    any other expiry the logging of the date throws and the [catch]
    drops the credentials).  The environment is then the credentials
    path, the debug flag ["1"], the preload [NODE_OPTIONS] and the
    configuration directory, in that order.  Validity only ever lapses
    with time: once the result is empty for a credentials file, it is
    empty at every later time. *)
Theorem credentials_validity_window files now :
  (prepareClaudeAuthEnvironment files now <> []
   <-> exists token expiry,
         credentialsFile files
         = Some {| cred_accessToken := Some token;
                   cred_expiresAt := Some expiry |}
         /\ token <> EmptyString /\ expiry <> 0%Z
         /\ (now + 300000 < expiry)%Z
         /\ (-8640000000000000 <= expiry <= 8640000000000000)%Z)
  /\ (prepareClaudeAuthEnvironment files now <> [] ->
      prepareClaudeAuthEnvironment files now
      = [("CLAUDE_CREDENTIALS_PATH"%string, credentialsPath files);
         ("DEBUG_PRELOAD_SCRIPT"%string, "1"%string);
         ("NODE_OPTIONS"%string, nodeOptions files);
         ("CLAUDE_CONFIG_DIR"%string, claudeConfigDir files)])
  /\ (forall later,
        (now <= later)%Z ->
        prepareClaudeAuthEnvironment files now = [] ->
        prepareClaudeAuthEnvironment files later = []).
Proof.
  split; [|split].
  - rewrite prepare_nonempty_iff. apply hasValidCredentials_iff.
  - intros H. apply prepare_nonempty_iff in H.
    unfold prepareClaudeAuthEnvironment. rewrite H. reflexivity.
  - intros later Hle Hnow.
    destruct (prepareClaudeAuthEnvironment files later) as [|kv l] eqn:El;
      [reflexivity|].
    exfalso.
    assert (Hl : prepareClaudeAuthEnvironment files later <> [])
      by (rewrite El; discriminate).
    apply prepare_nonempty_iff, hasValidCredentials_iff in Hl
      as (token & expiry & Hf & Ht & H0 & Hlater & Hrange).
    assert (Hn : prepareClaudeAuthEnvironment files now <> []).
    { apply prepare_nonempty_iff, hasValidCredentials_iff.
      exists token, expiry. repeat split; try assumption; lia. }
    exact (Hn Hnow).
Qed.

Lemma credentials_validity_window_witness :
  prepareClaudeAuthEnvironment valid_auth_files 1699999 <> []
  /\ prepareClaudeAuthEnvironment valid_auth_files 1700000 = []
  /\ prepareClaudeAuthEnvironment far_future_auth_files 1700000 = [].
Proof.
  assert (Hempty : forall files now,
            ~ (exists token expiry,
                 credentialsFile files
                 = Some {| cred_accessToken := Some token;
                           cred_expiresAt := Some expiry |}
                 /\ token <> EmptyString /\ expiry <> 0%Z
                 /\ (now + 300000 < expiry)%Z
                 /\ (-8640000000000000 <= expiry <= 8640000000000000)%Z) ->
            prepareClaudeAuthEnvironment files now = []).
  { intros files now Hno.
    destruct (credentials_validity_window files now) as (Hiff & _ & _).
    destruct (prepareClaudeAuthEnvironment files now) as [|kv l] eqn:E;
      [reflexivity|].
    exfalso. apply Hno, Hiff. discriminate. }
  split; [|split].
  - apply (proj1 (credentials_validity_window valid_auth_files 1699999)).
    exists "tok"%string, 2000000%Z. repeat split; try discriminate; lia.
  - apply Hempty. intros (token & expiry & Hf & _ & _ & Hnow & _).
    inversion Hf; subst. lia.
  - apply Hempty. intros (token & expiry & Hf & _ & _ & _ & _ & Hhi).
    inversion Hf; subst. lia.
Defined.

(** ** The cancellation registry: other requests *)

(** X15. Running a request leaves the registry entries of all other
    requests as they were: whichever strategy runs, and however it ends,
    the controller registered under any other request id is still the
    one that was there before, and no entry appears for an id that had
    none. *)
Theorem registry_frame JSON_parse w req
    (ctrls : gmap string AbortController) env fetch agent create clock
    files now query path other :
  other <> requestId req ->
  http_controllers
    (executeAgentHttpRequest JSON_parse fetch agent (message req)
       (requestId req) ctrls (sessionId req) (claudeAuth req)) !! other
  = ctrls !! other
  /\ orch_controllers
       (executeOrchestratorWorkflow JSON_parse env create clock (message req)
          (requestId req) ctrls (sessionId req) (availableAgents req)) !! other
     = ctrls !! other
  /\ local_controllers
       (executeClaudeCommand env files now query (message req) (requestId req)
          ctrls path (sessionId req) (allowedTools req) (workingDirectory req)
          (claudeAuth req)) !! other
     = ctrls !! other
  /\ run_controllers (handleChatRequest JSON_parse w req ctrls env) !! other
     = ctrls !! other.
Proof.
  intros Hne.
  rewrite http_controllers_eq, orch_controllers_eq, local_controllers_eq,
    run_controllers_eq.
  repeat split; apply lookup_delete_ne; congruence.
Qed.

Lemma registry_frame_witness :
  let ctrls : gmap string AbortController :=
    {[ "r0"%string := {| signal_aborted := true |} ]} in
  run_controllers
    (handleChatRequest JSON_parse_ref (sample_world [] [] [])
       (request_for "hello" [db_agent]) ctrls ∅) !! "r0"%string
  = Some {| signal_aborted := true |}.
Proof.
  intros ctrls.
  destruct (registry_frame JSON_parse_ref (sample_world [] [] [])
              (request_for "hello" [db_agent]) ctrls ∅
              (peer (ok_response [])) db_agent (fun _ => CreateResolves [])
              (fun _ => 0%Z) no_auth_files 0 (fun _ _ => []) "/usr/bin/claude"
              "r0") as (_ & _ & _ & ->).
  - discriminate.
  - reflexivity.
Defined.

(** ** The transport *)

Lemma written_events_enqueue_all random k evs :
  written_events (enqueue_all random k evs) = evs.
Proof.
  revert k. induction evs as [|e evs IH]; intros k; [reflexivity|].
  cbn [enqueue_all]. unfold written_events in IH |- *.
  destruct (random k); cbn [app omap list_omap]; rewrite IH; reflexivity.
Qed.

(** X16. What the handler writes to the response.  The first write is
    the connection acknowledgement and the second a flush marker; after
    that every event pulled from the strategy is written once, in order.
    The flush markers, whose places depend on the random draws, are
    white space between lines: a reader that drops them decodes the
    acknowledgement followed by exactly the strategy's events, whatever
    the draws were. *)
Theorem transport_writes_events_in_order JSON_parse w req
    (ctrls : gmap string AbortController) env :
  let r := handleChatRequest JSON_parse w req ctrls env in
  written_events (run_enqueued r)
  = ev_connection_ack (clock w 0) :: run_events r
  /\ exists rest,
       run_enqueued r
       = EnqJson (ev_connection_ack (clock w 0)) :: EnqFlush :: rest
       /\ written_events rest = run_events r.
Proof.
  intros r. subst r. unfold handleChatRequest.
  destruct (match selectExecutionMethod (globalRegistry w) req with
            | ExecAgentHttpRequest a => _
            | ExecOrchestratorWorkflow => _
            | ExecClaudeCommand => _
            end) as [[evs c] e].
  cbn [run_enqueued run_events].
  pose proof (written_events_enqueue_all (random_flush w) 0 evs) as H.
  split.
  - unfold written_events in H |- *. cbn [omap list_omap]. rewrite H. reflexivity.
  - eexists. split; [reflexivity | exact H].
Qed.

(** The events of a strategy that runs to its end. *)
Lemma handler_events_one_terminal JSON_parse w req
    (ctrls : gmap string AbortController) env :
  one_terminal_last (run_events (handleChatRequest JSON_parse w req ctrls env)).
Proof.
  unfold handleChatRequest.
  destruct (selectExecutionMethod (globalRegistry w) req) as [agent| |] eqn:Hsel.
  - exfalso. exact (remote_single_unreachable _ _ _ Hsel).
  - apply orch_one_terminal.
  - apply local_one_terminal.
Qed.

(** X17. What becomes of a request that the handler streams, the LLM
    stream and the SDK's messages being scripts that end.  The handler
    only ever runs the orchestrator planner or the local executor.
    Whenever the strategy's generator runs to its end (the planner's
    does; the local executor's does when its version probe returns),
    the events pulled from it end with exactly one terminal event, in
    last position, and hold none before it.  When the local
    executor's probe emits an unhandled error or never closes, no event
    is pulled at all: the response carries the connection
    acknowledgement and nothing else, no terminal event is ever written,
    and the request's registry entry stays. *)
Theorem handler_one_terminal JSON_parse spawnVersion w req
    (ctrls : gmap string AbortController) env :
  let out := handleChatRequest_process JSON_parse spawnVersion w req ctrls env in
  match out.1 with
  | RunsToEnd => one_terminal_last (run_events out.2)
  | _ =>
      run_method out.2 = ExecClaudeCommand
      /\ run_events out.2 = []
      /\ written_events (run_enqueued out.2) = [ev_connection_ack (clock w 0)]
      /\ run_controllers out.2 !! requestId req = Some new_AbortController
  end.
Proof.
  intros out. subst out. unfold handleChatRequest_process.
  pose proof (handler_events_one_terminal JSON_parse w req ctrls env) as Hall.
  destruct (run_method (handleChatRequest JSON_parse w req ctrls env));
    [exact Hall | exact Hall |].
  unfold executeClaudeCommand_process.
  destruct (auth_setup (authFiles w) (clock w 1) (claudeAuth req))
    as [authEnv args].
  destruct (install_authEnv authEnv (install_credentials (claudeAuth req) env))
    as [o e].
  destruct (spawnVersion e (claudePath w) (workingDirectory req));
    cbn [fst snd lp_fate lp_events lp_controllers lp_env probe_fate
         run_method run_events run_enqueued run_controllers].
  - apply local_one_terminal.
  - repeat split. apply lookup_insert_eq.
  - repeat split. apply lookup_insert_eq.
Qed.

Lemma handler_one_terminal_witness :
  let req := {| message := "hello"; requestId := "r1"; sessionId := None;
                allowedTools := None;
                workingDirectory := Some "/no/such/dir"%string;
                availableAgents := None; claudeAuth := None |} in
  let w := sample_world [] [] [SdkMessage (JStr "hello")] in
  one_terminal_last
    (run_events
       (handleChatRequest_process JSON_parse_ref
          (spawn_needs_cwd ["/no/such/dir"%string]) w req ∅ ∅).2)
  /\ run_events
       (handleChatRequest_process JSON_parse_ref (spawn_needs_cwd []) w req ∅ ∅).2
     = [].
Proof.
  intros req w. split.
  - exact (handler_one_terminal JSON_parse_ref
             (spawn_needs_cwd ["/no/such/dir"%string]) w req ∅ ∅).
  - exact (proj1 (proj2 (handler_one_terminal JSON_parse_ref (spawn_needs_cwd [])
                           w req ∅ ∅))).
Defined.

(** ** Orchestrator planner: further behaviour *)

Lemma falsy_or_else a b : falsy (or_else a b) = falsy a && falsy b.
Proof.
  destruct a as [s|]; [|reflexivity].
  unfold or_else. destruct (truthy s) eqn:Hs; cbn [falsy]; rewrite ?Hs; reflexivity.
Qed.

Lemma set_prop_same k v o : get_prop k o = Some v -> set_prop k v o = o.
Proof.
  induction o as [|[k0 v0] o IH]; simpl; [discriminate|].
  destruct (String.eqb k k0) eqn:E.
  - apply String.eqb_eq in E. subst k0. intros H. inversion H. reflexivity.
  - intros H. rewrite (IH H). reflexivity.
Qed.

Lemma update_last_id {A : Type} (f : A -> A) (l : list A) :
  (forall x, last l = Some x -> f x = x) -> update_last f l = l.
Proof.
  induction l as [|x l IH]; [reflexivity|].
  intros H. destruct l as [|y l].
  - simpl. rewrite (H x); reflexivity.
  - change (x :: update_last f (y :: l) = x :: y :: l). f_equal.
    apply IH. intros z Hz. apply H. exact Hz.
Qed.

Lemma is_tag_text_not_tool x :
  is_tag x "text" = true -> is_tag x "tool_use" = false.
Proof.
  destruct x as [[]|]; try discriminate. simpl.
  intros H. apply String.eqb_eq in H. subst. reflexivity.
Qed.

Section PlannerMore.

Variable JSON_parse : string -> option Json.

Local Abbreviation planner := (executeOrchestratorWorkflow JSON_parse).

(** X18. Without an API key the planner fails fast.  When neither
    [ANTHROPIC_API_KEY] nor [CLAUDE_API_KEY] is set to a non-empty value,
    its only event is the error that names the missing variable, no
    system message comes before it, and the run does not depend on the
    LLM client or the clock in any way: the client is not called. *)
Theorem planner_missing_key_fails_fast env create clock msg rid
    (ctrls : gmap string AbortController) sid agents create' clock' :
  falsy (env !! "ANTHROPIC_API_KEY") = true ->
  falsy (env !! "CLAUDE_API_KEY") = true ->
  orch_events (planner env create clock msg rid ctrls sid agents)
  = [ev_error
       "ANTHROPIC_API_KEY environment variable is required for orchestrator mode"]
  /\ planner env create clock msg rid ctrls sid agents
     = planner env create' clock' msg rid ctrls sid agents.
Proof.
  intros Ha Hc. unfold executeOrchestratorWorkflow.
  rewrite falsy_or_else, Ha, Hc. split; reflexivity.
Qed.

Lemma onChunk_assistant sid now st chunk :
  Forall (fun e => exists m, e = ev_assistant m sid now)
    (onChunk JSON_parse sid now st chunk).2.
Proof.
  destruct st as [cm content].
  destruct chunk as [id role model usage|b|[t|pj|]|sr ss u| | |]; cbn [onChunk snd];
    try constructor.
  - destruct cm; cbn [snd]; constructor.
  - destruct cm; cbn [snd]; repeat constructor. eexists. reflexivity.
Qed.

Lemma forChunks_assistant sid clock k st stream :
  Forall (fun e => exists m now, e = ev_assistant m sid now)
    (forChunks JSON_parse sid clock k st stream).1.2.
Proof.
  revert k st. induction stream as [|[chunk|e] stream IH]; intros k st;
    cbn [forChunks].
  - constructor.
  - pose proof (onChunk_assistant sid (clock k) st chunk) as Ho.
    destruct (onChunk JSON_parse sid (clock k) st chunk) as [st' out].
    pose proof (IH (S k) st') as Hr.
    destruct (forChunks JSON_parse sid clock (S k) st' stream) as [[st'' evs] c].
    cbn [fst snd] in *. apply Forall_app. split; [|exact Hr].
    eapply Forall_impl; [exact Ho|]. intros e [m ->]. eauto.
  - constructor.
Qed.

(** X19. With an API key, the planner calls the LLM client once, with
    the key ([ANTHROPIC_API_KEY] when non-empty, else [CLAUDE_API_KEY]),
    the ids of the worker agents as the allowed step targets, their
    descriptions one per line, and the message.  When the call is
    rejected the only event is an [error] with the rejection's message.
    When it resolves, the events are the system [init] message, then
    assistant messages only, then exactly one [done] (the stream ran out)
    or [error] (the stream threw). *)
Theorem planner_stream_shape env create clock msg rid
    (ctrls : gmap string AbortController) sid agents key :
  or_else (env !! "ANTHROPIC_API_KEY") (env !! "CLAUDE_API_KEY") = Some key ->
  truthy key = true ->
  let events := orch_events (planner env create clock msg rid ctrls sid agents) in
  let params :=
    {| create_apiKey := key;
       create_agent_enum := fst <$> worker_list agents;
       create_agentDescriptions :=
         join newline
           ((fun w => "- " +:+ w.1 +:+ ": " +:+ w.2) <$> worker_list agents);
       create_message := msg |} in
  match create params with
  | CreateRejects e => events = [ev_error (error_text e)]
  | CreateResolves stream =>
      exists assistants t,
        events = ev_system_init sid (clock 0) :: assistants ++ [t]
        /\ Forall (fun e => exists m now, e = ev_assistant m sid now) assistants
        /\ (t = ev_done \/ exists error, t = ev_error error)
  end.
Proof.
  intros Hkey Htruthy events params. subst events params.
  unfold executeOrchestratorWorkflow. rewrite Hkey.
  cbn [falsy default]. rewrite Htruthy. cbn [negb].
  destruct (create _) as [e | stream]; [reflexivity|].
  pose proof (forChunks_assistant sid clock 1 (None, []) stream) as Hf.
  pose proof (forChunks_no_return JSON_parse sid clock 1 (None, []) stream) as Hn.
  destruct (forChunks JSON_parse sid clock 1 (None, []) stream) as [[st evs] c].
  cbn [fst snd] in Hf, Hn. exists evs.
  destruct c as [| |err]; [|contradiction|]; eexists;
    (split; [reflexivity|]); (split; [exact Hf|]); eauto.
Qed.

Variables (sessionId : option string) (clock : nat -> Z).

Local Abbreviation forChunks := (forChunks JSON_parse sessionId clock).

Lemma add_text_accumulating block old d :
  is_tag (get_prop "type" block) "text" = true ->
  add_text d (set_prop "text" (JStr old) block)
  = set_prop "text" (JStr (old +:+ d)) block.
Proof.
  intros Hty. unfold add_text.
  rewrite get_prop_set_prop_ne by discriminate.
  rewrite Hty, get_prop_set_prop_eq. apply set_prop_set_prop.
Qed.

Lemma forChunks_text_deltas k cm content block old ds rest :
  is_tag (get_prop "type" block) "text" = true ->
  forChunks k (cm, content ++ [set_prop "text" (JStr old) block])
    (text_deltas ds ++ rest)
  = forChunks (k + length ds)
      (cm, content ++ [set_prop "text" (JStr (old +:+ concat_deltas ds)) block])
      rest.
Proof.
  intros Hty. revert k old.
  induction ds as [|d ds IH]; intros k old; simpl.
  - rewrite append_nil_r, Nat.add_0_r. reflexivity.
  - rewrite update_last_snoc, (add_text_accumulating _ _ _ Hty).
    rewrite IH, append_assoc.
    replace (S k + length ds) with (k + S (length ds)) by lia.
    destruct (forChunks _ _ rest) as [[st evs] c]. reflexivity.
Qed.

(** X20. However the text of a text block is cut into deltas, the
    planner's accumulation ends, when the block closes, with the block's
    [text] equal to the text it started with followed by the deltas in
    order; the block's other properties are untouched, closing it parses
    nothing, and the chunks of the block yield no event. *)
Theorem text_block_accumulates k cm content block old ds rest :
  is_tag (get_prop "type" block) "text" = true ->
  get_prop "text" block = Some (JStr old) ->
  forChunks k (cm, content)
    (LlmChunk (ContentBlockStart block)
       :: text_deltas ds ++ LlmChunk ContentBlockStop :: rest)
  = forChunks (k + length ds + 2)
      (cm, content ++ [set_prop "text" (JStr (old +:+ concat_deltas ds)) block])
      rest.
Proof.
  intros Hty Hold.
  pose proof (is_tag_text_not_tool _ Hty) as Hnt.
  simpl. rewrite Hnt.
  replace (content ++ [block])
    with (content ++ [set_prop "text" (JStr old) block])
    by (rewrite (set_prop_same _ _ _ Hold); reflexivity).
  rewrite (forChunks_text_deltas (S k) cm content block old ds _ Hty).
  simpl. rewrite update_last_snoc.
  assert (Hclose : close_block JSON_parse
                     (set_prop "text" (JStr (old +:+ concat_deltas ds)) block)
                   = set_prop "text" (JStr (old +:+ concat_deltas ds)) block).
  { unfold close_block. rewrite get_prop_set_prop_ne by discriminate.
    rewrite Hnt. reflexivity. }
  rewrite Hclose.
  replace (S (S (k + length ds))) with (k + length ds + 2) by lia.
  destruct (forChunks _ _ rest) as [[st evs] c]. reflexivity.
Qed.

(** X21. Chunks that arrive out of place change nothing and yield no
    event: a text delta when the last block is not a text block (or
    there is none), a partial-JSON delta or a block stop when the last
    block is not a tool call (or there is none), and a message delta or
    message stop before any message start. *)
Theorem misplaced_chunks_ignored now cm content :
  (forall text,
     is_tag (last_block_type content) "text" = false ->
     onChunk JSON_parse sessionId now (cm, content)
       (ContentBlockDelta (TextDelta text))
     = ((cm, content), []))
  /\ (forall chunk,
        is_tag (last_block_type content) "tool_use" = false ->
        (chunk = ContentBlockStop
         \/ exists partial_json,
              chunk = ContentBlockDelta (InputJsonDelta partial_json)) ->
        onChunk JSON_parse sessionId now (cm, content) chunk = ((cm, content), []))
  /\ (forall chunk,
        (chunk = MessageStop
         \/ exists stop_reason stop_sequence usage,
              chunk = MessageDelta stop_reason stop_sequence usage) ->
        onChunk JSON_parse sessionId now (None, content) chunk
        = ((None, content), [])).
Proof.
  unfold last_block_type. split; [|split].
  - intros text Hty. cbn [onChunk]. rewrite update_last_id; [reflexivity|].
    intros b Hb. rewrite Hb in Hty. cbn in Hty.
    unfold add_text. rewrite Hty. reflexivity.
  - intros chunk Hty [-> | [pj ->]]; cbn [onChunk];
      (rewrite update_last_id; [reflexivity|]);
      intros b Hb; rewrite Hb in Hty; cbn in Hty.
    + unfold close_block. rewrite Hty. reflexivity.
    + unfold add_partial_json. rewrite Hty. reflexivity.
  - intros chunk [-> | (sr & ss & u & ->)]; reflexivity.
Qed.

End PlannerMore.

Lemma planner_missing_key_fails_fast_witness :
  orch_events
    (executeOrchestratorWorkflow JSON_parse_ref
       {[ "ANTHROPIC_API_KEY"%string := EmptyString ]}
       (fun _ => CreateResolves [LlmChunk MessageStop]) (fun _ => 0%Z)
       "@db-agent and @web" "r1" ∅ None (Some [db_agent; web_agent]))
  = [ev_error
       "ANTHROPIC_API_KEY environment variable is required for orchestrator mode"].
Proof.
  refine (proj1 (planner_missing_key_fails_fast JSON_parse_ref
                   {[ "ANTHROPIC_API_KEY"%string := EmptyString ]}
                   (fun _ => CreateResolves [LlmChunk MessageStop]) (fun _ => 0%Z)
                   "@db-agent and @web" "r1" ∅ None (Some [db_agent; web_agent])
                   (fun _ => CreateResolves []) (fun _ => 1%Z) _ _));
    reflexivity.
Defined.

Lemma planner_stream_shape_witness :
  let env : gmap string string :=
    {[ "CLAUDE_API_KEY"%string := "sk-fallback"%string ]} in
  let create := fun p : CreateParams =>
    if String.eqb (create_apiKey p) "sk-fallback"
       && bool_decide (create_agent_enum p = ["db-agent"; "web"]%string)
    then CreateResolves [LlmChunk (MessageStart "msg_1" "assistant" "m" (JObj []));
                         LlmChunk MessageStop]
    else CreateRejects (new_Error "unexpected call") in
  exists assistants t,
    orch_events
      (executeOrchestratorWorkflow JSON_parse_ref env create (fun _ => 0%Z)
         "@db-agent and @web" "r1" ∅ (Some "s1"%string)
         (Some [db_agent; web_agent]))
    = ev_system_init (Some "s1"%string) 0 :: assistants ++ [t]
    /\ Forall (fun e => exists m now, e = ev_assistant m (Some "s1"%string) now)
         assistants
    /\ (t = ev_done \/ exists error, t = ev_error error).
Proof.
  intros env create.
  exact (planner_stream_shape JSON_parse_ref env create (fun _ => 0%Z)
           "@db-agent and @web" "r1" ∅ (Some "s1"%string)
           (Some [db_agent; web_agent]) "sk-fallback" eq_refl eq_refl).
Defined.

Lemma text_block_accumulates_witness :
  let block := [("type"%string, JStr "text"); ("text"%string, JStr "")] in
  (forChunks JSON_parse_ref None (fun _ => 0%Z) 1 (None, [])
     (LlmChunk (ContentBlockStart block)
        :: text_deltas ["Plan"; ": "; "two steps"]%string
        ++ [LlmChunk ContentBlockStop])).1.1.2
  = [[("type"%string, JStr "text"); ("text"%string, JStr "Plan: two steps")]].
Proof.
  intros block.
  rewrite (text_block_accumulates JSON_parse_ref None (fun _ => 0%Z) 1 None []
             block "" ["Plan"; ": "; "two steps"]%string [] eq_refl eq_refl).
  reflexivity.
Defined.

(** ** Building the provider registry *)

Lemma keyed_by_id_new : keyed_by_id new_ProviderRegistry.
Proof.
  intros k p H. unfold new_ProviderRegistry in H. cbn [providers] in H.
  rewrite lookup_empty in H. discriminate.
Qed.

Lemma keyed_by_id_registerProvider r provider :
  keyed_by_id r -> keyed_by_id (registerProvider r provider).
Proof.
  intros Hr k p. unfold registerProvider. cbn [providers].
  destruct (decide (k = provider_id provider)) as [-> | Hne].
  - rewrite lookup_insert_eq. intros H. inversion H. reflexivity.
  - rewrite lookup_insert_ne by congruence. apply Hr.
Qed.

Lemma keyed_by_id_register_if option Class r :
  keyed_by_id r -> keyed_by_id (register_if option Class r).
Proof.
  intros Hr. unfold register_if. destruct option as [s|]; [|exact Hr].
  destruct (truthy s); [apply keyed_by_id_registerProvider|]; exact Hr.
Qed.

Lemma keyed_by_id_initializeDefaultProviders classes options r :
  keyed_by_id r -> keyed_by_id (initializeDefaultProviders classes options r).
Proof.
  intros Hr. unfold initializeDefaultProviders.
  repeat apply keyed_by_id_register_if. exact Hr.
Qed.

Lemma providers_createDefaultAgents r :
  providers (createDefaultAgents r) = providers r.
Proof. reflexivity. Qed.

Lemma anthropic_needs_provider r :
  keyed_by_id r ->
  anthropic_orchestrator r -> is_Some (getProvider r "anthropic").
Proof.
  intros Hk (p & Hp & Hid). unfold getProviderForAgent in Hp.
  destruct (getAgent r "orchestrator") as [config|]; [|discriminate].
  unfold getProvider in Hp |- *.
  rewrite <- (Hk _ _ Hp), Hid in Hp. eauto.
Qed.

(** X22. The default set-up of the registry.  Starting from a registry
    in which every provider is filed under its own id (the empty one is),
    registering the providers for which a key or path is given and then
    the default agents keeps that property, always registers the
    [ux-designer], [implementation] and [orchestrator] agents, and makes
    the orchestrator agent resolve to the provider filed under
    [anthropic] when there is one and to the one under [claude-code]
    otherwise.  So the orchestrator is anthropic-served exactly when an
    anthropic provider is registered, and without one the chat handler
    runs every request with the local executor. *)
Theorem default_orchestrator_provider classes options r0 :
  keyed_by_id r0 ->
  let r := createDefaultAgents (initializeDefaultProviders classes options r0) in
  keyed_by_id r
  /\ is_Some (getAgent r "ux-designer")
  /\ is_Some (getAgent r "implementation")
  /\ (exists config, getAgent r "orchestrator" = Some config
                     /\ config_isOrchestrator config = Some true)
  /\ getProviderForAgent r "orchestrator"
     = match getProvider r "anthropic" with
       | Some p => Some p
       | None => getProvider r "claude-code"
       end
  /\ (anthropic_orchestrator r <-> is_Some (getProvider r "anthropic"))
  /\ (getProvider r "anthropic" = None ->
      forall req, selectExecutionMethod r req = ExecClaudeCommand).
Proof.
  intros Hk0 r.
  pose proof (keyed_by_id_initializeDefaultProviders classes options r0 Hk0) as Hk1.
  set (r1 := initializeDefaultProviders classes options r0) in *.
  assert (Hk : keyed_by_id r) by exact Hk1.
  assert (Hres : getProviderForAgent r "orchestrator"
                 = match getProvider r "anthropic" with
                   | Some p => Some p
                   | None => getProvider r "claude-code"
                   end).
  { subst r. unfold getProviderForAgent, getAgent, createDefaultAgents.
    cbn [agentConfigs registerAgent config_id]. rewrite lookup_insert_eq.
    cbn [config_provider]. unfold getProvider. cbn [providers registerAgent].
    destruct (providers r1 !! "anthropic"%string) as [p|] eqn:Hp.
    - exact Hp.
    - reflexivity. }
  assert (Hiff : anthropic_orchestrator r <-> is_Some (getProvider r "anthropic")).
  { split; [apply anthropic_needs_provider, Hk|].
    intros [p Hp]. exists p. rewrite Hres, Hp. split; [reflexivity|].
    exact (Hk _ _ Hp). }
  split; [exact Hk|].
  split; [subst r; unfold getAgent, createDefaultAgents;
          cbn [agentConfigs registerAgent config_id];
          rewrite lookup_insert_ne, lookup_insert_ne, lookup_insert_eq
            by discriminate; eauto|].
  split; [subst r; unfold getAgent, createDefaultAgents;
          cbn [agentConfigs registerAgent config_id];
          rewrite lookup_insert_ne, lookup_insert_eq by discriminate; eauto|].
  split; [subst r; unfold getAgent, createDefaultAgents;
          cbn [agentConfigs registerAgent config_id];
          rewrite lookup_insert_eq; eexists; split; reflexivity|].
  split; [exact Hres|]. split; [exact Hiff|].
  intros Hnone req.
  rewrite selectExecutionMethod_eq.
  destruct (shouldUseOrchestrator r (message req) (availableAgents req)) eqn:E;
    [|reflexivity].
  apply shouldUseOrchestrator_iff in E as [Ha _]. apply Hiff in Ha.
  rewrite Hnone in Ha. destruct Ha as [? Ha]. discriminate Ha.
Qed.

Lemma default_orchestrator_provider_witness :
  let with_key :=
    createDefaultAgents
      (initializeDefaultProviders sample_classes
         {| openaiApiKey := None; opt_claudePath := Some "/usr/bin/claude"%string;
            anthropicApiKey := Some "sk-key"%string |}
         new_ProviderRegistry) in
  let without_key :=
    createDefaultAgents
      (initializeDefaultProviders sample_classes
         {| openaiApiKey := None; opt_claudePath := Some "/usr/bin/claude"%string;
            anthropicApiKey := Some EmptyString |}
         new_ProviderRegistry) in
  anthropic_orchestrator with_key
  /\ selectExecutionMethod without_key
       (request_for "@db-agent and @web" [db_agent; web_agent])
     = ExecClaudeCommand.
Proof.
  intros with_key without_key. split.
  - apply (default_orchestrator_provider sample_classes _ new_ProviderRegistry
             keyed_by_id_new).
    eexists. reflexivity.
  - apply (default_orchestrator_provider sample_classes _ new_ProviderRegistry
             keyed_by_id_new).
    reflexivity.
Defined.

(** ** The Workers deployment *)

Lemma keyed_by_id_registerAgent r config :
  keyed_by_id r -> keyed_by_id (registerAgent r config).
Proof. intros Hr. exact Hr. Qed.

Lemma keyed_by_id_workers classes options :
  keyed_by_id
    (Workers.createDefaultAgents
       (Workers.initializeProviders classes options new_ProviderRegistry)).
Proof.
  assert (H1 : keyed_by_id
                 (Workers.initializeProviders classes options new_ProviderRegistry)).
  { unfold Workers.initializeProviders.
    repeat apply keyed_by_id_register_if. apply keyed_by_id_new. }
  unfold Workers.createDefaultAgents.
  destruct (getProvider _ "openai");
    (match goal with |- context [getProvider ?r "anthropic"] =>
       destruct (getProvider r "anthropic") end);
    exact H1.
Qed.

(** X23. The default set-up of the Workers registry, from the empty
    registry and for any keys.  Every provider is filed under its own id;
    the [orchestrator] agent is registered exactly when a provider is
    filed under [anthropic], and the [ux-designer] agent exactly when one
    is filed under [openai]; no [implementation] agent exists; and the
    orchestrator agent resolves to the anthropic provider or to nothing.
    So in this deployment the orchestrator is anthropic-served exactly
    when an anthropic provider is registered. *)
Theorem workers_default_agents classes options :
  let r := Workers.createDefaultAgents
             (Workers.initializeProviders classes options new_ProviderRegistry) in
  keyed_by_id r
  /\ (is_Some (getAgent r "orchestrator") <-> is_Some (getProvider r "anthropic"))
  /\ (is_Some (getAgent r "ux-designer") <-> is_Some (getProvider r "openai"))
  /\ getAgent r "implementation" = None
  /\ getProviderForAgent r "orchestrator" = getProvider r "anthropic"
  /\ (anthropic_orchestrator r <-> is_Some (getProvider r "anthropic")).
Proof.
  intros r.
  pose proof (keyed_by_id_workers classes options) as Hk. fold r in Hk.
  set (r1 := Workers.initializeProviders classes options new_ProviderRegistry) in *.
  assert (Hagents : agentConfigs r1 = ∅).
  { subst r1. unfold Workers.initializeProviders, register_if.
    destruct (openaiApiKey options) as [s|]; [destruct (truthy s)|];
      (destruct (anthropicApiKey options) as [s'|]; [destruct (truthy s')|]);
      reflexivity. }
  assert (Hprov : providers r = providers r1).
  { subst r. unfold Workers.createDefaultAgents.
    destruct (getProvider r1 "openai");
      (match goal with |- context [getProvider ?x "anthropic"] =>
         destruct (getProvider x "anthropic") end);
      reflexivity. }
  assert (Hres : getProviderForAgent r "orchestrator" = getProvider r "anthropic").
  { unfold getProviderForAgent, getProvider at 2. rewrite Hprov.
    subst r. unfold Workers.createDefaultAgents, getAgent, getProvider.
    destruct (providers r1 !! "openai"%string);
      cbn [providers agentConfigs registerAgent config_id];
      destruct (providers r1 !! "anthropic"%string) as [p|] eqn:Hp;
      cbn [providers agentConfigs registerAgent config_id config_provider];
      rewrite ?Hagents, ?lookup_insert_eq, ?lookup_insert_ne, ?lookup_empty
        by discriminate;
      cbn [config_provider]; congruence. }
  split; [exact Hk|].
  split; [|split; [|split; [|split; [exact Hres|]]]].
  - unfold getProvider. rewrite Hprov.
    subst r. unfold Workers.createDefaultAgents, getAgent, getProvider.
    destruct (providers r1 !! "openai"%string);
      cbn [providers agentConfigs registerAgent config_id];
      destruct (providers r1 !! "anthropic"%string) as [p|] eqn:Hp;
      cbn [providers agentConfigs registerAgent config_id];
      rewrite ?Hagents, ?lookup_insert_eq, ?lookup_insert_ne, ?lookup_empty
        by discriminate;
      split; intros [x Hx]; first [discriminate Hx | eauto].
  - unfold getProvider. rewrite Hprov.
    subst r. unfold Workers.createDefaultAgents, getAgent, getProvider.
    destruct (providers r1 !! "openai"%string) as [q|] eqn:Hq;
      cbn [providers agentConfigs registerAgent config_id];
      destruct (providers r1 !! "anthropic"%string) as [p|] eqn:Hp;
      cbn [providers agentConfigs registerAgent config_id];
      rewrite ?Hagents, ?lookup_insert_eq, ?lookup_insert_ne, ?lookup_empty
        by discriminate;
      split; intros [x Hx]; first [discriminate Hx | eauto].
  - subst r. unfold Workers.createDefaultAgents, getAgent, getProvider.
    destruct (providers r1 !! "openai"%string) as [q|] eqn:Hq;
      cbn [providers agentConfigs registerAgent config_id];
      destruct (providers r1 !! "anthropic"%string) as [p|] eqn:Hp;
      cbn [providers agentConfigs registerAgent config_id];
      rewrite ?Hagents, ?lookup_insert_ne, ?lookup_empty by discriminate;
      reflexivity.
  - split; [apply anthropic_needs_provider, Hk|].
    intros [p Hp]. exists p. rewrite Hres. split; [exact Hp|].
    exact (Hk _ _ Hp).
Qed.
Lemma shouldUseOrchestratorMode_eq reg msg agents :
  Workers.shouldUseOrchestratorMode reg msg agents
  = shouldUseOrchestrator reg msg agents.
Proof.
  unfold Workers.shouldUseOrchestratorMode, shouldUseOrchestrator.
  destruct (negb _); [reflexivity|].
  destruct agents as [[|a agents]|]; try reflexivity.
  destruct (match_mentions msg); reflexivity.
Qed.

(** X24. How the Workers handler answers a chat request.  A request
    whose message or request id is empty is refused with status 400 and
    the error ["Missing required fields: message, requestId"], whatever
    else it holds.  Any other request is classified exactly as by the
    main handler: it goes to the multi-agent handler when the main
    handler would run the orchestrator planner, and to the single-agent
    stream when the main handler would run its local executor. *)
Theorem workers_route reg req :
  (message req = EmptyString \/ requestId req = EmptyString ->
   Workers.handleChatRequest reg req
   = RouteJson
       (JObj [("error"%string,
               JStr "Missing required fields: message, requestId")]) 400)
  /\ (message req <> EmptyString -> requestId req <> EmptyString ->
      Workers.handleChatRequest reg req
      = match selectExecutionMethod reg req with
        | ExecOrchestratorWorkflow => RouteMultiAgent
        | _ => RouteSingleAgent
        end).
Proof.
  unfold Workers.handleChatRequest. split.
  - intros [-> | ->]; [reflexivity|]. rewrite orb_true_r. reflexivity.
  - intros Hm Hr.
    destruct (message req) as [|c m] eqn:Em; [congruence|].
    destruct (requestId req) as [|c' r'] eqn:Er; [congruence|].
    cbn [truthy negb orb].
    rewrite shouldUseOrchestratorMode_eq, selectExecutionMethod_eq, Em.
    destruct (shouldUseOrchestrator _ _ _); reflexivity.
Qed.

Lemma workers_route_witness :
  Workers.handleChatRequest anthropic_registry
    {| message := "@db-agent and @web"; requestId := EmptyString;
       sessionId := None; allowedTools := None; workingDirectory := None;
       availableAgents := Some [db_agent; web_agent]; claudeAuth := None |}
  = RouteJson
      (JObj [("error"%string,
              JStr "Missing required fields: message, requestId")]) 400
  /\ Workers.handleChatRequest anthropic_registry
       (request_for "@db-agent and @web" [db_agent; web_agent])
     = RouteMultiAgent.
Proof.
  split.
  - apply (proj1 (workers_route anthropic_registry _)). right. reflexivity.
  - rewrite (proj2 (workers_route anthropic_registry
                      (request_for "@db-agent and @web" [db_agent; web_agent])));
      [reflexivity | discriminate | discriminate].
Defined.

Lemma onResponse_events rid agentId response :
  Forall (fun e => workers_event_type e
                   /\ get_prop "requestId" (props_of e) = Some (JStr rid)
                   /\ get_prop "agentId" (props_of e) = Some (JStr agentId))
    (Workers.onResponse rid agentId response).
Proof.
  unfold Workers.onResponse, workers_event_type.
  destruct (_ && _); [|destruct (String.eqb _ "done");
                        [|destruct (String.eqb _ "error")]];
    [| | |constructor];
    (constructor; [|constructor]); (split; [|split; reflexivity]).
  - left. reflexivity.
  - right. left. reflexivity.
  - right. right. reflexivity.
Qed.

Lemma forResponses_split rid agentId script :
  exists responses rest,
    script = (ProviderYields <$> responses) ++ rest
    /\ (rest = [] \/ exists e rest', rest = ProviderThrows e :: rest')
    /\ Workers.forResponses rid agentId script
       = (responses ≫= Workers.onResponse rid agentId,
          match rest with
          | ProviderThrows e :: _ => Throw e
          | _ => Normal
          end).
Proof.
  induction script as [|[response|e] script IH].
  - exists [], []. repeat split. left. reflexivity.
  - destruct IH as (responses & rest & -> & Hrest & Hf).
    exists (response :: responses), rest. repeat split; [exact Hrest|].
    cbn [Workers.forResponses]. rewrite Hf. reflexivity.
  - exists [], (ProviderThrows e :: script). repeat split. right. eauto.
Qed.

Lemma forResponses_events rid agentId script :
  Forall (fun e => workers_event_type e
                   /\ get_prop "requestId" (props_of e) = Some (JStr rid)
                   /\ get_prop "agentId" (props_of e) = Some (JStr agentId))
    (Workers.forResponses rid agentId script).1.
Proof.
  induction script as [|[response|e] script IH]; cbn [Workers.forResponses].
  - constructor.
  - destruct (Workers.forResponses rid agentId script) as [evs c].
    cbn [fst] in *. apply Forall_app. split; [apply onResponse_events | exact IH].
  - constructor.
Qed.

(** X25. The single-agent stream of the Workers deployment, for every
    provider script.  With no provider filed under [anthropic] the only
    event is the error ["Anthropic provider not available"], from agent
    [system], and no provider is called.  Otherwise the provider is given
    the request's message, session id and request id, and the events are
    the translation, in order, of its responses up to its first failure:
    a text response with content becomes a [text_delta], a [done]
    response a [done] with empty content, an [error] response an [error]
    whose content is the response's error or ["Unknown error"], and any
    other response nothing; each event carries the request id and the
    agent id [anthropic].  A [done] response does not end the stream.
    In every case, also when the provider throws, the registry entry of
    the request is removed and the others are kept. *)
Theorem workers_single_agent_stream reg executeChat req
    (ctrls : gmap string AbortController) :
  let r := Workers.executeSingleAgentChat reg executeChat req ctrls in
  let chat := {| chat_message := message req; chat_sessionId := sessionId req;
                 chat_requestId := requestId req |} in
  workers_controllers r = delete (requestId req) ctrls
  /\ Forall (fun e => workers_event_type e
                      /\ get_prop "requestId" (props_of e)
                         = Some (JStr (requestId req)))
       (workers_events r)
  /\ match getProvider reg "anthropic" with
     | None =>
         workers_events r
         = [Workers.stream_event "error" "Anthropic provider not available"
              (requestId req) "system"]
         /\ workers_chat r = None
     | Some provider =>
         workers_chat r = Some chat
         /\ exists responses rest,
              executeChat provider chat = (ProviderYields <$> responses) ++ rest
              /\ (rest = [] \/ exists e rest', rest = ProviderThrows e :: rest')
              /\ workers_events r
                 = responses ≫= Workers.onResponse (requestId req) "anthropic"
              /\ workers_completion r
                 = match rest with
                   | ProviderThrows e :: _ => Throw e
                   | _ => Normal
                   end
     end.
Proof.
  intros r chat. subst r chat. unfold Workers.executeSingleAgentChat.
  destruct (getProvider reg "anthropic") as [provider|].
  - match goal with |- context [Workers.forResponses ?a ?b ?s] =>
      pose proof (forResponses_events a b s) as Hev;
      destruct (forResponses_split a b s) as (responses & rest & Hs & Hrest & Hf)
    end.
    rewrite Hf in Hev |- *. cbn [fst] in Hev.
    cbn [workers_controllers workers_events workers_chat workers_completion].
    split; [apply delete_insert_eq|]. split.
    + eapply Forall_impl; [exact Hev|]. intros e (H1 & H2 & _). auto.
    + split; [reflexivity|]. exists responses, rest. auto.
  - cbn [workers_controllers workers_events workers_chat workers_completion].
    split; [apply delete_insert_eq|]. split.
    + constructor; [|constructor]. split; [|reflexivity].
      right. right. reflexivity.
    + split; reflexivity.
Qed.

(** X26. The multi-agent stream of the Workers deployment.  When no
    provider serves the orchestrator agent, the only event is the error
    ["Orchestrator not available"] and no provider is called.  When the
    request was routed here by the Workers chat handler, that cannot
    happen: the orchestrator's provider exists, it is given a message
    that begins with the list of available agents and ends with the
    user's request, and every event carries the request id and the agent
    id [orchestrator].  The registry entry of the request is removed in
    every case. *)
Theorem workers_multi_agent_stream reg executeChat req
    (ctrls : gmap string AbortController) :
  let r := Workers.executeMultiAgentChat reg executeChat req ctrls in
  workers_controllers r = delete (requestId req) ctrls
  /\ (getProviderForAgent reg "orchestrator" = None ->
      workers_events r
      = [Workers.stream_event "error" "Orchestrator not available"
           (requestId req) "system"]
      /\ workers_chat r = None)
  /\ (Workers.handleChatRequest reg req = RouteMultiAgent ->
      exists agentsList,
        workers_chat r
        = Some {| chat_message :=
                    "Available agents:" +:+ newline +:+ agentsList +:+ newline
                    +:+ newline +:+ "User request:" +:+ newline +:+ message req;
                  chat_sessionId := sessionId req;
                  chat_requestId := requestId req |}
        /\ Forall (fun e => workers_event_type e
                            /\ get_prop "requestId" (props_of e)
                               = Some (JStr (requestId req))
                            /\ get_prop "agentId" (props_of e)
                               = Some (JStr "orchestrator"))
             (workers_events r)).
Proof.
  intros r. subst r. unfold Workers.executeMultiAgentChat.
  split; [|split].
  - destruct (getProviderForAgent reg "orchestrator");
      [destruct (Workers.forResponses _ _ _)|]; apply delete_insert_eq.
  - intros ->. split; reflexivity.
  - intros Hroute. unfold Workers.handleChatRequest in Hroute.
    destruct (negb _ || negb _); [discriminate|].
    destruct (Workers.shouldUseOrchestratorMode reg (message req)
                (availableAgents req)) eqn:Hs; [|discriminate].
    rewrite shouldUseOrchestratorMode_eq in Hs.
    apply shouldUseOrchestrator_iff in Hs
      as ((p & Hp & _) & (a & agents & Hagents) & _).
    rewrite Hp. unfold Workers.contextMessage. rewrite Hagents.
    match goal with |- context [Workers.forResponses ?a ?b ?s] =>
      pose proof (forResponses_events a b s) as Hev;
      destruct (Workers.forResponses a b s) as [evs c]
    end.
    cbn [fst] in Hev. cbn [workers_chat workers_events].
    eexists. split; [reflexivity | exact Hev].
Qed.

Lemma workers_multi_agent_stream_witness :
  let req := request_for "@db-agent and @web" [db_agent; web_agent] in
  let executeChat := fun (_ : AgentProvider) (chat : ProviderChatRequest) =>
    [ProviderYields (text_response (chat_message chat));
     ProviderYields (text_response EmptyString);
     ProviderYields done_response] in
  (exists agentsList,
     workers_chat
       (Workers.executeMultiAgentChat anthropic_registry executeChat req ∅)
     = Some {| chat_message :=
                 "Available agents:" +:+ newline +:+ agentsList +:+ newline
                 +:+ newline +:+ "User request:" +:+ newline
                 +:+ "@db-agent and @web";
               chat_sessionId := None; chat_requestId := "r1" |}
     /\ Forall (fun e => workers_event_type e
                         /\ get_prop "requestId" (props_of e) = Some (JStr "r1")
                         /\ get_prop "agentId" (props_of e)
                            = Some (JStr "orchestrator"))
          (workers_events
             (Workers.executeMultiAgentChat anthropic_registry executeChat req ∅)))
  /\ workers_events
       (Workers.executeMultiAgentChat new_ProviderRegistry executeChat req ∅)
     = [Workers.stream_event "error" "Orchestrator not available" "r1" "system"].
Proof.
  intros req executeChat. split.
  - apply (workers_multi_agent_stream anthropic_registry executeChat req ∅).
    reflexivity.
  - apply (workers_multi_agent_stream new_ProviderRegistry executeChat req ∅).
    reflexivity.
Defined.

(** ** Frontend endpoints *)

(** X27. The frontend's endpoint URLs.  In a development build with
    [VITE_USE_LOCAL_API] set to ["true"] every URL is the bare path,
    whatever orchestrator endpoint is configured.  Otherwise the path is
    put after the orchestrator endpoint, or after the hosted backend when
    that endpoint is missing or empty; the chat URL for an endpoint is
    then the very URL to which the backend's delegate posts for an agent
    with that endpoint, and the abort URL ends with the request id. *)
Theorem frontend_urls env orchestratorEndpoint rid :
  (DEV env = true -> VITE_USE_LOCAL_API env = Some "true"%string ->
   getChatUrl env orchestratorEndpoint = "/api/chat"%string
   /\ getProjectsUrl env orchestratorEndpoint = "/api/projects"%string
   /\ getAbortUrl env rid orchestratorEndpoint = "/api/abort/" +:+ rid)
  /\ (DEV env = false \/ VITE_USE_LOCAL_API env <> Some "true"%string ->
      (falsy orchestratorEndpoint = true ->
       getChatUrl env orchestratorEndpoint = render_backend +:+ "/api/chat"
       /\ getAbortUrl env rid orchestratorEndpoint
          = render_backend +:+ "/api/abort/" +:+ rid)
      /\ (forall agent,
            falsy orchestratorEndpoint = false ->
            apiEndpoint agent = orchestratorEndpoint ->
            getChatUrl env orchestratorEndpoint = chat_url agent
            /\ getAbortUrl env rid orchestratorEndpoint
               = template (apiEndpoint agent) +:+ "/api/abort/" +:+ rid)).
Proof.
  unfold getChatUrl, getProjectsUrl, getAbortUrl, getApiUrl, chat_url.
  split.
  - intros -> ->. rewrite bool_decide_eq_true_2 by reflexivity.
    repeat split.
  - intros Hmode.
    assert (Hoff : DEV env
                   && bool_decide (VITE_USE_LOCAL_API env = Some "true"%string)
                   = false).
    { destruct Hmode as [-> | Hne]; [reflexivity|].
      rewrite bool_decide_eq_false_2 by exact Hne. apply andb_false_r. }
    rewrite Hoff. split.
    + intros Hf. destruct orchestratorEndpoint as [e|]; cbn [falsy] in Hf.
      * unfold or_else. apply negb_true_iff in Hf. rewrite Hf.
        split; reflexivity.
      * split; reflexivity.
    + intros agent Hf <-. destruct (apiEndpoint agent) as [e|]; cbn [falsy] in Hf;
        [|discriminate].
      apply negb_false_iff in Hf. unfold or_else. rewrite Hf.
      split; reflexivity.
Qed.

Lemma frontend_urls_witness :
  getChatUrl {| DEV := true; VITE_USE_LOCAL_API := Some "true"%string |}
    (Some "http://peer"%string) = "/api/chat"%string
  /\ getChatUrl {| DEV := true; VITE_USE_LOCAL_API := None |}
       (Some "http://peer"%string) = chat_url db_agent
  /\ getAbortUrl {| DEV := false; VITE_USE_LOCAL_API := Some "true"%string |}
       "r1" (Some EmptyString)
     = (render_backend +:+ "/api/abort/" +:+ "r1")%string.
Proof.
  split; [|split].
  - destruct (frontend_urls {| DEV := true;
                               VITE_USE_LOCAL_API := Some "true"%string |}
                (Some "http://peer"%string) "r1") as [Hlocal _].
    destruct Hlocal as [Hchat _]; [reflexivity | reflexivity | exact Hchat].
  - destruct (frontend_urls {| DEV := true; VITE_USE_LOCAL_API := None |}
                (Some "http://peer"%string) "r1") as [_ Hremote].
    destruct Hremote as [_ Hagent]; [right; discriminate|].
    destruct (Hagent db_agent) as [Hchat _];
      [reflexivity | reflexivity | exact Hchat].
  - destruct (frontend_urls {| DEV := false;
                               VITE_USE_LOCAL_API := Some "true"%string |}
                (Some EmptyString) "r1") as [_ Hremote].
    destruct Hremote as [Hdefault _]; [left; reflexivity|].
    destruct Hdefault as [_ Habort]; [reflexivity | exact Habort].
Defined.
